(** * python-memtools: the snapshot store, the parallel scanner, the type
    catalog, the await graph, frame validity and the container reprs.

    A shallow embedding of the C++ sources.  Unsigned 64-bit values
    ([uint64_t], [size_t], [MappedPtr<T>::addr]) are integers of [Z] whose
    wrap-around is written out with [wrap64]; exceptions are a [result]
    type; ordered and unordered maps are sorted lists and [gmap]s. *)

From Stdlib Require Import ZArith Lia Ascii String.
From stdpp Require Import gmap strings list sorting pretty.

Local Open Scope Z_scope.

(** ** Machine integers and exceptions *)

Definition wrap64 (x : Z) : Z := x mod 2 ^ 64.

Definition in_u64 (x : Z) : Prop := 0 <= x < 2 ^ 64.

Inductive exn : Type :=
| out_of_range (what : string)
| logic_error (what : string)
| runtime_error (what : string).

Inductive result (A : Type) : Type :=
| Ok (a : A)
| Throw (e : exn).
Arguments Ok {A} a.
Arguments Throw {A} e.

Definition is_ok {A} (r : result A) : bool :=
  match r with Ok _ => true | Throw _ => false end.

Definition bind_result {A B} (r : result A) (k : A -> result B) : result B :=
  match r with Ok a => k a | Throw e => Throw e end.

(** ** MappedPtr<T>: an address of the target process *)

Module MappedPtr.

(** [offset_bytes]: [MappedPtr<T>{this->addr + bytes}]. *)
Definition offset_bytes (addr bytes : Z) : Z := wrap64 (addr + bytes).

(** [bytes_until]: [end_ptr.addr - this->addr]. *)
Definition bytes_until (addr end_ptr : Z) : Z := wrap64 (end_ptr - addr).

Definition is_null (addr : Z) : bool := addr =? 0.

End MappedPtr.

(** ** MemoryMappedFile::View and MemoryReader *)

(** [v_data] holds the bytes of the backing file that the host pointer
    [data] of the view points at. *)
Record View : Type := mkView {
  v_addr : Z;
  v_file_offset : Z;
  v_data : list Byte.byte;
  v_size : Z
}.

(** [regions_by_mapped] is a [std::map] keyed by [view.addr]: the list of
    its values in key order. *)
Record MemoryReader : Type := mkReader {
  regions_by_mapped : list View
}.

(** The predecessor of [upper_bound(addr)]: the last view whose key is not
    greater than [addr]; [None] when [upper_bound] is [begin()]. *)
Fixpoint upper_bound_prev (m : list View) (addr : Z) (prev : option View)
  : option View :=
  match m with
  | [] => prev
  | v :: m' =>
      if addr <? v_addr v then prev else upper_bound_prev m' addr (Some v)
  end.

Definition find_region_by_mapped_addr (r : MemoryReader) (addr : Z)
  : result View :=
  match upper_bound_prev (regions_by_mapped r) addr None with
  | None => Throw (out_of_range "Address not within any block")
  | Some v =>
      if MappedPtr.offset_bytes (v_addr v) (v_size v) <=? addr
      then Throw (out_of_range "Address not within any block")
      else Ok v
  end.

Definition reader_exists (r : MemoryReader) (addr : Z) : bool :=
  is_ok (find_region_by_mapped_addr r addr).

Definition exists_range (r : MemoryReader) (addr size : Z) : bool :=
  match find_region_by_mapped_addr r addr with
  | Ok rgn =>
      MappedPtr.bytes_until (v_addr rgn) (MappedPtr.offset_bytes addr size)
        <=? v_size rgn
  | Throw _ => false
  end.

(** [exists_array<T>]: [exists_range(addr, count * sizeof(T))]. *)
Definition exists_array (r : MemoryReader) (sizeof_T addr count : Z) : bool :=
  exists_range r addr (wrap64 (count * sizeof_T)).

(** [phosg::StringReader(rgn.data + offset, size)]: the bytes it views. *)
Definition string_reader (data : list Byte.byte) (offset size : Z)
  : list Byte.byte :=
  take (Z.to_nat size) (drop (Z.to_nat offset) data).

Definition read (r : MemoryReader) (addr size : Z) : result (list Byte.byte) :=
  bind_result (find_region_by_mapped_addr r addr) (fun rgn =>
    let offset := MappedPtr.bytes_until (v_addr rgn) addr in
    if (wrap64 (offset + size) >? v_size rgn)
       || (wrap64 (offset + size) <? offset)
    then Throw (out_of_range "Read size extends beyond end of region")
    else Ok (string_reader (v_data rgn) offset size)).

Definition region_for_address (r : MemoryReader) (addr : Z) : result (Z * Z) :=
  bind_result (find_region_by_mapped_addr r addr) (fun rgn =>
    Ok (v_addr rgn, v_size rgn)).

Definition all_regions (r : MemoryReader) : list (Z * Z) :=
  map (fun v => (v_addr v, v_size v)) (regions_by_mapped r).

(** [obj_valid<T>]; [sizeof_T] is [sizeof(SizeType)]. *)
Definition obj_valid (r : MemoryReader) (sizeof_T addr alignment : Z) : bool :=
  negb (addr =? 0)
  && negb (negb (Z.land addr (wrap64 (alignment - 1)) =? 0))
  && exists_range r addr sizeof_T.

(** [obj_valid_or_null<T>]: the negation spans the conjunction of the
    alignment test and [exists_range], as the parentheses of the source
    have it. *)
Definition obj_valid_or_null (r : MemoryReader) (sizeof_T addr alignment : Z)
  : bool :=
  (addr =? 0)
  || negb (negb (Z.land addr (wrap64 (alignment - 1)) =? 0)
           && exists_range r addr sizeof_T).

(** *** Well-formed snapshots

    The keys of [regions_by_mapped] increase strictly ([std::map]); the
    data model adds that regions lie in the 64-bit address space, do not
    overlap, and that each view owns [v_size] bytes. *)

Definition view_ok (v : View) : bool :=
  (0 <=? v_addr v) && (0 <=? v_size v) && (v_addr v + v_size v <? 2 ^ 64)
  && (Z.of_nat (length (v_data v)) =? v_size v).

Fixpoint regions_sorted (m : list View) : bool :=
  match m with
  | [] => true
  | v :: m' =>
      match m' with
      | [] => true
      | w :: _ => (v_addr v + v_size v <=? v_addr w) && (v_addr v <? v_addr w)
      end && regions_sorted m'
  end.

Definition regions_wf (r : MemoryReader) : bool :=
  forallb view_ok (regions_by_mapped r) && regions_sorted (regions_by_mapped r).

(** [addr] is a byte of the view. *)
Definition in_view (v : View) (addr : Z) : Prop :=
  v_addr v <= addr < v_addr v + v_size v.

(** The range [[addr, addr+size)] lies inside the view. *)
Definition range_in_view (v : View) (addr size : Z) : Prop :=
  v_addr v <= addr /\ addr + size <= v_addr v + v_size v.

(** *** Sample snapshots *)

(** One page of zero bytes mapped at [0x1000]. *)
Definition reader_one_page : MemoryReader :=
  mkReader [mkView 0x1000 0 (repeat Byte.x00 4096) 0x1000].

(** ** MemoryReader::map_all_addresses: the parallel scanner

    Every worker thread runs [thread_fn]; a schedule (the list of thread
    indices in the order in which they take a step) resolves the
    interleaving.  A step is one [fetch_add] on [current_offset] or one
    turn of the inner [for] loop; [calls] records the invocations of [fn]
    in the order they happen, as (address, thread index). *)

Definition block_stride : Z := 0x1000.

(** [region_start_offsets]: [emplace_back(back() + rgn.second)]. *)
Fixpoint region_start_offsets_from (back : Z) (regions : list (Z * Z)) : list Z :=
  match regions with
  | [] => []
  | rgn :: rest =>
      let e := wrap64 (back + rgn.2) in
      e :: region_start_offsets_from e rest
  end.

Definition region_start_offsets (regions : list (Z * Z)) : list Z :=
  0 :: region_start_offsets_from 0 regions.

(** [region_rs]: one [read(rgn.first, rgn.second)] per region. *)
Fixpoint region_readers (r : MemoryReader) (regions : list (Z * Z))
  : result (list (list Byte.byte)) :=
  match regions with
  | [] => Ok []
  | rgn :: rest =>
      bind_result (read r rgn.1 rgn.2) (fun rd =>
      bind_result (region_readers r rest) (fun rds => Ok (rd :: rds)))
  end.

Record scan_setup : Type := mkSetup {
  ss_stride : Z;
  ss_object_size : Z;
  ss_regions : list (Z * Z);
  ss_offsets : list Z
}.

(** [region_start_offsets.back()]. *)
Definition ss_back (S : scan_setup) : Z := default 0 (last (ss_offsets S)).

(** Where a worker thread stands: at the [fetch_add] of the outer [while],
    at the test of the inner [for] loop, or returned.  [Fault] is a vector
    subscript past the end (undefined behaviour). *)
Inductive thread_state : Type :=
| Fetching (current_region : nat)
| InBlock (current_region : nat) (offset offset_within_region addr z : Z)
| Joined
| Fault.

Record scan_state : Type := mkScan {
  current_offset : Z;
  threads : list thread_state;
  calls : list (Z * nat)
}.

(** [while (offset >= region_start_offsets[current_region + 1])
    current_region++]; [ends] is the vector from index
    [current_region + 1] on. *)
Fixpoint advance_region (ends : list Z) (offset : Z) (current_region : nat)
  : option nat :=
  match ends with
  | [] => None
  | e :: ends' =>
      if offset >=? e then advance_region ends' offset (S current_region)
      else Some current_region
  end.

(** [region_start_offsets[current_region + 1] - object_size], in [size_t]. *)
Definition block_limit (S : scan_setup) (current_region : nat) : option Z :=
  e ← ss_offsets S !! (current_region + 1)%nat;
  Some (wrap64 (e - ss_object_size S)).

Definition fetch_step (S : scan_setup) (current_region : nat) (offset : Z)
  : thread_state :=
  if offset <? ss_back S then
    match advance_region (drop (current_region + 1) (ss_offsets S)) offset
            current_region with
    | None => Fault
    | Some cur =>
        match block_limit S cur, ss_offsets S !! cur, ss_regions S !! cur with
        | Some lim, Some start, Some rgn =>
            if offset <=? lim then
              let offset_within_region := wrap64 (offset - start) in
              let addr := MappedPtr.offset_bytes rgn.1 offset_within_region in
              InBlock cur offset offset_within_region addr 0
            else Fetching cur
        | _, _, _ => Fault
        end
    end
  else Joined.

(** One turn of [for (z = 0; z < block_stride; z += stride)]: the new
    thread state and the call of [fn], if one is made. *)
Definition loop_step (S : scan_setup) (current_region : nat)
    (offset offset_within_region addr z : Z) : thread_state * option Z :=
  if z <? block_stride then
    match block_limit S current_region with
    | Some lim =>
        if wrap64 (offset + z) >? lim then (Fetching current_region, None)
        else (InBlock current_region offset offset_within_region addr
                (wrap64 (z + ss_stride S)),
              Some (MappedPtr.offset_bytes addr z))
    | None => (Fault, None)
    end
  else (Fetching current_region, None).

Definition thread_step (S : scan_setup) (st : scan_state) (i : nat) : scan_state :=
  match threads st !! i with
  | Some (Fetching cur) =>
      let offset := current_offset st in
      mkScan (wrap64 (offset + block_stride))
             (<[i := fetch_step S cur offset]> (threads st))
             (calls st)
  | Some (InBlock cur offset owr addr z) =>
      let '(ts, call) := loop_step S cur offset owr addr z in
      mkScan (current_offset st)
             (<[i := ts]> (threads st))
             (match call with
              | Some a => calls st ++ [(a, i)]
              | None => calls st
              end)
  | _ => st
  end.

Definition is_joined (ts : thread_state) : bool :=
  match ts with Joined => true | _ => false end.

Definition run_threads (S : scan_setup) (num_threads : nat) (sched : list nat)
  : scan_state :=
  fold_left (thread_step S) sched
            (mkScan 0 (replicate num_threads (Fetching 0)) []).

(** [map_all_addresses<T>(fn, stride, num_threads, object_size)].
    [hardware_concurrency] is the value of
    [std::thread::hardware_concurrency()].  The result is [None] when the
    schedule ends before the main thread can return: it returns once
    [current_offset] has passed [region_start_offsets.back()] (its progress
    loop) and every worker has been joined. *)
Definition map_all_addresses (hardware_concurrency : nat) (r : MemoryReader)
    (stride : Z) (num_threads : nat) (object_size : Z) (sched : list nat)
  : option (result (list (Z * nat))) :=
  if negb (Z.land stride (wrap64 (stride - 1)) =? 0) then
    Some (Throw (logic_error "Stride must be a power of 2"))
  else if stride >? block_stride then
    Some (Throw (logic_error "Stride must not be greater than 0x1000"))
  else
    let num_threads :=
      if (num_threads =? 0)%nat then hardware_concurrency else num_threads in
    let regions := all_regions r in
    match region_readers r regions with
    | Throw e => Some (Throw e)
    | Ok _ =>
        let S := mkSetup stride object_size regions
                         (region_start_offsets regions) in
        let st := run_threads S num_threads sched in
        if (ss_back S <=? current_offset st) && forallb is_joined (threads st)
        then Some (Ok (calls st))
        else None
    end.

(** The addresses the claim of scanner coverage speaks of. *)
Definition covered (r : MemoryReader) (stride object_size a : Z) : Prop :=
  exists v o, v ∈ regions_by_mapped r
    /\ 0 <= o <= v_size v - object_size /\ o mod stride = 0
    /\ a = v_addr v + o.

(** Every region but the last is a whole number of blocks. *)
Definition block_tiled (r : MemoryReader) : bool :=
  forallb (fun v => v_size v mod block_stride =? 0)
          (removelast (regions_by_mapped r)).

Definition regions_nonempty (r : MemoryReader) : bool :=
  forallb (fun v => 0 <? v_size v) (regions_by_mapped r).

Definition sum_sizes (regions : list (Z * Z)) : Z :=
  foldr (fun rgn acc => rgn.2 + acc) 0 regions.

Definition total_size (r : MemoryReader) : Z := sum_sizes (all_regions r).

(** The setup [map_all_addresses] builds for a reader. *)
Definition setup_of (r : MemoryReader) (stride object_size : Z) : scan_setup :=
  mkSetup stride object_size (all_regions r)
          (region_start_offsets (all_regions r)).


(** *** The scan as a multiset of invocations

    [z_values stride z m]: the values [z, z + stride, ...] up to [m] that
    the inner loop visits from [z] on.  [pending] lists the calls a thread
    makes before its next [fetch_add]; [future] lists the calls of the
    blocks nobody has fetched yet. *)

Definition z_values (stride z m : Z) : list Z :=
  if z <=? m then
    map (fun k => z + Z.of_nat k * stride)
        (seq 0 (Z.to_nat ((m - z) / stride + 1)))
  else [].

Definition pending (S : scan_setup) (ts : thread_state) : list Z :=
  match ts with
  | InBlock cur offset _ addr z =>
      match block_limit S cur with
      | Some lim =>
          map (MappedPtr.offset_bytes addr)
              (z_values (ss_stride S) z (Z.min (block_stride - 1) (lim - offset)))
      | None => []
      end
  | _ => []
  end.

(** The offsets of the blocks from [c] on. *)
Definition blocks_from (S : scan_setup) (c : Z) : list Z :=
  z_values block_stride c (ss_back S - 1).

Definition block_calls (S : scan_setup) (offset : Z) : list Z :=
  pending S (fetch_step S 0 offset).

Definition future (S : scan_setup) (c : Z) : list Z :=
  blocks_from S c ≫= block_calls S.

(** The region that holds the global offset [offset]. *)
Definition region_at (S : scan_setup) (offset : Z) (j : nat) : Prop :=
  exists s e, ss_offsets S !! j = Some s /\ ss_offsets S !! (j + 1)%nat = Some e
              /\ s <= offset < e.

Definition thread_ok (S : scan_setup) (c : Z) (ts : thread_state) : Prop :=
  match ts with
  | Fetching cur => exists s, ss_offsets S !! cur = Some s /\ s <= c
  | InBlock cur offset owr addr z =>
      0 <= offset < ss_back S /\ offset + block_stride <= c
      /\ (exists s, ss_offsets S !! cur = Some s /\ s <= offset)
      /\ is_Some (block_limit S cur)
      /\ 0 <= z <= 2 * block_stride
  | Joined => ss_back S <= c
  | Fault => False
  end.

Definition joined_count (ths : list thread_state) : nat :=
  length (filter (fun ts => is_joined ts = true) ths).

(** What the proofs use of the vectors built by [map_all_addresses]. *)
Record setup_ok (S : scan_setup) (num_threads : nat) : Prop := mkSetupOk {
  so_stride : 0 < ss_stride S <= block_stride;
  so_first : ss_offsets S !! 0%nat = Some 0;
  so_length : length (ss_offsets S) = Datatypes.S (length (ss_regions S));
  so_mono : forall i j a b, (i <= j)%nat ->
      ss_offsets S !! i = Some a -> ss_offsets S !! j = Some b -> a <= b;
  so_back : ss_back S + block_stride * (Z.of_nat num_threads + 1) < 2 ^ 64
}.

Record scan_inv (S : scan_setup) (num_threads : nat) (st : scan_state) : Prop :=
  mkScanInv {
  si_counter : 0 <= current_offset st
               <= ss_back S + block_stride * (Z.of_nat (joined_count (threads st)) + 1);
  si_length : length (threads st) = num_threads;
  si_threads : Forall (thread_ok S (current_offset st)) (threads st);
  si_calls : (calls st).*1 ++ (threads st ≫= pending S) ++ future S (current_offset st)
             ≡ₚ future S 0
}.

(** *** A variant for the scan

    [scan_fuel] bounds the steps the worker threads can still take: every
    step of a thread that has not returned makes it smaller.
    [sequential_schedule] runs the threads one after the other, each for
    [fuel] steps. *)





(** ** The catalog: find_base_type_object, find_all_type_objects, prepare

    [PyTypeObject] is what the bytes at an address decode to, as far as the
    catalog looks at it: the [ob_type] field, the answer of
    [invalid_reason(env)] ([None] for [nullptr]) and [name(env.r)].  The
    decoder itself ([Types/PyTypeObject.cc]) is a parameter, with
    [sizeof(PyTypeObject)]; the snapshot is immutable, so both are functions
    of the address. *)

Record PyTypeObject : Type := mkType {
  ob_type : Z;
  ty_invalid_reason : option string;
  ty_name : string
}.

Record TypeDecoder : Type := mkDecoder {
  decode_type : Z -> PyTypeObject;
  sizeof_PyTypeObject : Z
}.

Record Environment : Type := mkEnv {
  env_r : MemoryReader;
  base_type_object : Z;
  type_objects : gmap string Z
}.

(** The environment with the analysis file and what was written to
    [stderr].  [saves] lists the contents written by [save_analysis], the
    latest last. *)
Record Session : Type := mkSession {
  env : Environment;
  saves : list (Z * gmap string Z);
  stderr : list string
}.

Definition save_analysis (s : Session) : Session :=
  mkSession (env s)
            (saves s ++ [(base_type_object (env s), type_objects (env s))])
            (stderr s).

Definition log_line (line : string) (s : Session) : Session :=
  mkSession (env s) (saves s) (stderr s ++ [line]).

Definition set_base_type (a : Z) (s : Session) : Session :=
  mkSession (mkEnv (env_r (env s)) a (type_objects (env s))) (saves s) (stderr s).

Definition set_type_objects (m : gmap string Z) (s : Session) : Session :=
  mkSession (mkEnv (env_r (env s)) (base_type_object (env s)) m)
            (saves s) (stderr s).

(** [std::format("{:016X}", addr)]. *)
Definition hex_digit (d : Z) : ascii :=
  nth (Z.to_nat d) (list_ascii_of_string "0123456789ABCDEF") "0"%char.

Fixpoint hex_digits (n : nat) (x : Z) : list ascii :=
  match n with
  | O => []
  | S n' => hex_digits n' (x / 16) ++ [hex_digit (x mod 16)]
  end.

Definition format_addr (addr : Z) : string :=
  string_of_list_ascii (hex_digits 16 addr).

(** The test of the lambda of [find_base_type_object]: the object is kept
    unless [ty.ob_type != addr || ty.invalid_reason(env) ||
    ty.name(env.r) != "type"]. *)
Definition base_type_candidate (D : TypeDecoder) (addr : Z) : bool :=
  let ty := decode_type D addr in
  negb (negb (ob_type ty =? addr)
        || bool_decide (is_Some (ty_invalid_reason ty))
        || negb (String.eqb (ty_name ty) "type")).

(** The lambda of [find_base_type_object], on one call of the scan. *)
Definition base_type_callback (D : TypeDecoder) (st : Session * list Z)
    (addr : Z) : Session * list Z :=
  if base_type_candidate D addr then
    (log_line ("Base type candidate found at " +:+ format_addr addr) st.1,
     st.2 ++ [addr])
  else st.

Definition find_base_type_object (D : TypeDecoder) (hardware_concurrency : nat)
    (s : Session) (max_threads : nat) (sched : list nat)
  : option (result Session) :=
  match map_all_addresses hardware_concurrency (env_r (env s)) 8 max_threads
          (sizeof_PyTypeObject D) sched with
  | None => None
  | Some (Throw e) => Some (Throw e)
  | Some (Ok calls) =>
      let '(s1, candidates) :=
        fold_left (base_type_callback D) calls.*1 (s, []) in
      Some (Ok (match candidates with
                | [c] => save_analysis (set_base_type c s1)
                | _ => s1
                end))
  end.

(** [unordered_map::emplace]: no effect on a key that is present. *)
Definition emplace (k : string) (a : Z) (m : gmap string Z) : gmap string Z :=
  match m !! k with
  | Some _ => m
  | None => <[k := a]> m
  end.

(** [std::format("{}+{}", type_name, addr)]. *)
Definition alternate_key (type_name : string) (addr : Z) : string :=
  type_name +:+ "+" +:+ format_addr addr.

(** The test of the lambda of [find_all_type_objects]. *)
Definition is_type_object (D : TypeDecoder) (base : Z) (addr : Z) : bool :=
  let ty := decode_type D addr in
  negb (negb (ob_type ty =? base)
        || bool_decide (is_Some (ty_invalid_reason ty))).

(** What the lambda does under the lock for an object that passed the
    test: the new [type_objects], the line it prints, and
    [any_env_changes_made]. *)
Definition insert_type (D : TypeDecoder)
    (st : gmap string Z * list string * bool) (addr : Z)
  : gmap string Z * list string * bool :=
  let '(types, lines, changed) := st in
  let type_name := ty_name (decode_type D addr) in
  match types !! type_name with
  | None =>
      (<[type_name := addr]> types,
       lines ++ ["Found <type " +:+ type_name +:+ "> at " +:+ format_addr addr],
       true)
  | Some existing =>
      if negb (existing =? addr) then
        (emplace (alternate_key type_name addr) addr types,
         lines ++ ["Warning: found <type " +:+ type_name +:+ "> at "
                   +:+ format_addr addr +:+ ", but it already exists at "
                   +:+ format_addr existing],
         changed)
      else st
  end.

Definition type_callback (D : TypeDecoder) (base : Z)
    (st : gmap string Z * list string * bool) (addr : Z)
  : gmap string Z * list string * bool :=
  if is_type_object D base addr then insert_type D st addr else st.

Definition find_all_type_objects (D : TypeDecoder) (hardware_concurrency : nat)
    (s : Session) (max_threads : nat) (sched : list nat)
  : option (result Session) :=
  if MappedPtr.is_null (base_type_object (env s)) then
    Some (Throw (runtime_error
                   "Base type object not found; run find-base-type first"))
  else
    match map_all_addresses hardware_concurrency (env_r (env s)) 8 max_threads
            (sizeof_PyTypeObject D) sched with
    | None => None
    | Some (Throw e) => Some (Throw e)
    | Some (Ok calls) =>
        let '(types, lines, changed) :=
          fold_left (type_callback D (base_type_object (env s))) calls.*1
                    (∅, [], false) in
        let s1 := mkSession (mkEnv (env_r (env s)) (base_type_object (env s)) types)
                            (saves s) (stderr s ++ lines) in
        Some (Ok (if changed then save_analysis s1 else s1))
    end.


(** The discovered objects of a scan, in the order the scan reaches them. *)
Definition candidates_of (D : TypeDecoder) (addrs : list Z) : list Z :=
  filter (fun a => base_type_candidate D a = true) addrs.

Definition type_hits (D : TypeDecoder) (base : Z) (addrs : list Z) : list Z :=
  filter (fun a => is_type_object D base a = true) addrs.

(** Exactly one of the scanned addresses is a base type candidate. *)
Definition exactly_one_candidate (D : TypeDecoder) (addrs : list Z) (A : Z) : Prop :=
  A ∈ addrs /\ base_type_candidate D A = true
  /\ forall B, B ∈ addrs -> base_type_candidate D B = true -> B = A.

(** *** A sample snapshot with type objects

    A region of two blocks at [0x1000].  The base type sits at [0x1100];
    two type objects at [0x1400] and [0x2400] (one per block) share the name
    ["dup"]; nothing else decodes to a valid type object. *)

Definition reader_two_pages : MemoryReader :=
  mkReader [mkView 0x1000 0 (repeat Byte.x00 (Z.to_nat 0x2000)) 0x2000].

Definition decoder_sample : TypeDecoder :=
  mkDecoder
    (fun a =>
       if a =? 0x1100 then mkType 0x1100 None "type"
       else if (a =? 0x1400) || (a =? 0x2400) then mkType 0x1100 None "dup"
       else mkType 0 (Some "invalid_type") "")
    408.

Definition session_sample : Session :=
  mkSession (mkEnv reader_two_pages 0 ∅) [] [].

(** The same session once the base type is known. *)
Definition session_with_base : Session :=
  mkSession (mkEnv reader_two_pages 0x1100 ∅) [] [].

(** Two schedules for two worker threads on [reader_two_pages]: thread 0
    takes the first block and thread 1 the second; then one of them runs
    to its end before the other moves. *)
Definition schedule_first_block_first : list nat :=
  [0; 1]%nat ++ replicate 600 0%nat ++ replicate 600 1%nat.

Definition schedule_second_block_first : list nat :=
  [0; 1]%nat ++ replicate 600 1%nat ++ replicate 600 0%nat.

(** What [find_all_type_objects] leaves in [type_objects] after the
    discovered objects [hs], in the order of discovery:
    every entry is a discovered object under its name or its alternate
    key; every discovered object is retained; the first object of a name
    holds the plain name. *)
Definition type_name_of (D : TypeDecoder) (a : Z) : string :=
  ty_name (decode_type D a).

Definition retained (D : TypeDecoder) (m : gmap string Z) (a : Z) : Prop :=
  m !! type_name_of D a = Some a
  \/ (m !! alternate_key (type_name_of D a) a = Some a
      /\ exists a', m !! type_name_of D a = Some a' /\ a' <> a).

Record types_inv (D : TypeDecoder) (hs : list Z) (m : gmap string Z) : Prop :=
  mkTypesInv {
  ti_entries : forall k v, m !! k = Some v ->
      v ∈ hs /\ (k = type_name_of D v \/ k = alternate_key (type_name_of D v) v);
  ti_retained : forall a, a ∈ hs -> retained D m a;
  ti_first : forall l1 a l2, hs = l1 ++ a :: l2 ->
      (forall b, b ∈ l1 -> type_name_of D b <> type_name_of D a) ->
      m !! type_name_of D a = Some a
}.

(** No discovered object is named like the alternate key of one. *)
Definition no_key_clash (D : TypeDecoder) (hs : list Z) : Prop :=
  forall a b, a ∈ hs -> b ∈ hs ->
    type_name_of D a <> alternate_key (type_name_of D b) b.

(** ** async-task-graph: roots and the depth-first print

    [await_targets_for_obj] is the map the scan has built: every task or
    future found, with the set of objects it awaits (an [unordered_set],
    here the list of its elements in iteration order).  [repr depth addr]
    stands for [t.repr(addr)] of a traversal at [recursion_depth = depth];
    the object decoders are not part of these sources. *)

(** [std::set<MappedPtr>::emplace]: the set as its ascending list. *)
Fixpoint set_emplace (x : Z) (s : list Z) : list Z :=
  match s with
  | [] => [x]
  | y :: s' =>
      if x <? y then x :: s
      else if x =? y then s
      else y :: set_emplace x s'
  end.

(** [std::set<MappedPtr>::erase]. *)
Definition set_erase (x : Z) (s : list Z) : list Z :=
  filter (fun y => y <> x) s.

(** Roots are all task/future objects that are not the await target of
    any other task/future object. *)
Definition graph_roots (await_targets_for_obj : gmap Z (list Z)) : list Z :=
  let entries := map_to_list await_targets_for_obj in
  let roots := fold_left (fun roots it => set_emplace it.1 roots) entries [] in
  fold_left
    (fun roots it => fold_left (fun roots target => set_erase target roots) it.2 roots)
    entries roots.

Definition indent (depth : nat) : string :=
  string_of_list_ascii (repeat " "%char (depth * 2)).

(** [print_entry(t, addr, seen)]: the new [seen] and the lines written.
    The recursion is bounded by [fuel]; [None] when it runs out. *)
Fixpoint print_entry (fuel : nat) (await_targets_for_obj : gmap Z (list Z))
    (repr : nat -> Z -> string) (depth : nat) (addr : Z)
    (st : gset Z * list string) : option (gset Z * list string) :=
  match fuel with
  | O => None
  | S fuel' =>
      if MappedPtr.is_null addr then Some st
      else
        let addr_seen := bool_decide (addr ∈ st.1) in
        let seen := {[addr]} ∪ st.1 in
        let line :=
          if addr_seen then "<!seen>@" +:+ format_addr addr
          else repr depth addr in
        let out := st.2 ++ [indent depth +:+ line] in
        if addr_seen then Some (seen, out)
        else
          match await_targets_for_obj !! addr with
          | None =>
              Some (seen,
                    out ++ ["Warning: await target " +:+ format_addr addr
                            +:+ " missing from graph"])
          | Some next_addrs =>
              fold_left
                (fun acc next_addr =>
                   match acc with
                   | Some st' =>
                       print_entry fuel' await_targets_for_obj repr
                                   (S depth) next_addr st'
                   | None => None
                   end)
                next_addrs (Some (seen, out))
          end
  end.

(** The last loop of the command: one tree per root, each with a fresh
    [seen] set.  The result is the list of trees, each the lines of one
    root. *)
Fixpoint print_roots (fuel : nat) (await_targets_for_obj : gmap Z (list Z))
    (repr : nat -> Z -> string) (roots : list Z) : option (list (list string)) :=
  match roots with
  | [] => Some []
  | addr :: rest =>
      match print_entry fuel await_targets_for_obj repr 0 addr (∅, []),
            print_roots fuel await_targets_for_obj repr rest with
      | Some (_, tree), Some trees => Some (tree :: trees)
      | _, _ => None
      end
  end.

Definition async_task_graph (fuel : nat) (await_targets_for_obj : gmap Z (list Z))
    (repr : nat -> Z -> string) : option (list (list string)) :=
  print_roots fuel await_targets_for_obj repr (graph_roots await_targets_for_obj).

(** The await cycle T1→G1→T2→G2→T3→G3→T1, and the same with a task T0
    that awaits T1. *)
Definition await_cycle (T1 G1 T2 G2 T3 G3 : Z) : gmap Z (list Z) :=
  <[T1 := [G1]]> (<[G1 := [T2]]> (<[T2 := [G2]]> (<[G2 := [T3]]>
  (<[T3 := [G3]]> (<[G3 := [T1]]> ∅))))).

Definition await_cycle_with_root (T0 T1 G1 T2 G2 T3 G3 : Z) : gmap Z (list Z) :=
  <[T0 := [T1]]> (await_cycle T1 G1 T2 G2 T3 G3).

Definition repr_sample (depth : nat) (addr : Z) : string :=
  "<async>@" +:+ format_addr addr.

(** ** PyFrameObject::invalid_reason

    The frame header, the code object, the tuple of variable names and the
    helpers [Environment::invalid_reason(addr, type)], [Environment::get_type]
    and [PyObject::invalid_reason] are declared outside these sources: the
    function is modelled over a [FrameWorld] that supplies them.  A read
    through a host reference ([varnames.items[z]], [this->f_localsplus[z]])
    has no bounds check in the source; the model says where it goes and
    reports a read that leaves the region of the object as [ReadsOutside]. *)

Inductive outcome (A : Type) : Type :=
| Returns (a : A)
| Throws (e : exn)
| ReadsOutside (addr : Z).
Arguments Returns {A} a.
Arguments Throws {A} e.
Arguments ReadsOutside {A} addr.

Definition bind_outcome {A B} (o : outcome A) (k : A -> outcome B) : outcome B :=
  match o with
  | Returns a => k a
  | Throws e => Throws e
  | ReadsOutside a => ReadsOutside a
  end.

Definition of_result {A} (r : result A) : outcome A :=
  match r with Ok a => Returns a | Throw e => Throws e end.

Record PyFrameObject : Type := mkFrame {
  f_state : Z;
  f_back : Z;
  f_code : Z;
  f_builtins : Z;
  f_globals : Z;
  f_locals : Z;
  f_valuestack : Z;
  f_trace : Z;
  f_gen : Z
}.

(** [PyFrameState]: [FRAME_CREATED] and [FRAME_CLEARED] bound the enum. *)
Definition FRAME_CREATED : Z := -2.
Definition FRAME_CLEARED : Z := 4.

Record FrameWorld : Type := mkFrameWorld {
  (* sizeof( *this), and sizeof of the pointee type of each pointer field *)
  sizeof_PyFrameObject : Z;
  sizeof_f_back : Z;
  sizeof_f_code : Z;
  sizeof_f_builtins : Z;
  sizeof_f_globals : Z;
  sizeof_f_locals : Z;
  sizeof_f_valuestack : Z;
  sizeof_f_trace : Z;
  sizeof_f_gen : Z;
  sizeof_co_varnames : Z;
  sizeof_PyObject : Z;
  (* what the bytes at an address decode to *)
  frame_at : Z -> PyFrameObject;
  co_varnames_at : Z -> Z;
  tuple_ob_size_at : Z -> Z;
  pointer_at : Z -> Z;
  (* the helpers of Environment and PyObject *)
  env_invalid_reason : Z -> Z -> option string;
  object_invalid_reason : Z -> option string
}.

(** [Environment::get_type(name)]: [type_objects.at(name)]. *)
Definition get_type (env : Environment) (name : string) : result Z :=
  match type_objects env !! name with
  | Some a => Ok a
  | None => Throw (out_of_range "unordered_map::at")
  end.

(** [host_to_mapped(host_ptr)] for a pointer that [get] returned for the
    mapped address [addr]: the region is found again from the host side. *)
Definition host_to_mapped (r : MemoryReader) (sizeof_T addr : Z) : result Z :=
  bind_result (find_region_by_mapped_addr r addr) (fun rgn =>
    let offset := addr - v_addr rgn in
    if offset >=? v_size rgn then
      Throw (out_of_range "Host address not within any block")
    else if offset + sizeof_T >? v_size rgn then
      Throw (out_of_range "End of host structure out of range")
    else Ok (MappedPtr.offset_bytes (v_addr rgn) offset)).

(** A pointer-sized element at [base + offset] of the object at [base],
    read through the host reference to that object. *)
Definition host_element (W : FrameWorld) (r : MemoryReader) (base offset : Z)
  : outcome Z :=
  match find_region_by_mapped_addr r base with
  | Ok rgn =>
      if (v_addr rgn <=? base + offset)
         && (base + offset + 8 <=? v_addr rgn + v_size rgn)
      then Returns (pointer_at W (base + offset))
      else ReadsOutside (base + offset)
  | Throw _ => ReadsOutside (base + offset)
  end.

(** [env.r.get<T>(addr)] as far as it can fail. *)
Definition reader_get (r : MemoryReader) (sizeof_T addr : Z) : outcome unit :=
  of_result (bind_result (read r addr sizeof_T) (fun _ => Ok tt)).

(** The [for] loop over the variable names; [fuel] is the number of turns
    left, [ob_size - z]. *)
Fixpoint frame_locals_loop (W : FrameWorld) (env : Environment) (this : Z)
    (varnames : Z) (fuel : nat) (z : Z) : outcome (option string) :=
  match fuel with
  | O => Returns None
  | S fuel' =>
      bind_outcome
        (host_element W (env_r env) varnames (sizeof_co_varnames W + 8 * z))
        (fun item =>
      bind_outcome (of_result (get_type env "str")) (fun str_type =>
      match env_invalid_reason W item str_type with
      | Some ir => Returns (Some ir)
      | None =>
          bind_outcome
            (host_element W (env_r env) this (sizeof_PyFrameObject W + 8 * z))
            (fun local =>
          if MappedPtr.is_null local then
            frame_locals_loop W env this varnames fuel' (z + 1)
          else
            bind_outcome (reader_get (env_r env) (sizeof_PyObject W) local)
              (fun _ =>
            match object_invalid_reason W local with
            | Some ir => Returns (Some ir)
            | None => frame_locals_loop W env this varnames fuel' (z + 1)
            end))
      end))
  end.

(** The size passed to [exists_range]:
    [sizeof( *this) + varnames.ob_size * sizeof(MappedPtr<PyObject>)]. *)
Definition localsplus_range_size (W : FrameWorld) (ob_size : Z) : Z :=
  wrap64 (sizeof_PyFrameObject W + wrap64 (ob_size * 8)).

Definition PyFrameObject_invalid_reason (W : FrameWorld) (env : Environment)
    (this : Z) : outcome (option string) :=
  let r := env_r env in
  let f := frame_at W this in
  if (f_state f <? FRAME_CREATED) || (f_state f >? FRAME_CLEARED) then
    Returns (Some "invalid_f_state")
  else if negb (obj_valid_or_null r (sizeof_f_back W) (f_back f) 8) then
    Returns (Some "invalid_f_back")
  else if negb (obj_valid_or_null r (sizeof_f_code W) (f_code f) 8) then
    Returns (Some "invalid_f_code")
  else if negb (obj_valid_or_null r (sizeof_f_builtins W) (f_builtins f) 8) then
    Returns (Some "invalid_f_builtins")
  else if negb (obj_valid_or_null r (sizeof_f_globals W) (f_globals f) 8) then
    Returns (Some "invalid_f_globals")
  else if negb (obj_valid_or_null r (sizeof_f_locals W) (f_locals f) 8) then
    Returns (Some "invalid_f_locals")
  else if negb (obj_valid_or_null r (sizeof_f_valuestack W) (f_valuestack f) 1) then
    Returns (Some "invalid_f_valuestack")
  else if negb (obj_valid_or_null r (sizeof_f_trace W) (f_trace f) 1) then
    Returns (Some "invalid_f_trace")
  else if negb (obj_valid_or_null r (sizeof_f_gen W) (f_gen f) 1) then
    Returns (Some "invalid_f_gen")
  else if negb (MappedPtr.is_null (f_code f)) then
    bind_outcome (of_result (get_type env "code")) (fun code_type =>
    match env_invalid_reason W (f_code f) code_type with
    | Some ir => Returns (Some ir)
    | None =>
        bind_outcome (reader_get r (sizeof_f_code W) (f_code f)) (fun _ =>
        let co_varnames := co_varnames_at W (f_code f) in
        bind_outcome (of_result (get_type env "tuple")) (fun tuple_type =>
        match env_invalid_reason W co_varnames tuple_type with
        | Some ir => Returns (Some ir)
        | None =>
            bind_outcome (reader_get r (sizeof_co_varnames W) co_varnames)
              (fun _ =>
            let ob_size := tuple_ob_size_at W co_varnames in
            bind_outcome
              (of_result (host_to_mapped r (sizeof_PyFrameObject W) this))
              (fun this_mapped =>
            if negb (exists_range r this_mapped (localsplus_range_size W ob_size))
            then Returns (Some "invalid_f_localsplus_range")
            else
              frame_locals_loop W env this co_varnames (Z.to_nat ob_size) 0))
        end))
    end)
  else Returns None.

(** The trailing array of [n] pointers after the header of the frame at
    [this] lies inside the region of the frame. *)
Definition localsplus_fits (W : FrameWorld) (r : MemoryReader) (this n : Z) : Prop :=
  exists v, v ∈ regions_by_mapped r /\ in_view v this
    /\ this + sizeof_PyFrameObject W + 8 * n <= v_addr v + v_size v.

(** *** A frame at the end of its region

    In [reader_one_page] a frame header of [0x168] bytes ends exactly at
    the end of the region.  Its code object at [0x1100] names the tuple at
    [0x1200], whose [ob_size] is [2^61] and whose first item is the string
    at [0x1300]. *)
Definition frame_world_sample : FrameWorld :=
  mkFrameWorld 0x168 0x168 0xB0 48 48 16 8 16 16 24 16
    (fun _ => mkFrame 0 0 0x1100 0 0 0 0 0 0)
    (fun _ => 0x1200)
    (fun _ => 2 ^ 61)
    (fun a => if a =? 0x1200 + 24 then 0x1300 else 0)
    (fun addr ty =>
       if ((addr =? 0x1100) && (ty =? 0x1800))
          || ((addr =? 0x1200) && (ty =? 0x1810))
          || ((addr =? 0x1300) && (ty =? 0x1820))
       then None else Some "invalid_type")
    (fun _ => None).

Definition frame_env_sample : Environment :=
  mkEnv reader_one_page 0x1900
        (<["code" := 0x1800]> (<["tuple" := 0x1810]> (<["str" := 0x1820]> ∅))).

Definition frame_addr_sample : Z := 0x2000 - 0x168.


(** ** Rendering containers: [PyDictObject::repr] and [PySetObject::repr] *)

(** Modelled from the spec: the class [Traversal] is missing from the
    sources.  "A traversal is a per-query context carrying: recursion
    depth, max recursion depth, max entries per container, [...] a
    cycle-guard set of currently-open addresses": here with the fields the
    two functions use.  (The source hands the guard the host pointer of the
    decoded object, which stands for its mapped address.) *)
Record Traversal := mkTraversal {
  recursion_depth : Z;
  max_recursion_depth : Z;
  max_entries : Z;
  in_progress : gset Z
}.

Definition with_in_progress (s : gset Z) (t : Traversal) : Traversal :=
  mkTraversal (recursion_depth t) (max_recursion_depth t) (max_entries t) s.

Definition with_recursion_depth (d : Z) (t : Traversal) : Traversal :=
  mkTraversal d (max_recursion_depth t) (max_entries t) (in_progress t).

(** Modelled from the spec: [Traversal::cycle_guard] is missing from the
    sources.  "Every container-like repr acquires a scoped entry in the
    guard set for its own address; if already present, the repr
    short-circuits": the guard is recursive when the address is already
    open, and opens it otherwise. *)
Definition cycle_guard (t : Traversal) (this : Z) : bool * Traversal :=
  if bool_decide (this ∈ in_progress t) then (true, t)
  else (false, with_in_progress (in_progress t ∪ {[this]}) t).

(** Modelled from the spec: the end of the scope of the guard, missing from
    the sources.  "On scope exit the entry is removed": the guard that
    opened the entry removes it; a recursive guard has opened none. *)
Definition cycle_guard_exit (is_recursive : bool) (this : Z) (t : Traversal) : Traversal :=
  if is_recursive then t else with_in_progress (in_progress t ∖ {[this]}) t.

(** Modelled from the spec: [Traversal::recursion_allowed] is missing from
    the sources.  "When recursion_depth > max_recursion_depth, composite
    reprs short-circuit". *)
Definition recursion_allowed (t : Traversal) : bool :=
  negb (recursion_depth t >? max_recursion_depth t).

(** Modelled from the spec: [Traversal::indent] is missing from the
    sources: the scoped step of the recursion depth.  The entries of a
    container are written [recursion_depth * 2] columns in and the closing
    brace [(recursion_depth - 1) * 2]. *)
Definition indent_enter (t : Traversal) : Traversal :=
  with_recursion_depth (recursion_depth t + 1) t.

Definition indent_exit (t : Traversal) : Traversal :=
  with_recursion_depth (recursion_depth t - 1) t.

(** One turn of the loop over the hash table of a dict: a negative index,
    an index whose entry cannot be read, or an entry. *)
Inductive DictSlot :=
  | SlotUnused
  | SlotUnreadable
  | SlotEntry (me_key value : Z).

(** A dict as [repr] decodes it from the snapshot, step by step: the
    results of [check_valid] on the object and on its keys object, whether
    the index table, the values array (when [ma_values] is not null) and
    the entries array can be read, [ma_used], and the table in order. *)
Record PyDictObject := mkDict {
  dict_invalid_reason : option string;
  keys_invalid_reason : option string;
  table_readable : bool;
  values_readable : bool;
  ma_used : Z;
  entries_readable : bool;
  table : list DictSlot
}.

(** A set: the result of [check_valid] and [get_items]. *)
Record PySetObject := mkSet {
  set_invalid_reason : option string;
  get_items : list Z
}.

Inductive Container :=
  | Dict (d : PyDictObject)
  | PySet (s : PySetObject).

(** The objects of a snapshot: the containers by address, and the text of
    every other object. *)
Record Heap := mkHeap {
  containers : gmap Z Container;
  other_repr : Z -> string
}.

Definition newline : string := String (ascii_of_nat 10) EmptyString.

(** [ret.append(n, ' ')]. *)
Definition spaces (n : Z) : string :=
  string_of_list_ascii (repeat " "%char (Z.to_nat n)).

Definition string_concat (l : list string) : string :=
  foldr String.append EmptyString l.

(** [operator<] of [std::pair<std::string, std::string>] and of
    [std::string], as the orders [std::sort] uses. *)
Definition pair_le (a b : string * string) : Prop :=
  match String.compare a.1 b.1 with
  | Lt => True
  | Eq => Is_true (String.leb a.2 b.2)
  | Gt => False
  end.

#[global] Instance pair_le_dec a b : Decision (pair_le a b).
Proof. unfold pair_le. destruct (String.compare a.1 b.1); apply _. Defined.

Definition string_le (a b : string) : Prop := Is_true (String.leb a b).

(** [(t.max_entries >= 0) && (repr_entries.size() >= t.max_entries)]. *)
Definition entries_full (t : Traversal) (size : nat) : bool :=
  (max_entries t >=? 0) && (Z.of_nat size >=? max_entries t).

(** The loop of [PyDictObject::repr] over the table; [repr] is
    [t.repr].  Returns [repr_entries], [has_extra] and the traversal. *)
Fixpoint dict_entries_loop (repr : Traversal -> Z -> option (string * Traversal))
    (table : list DictSlot) (t : Traversal) (repr_entries : list (string * string))
  : option (list (string * string) * bool * Traversal) :=
  match table with
  | [] => Some (repr_entries, false, t)
  | SlotUnused :: table' => dict_entries_loop repr table' t repr_entries
  | SlotUnreadable :: table' =>
      if entries_full t (length repr_entries) then Some (repr_entries, true, t)
      else dict_entries_loop repr table' t
             (repr_entries ++ [("<!key_entry_unreadable>", "<!key_entry_unreadable>")])
  | SlotEntry me_key value :: table' =>
      if entries_full t (length repr_entries) then Some (repr_entries, true, t)
      else
        '(key_repr, t1) ← repr t me_key;
        '(value_repr, t2) ← repr t1 value;
        dict_entries_loop repr table' t2 (repr_entries ++ [(key_repr, value_repr)])
  end.

Definition dict_lines (t : Traversal) (repr_entries : list (string * string))
    (has_extra : bool) : string :=
  "{" +:+ newline
  +:+ string_concat
        (map (fun e => spaces (recursion_depth t * 2) +:+ e.1 +:+ ": " +:+ e.2
                       +:+ "," +:+ newline)
             (merge_sort pair_le repr_entries))
  +:+ (if has_extra then spaces (recursion_depth t * 2) +:+ "..." +:+ newline
       else EmptyString)
  +:+ spaces ((recursion_depth t - 1) * 2) +:+ "}".

Definition dict_format (t : Traversal) (repr_entries : list (string * string))
    (has_extra : bool) : string :=
  match repr_entries with
  | [] => "{}"
  | [e] => if has_extra then dict_lines t repr_entries has_extra
           else "{" +:+ e.1 +:+ ": " +:+ e.2 +:+ "}"
  | _ => dict_lines t repr_entries has_extra
  end.

Definition PyDictObject_repr (repr : Traversal -> Z -> option (string * Traversal))
    (d : PyDictObject) (this : Z) (t : Traversal) : option (string * Traversal) :=
  match dict_invalid_reason d with
  | Some ir => Some ("<dict !" +:+ ir +:+ ">", t)
  | None =>
  match keys_invalid_reason d with
  | Some ir => Some ("<dict keys:!" +:+ ir +:+ ">", t)
  | None =>
  if negb (table_readable d) then Some ("<dict keys:!table_unreadable>", t)
  else if negb (values_readable d) then Some ("<dict keys:!values_unreadable>", t)
  else
    let '(is_recursive, t1) := cycle_guard t this in
    if is_recursive then
      Some ("<dict !recursive_repr>", cycle_guard_exit is_recursive this t1)
    else if negb (recursion_allowed t1) then
      Some ("<dict !recursion_depth len=" +:+ pretty (ma_used d) +:+ ">",
            cycle_guard_exit is_recursive this t1)
    else
      let t2 := indent_enter t1 in
      if negb (entries_readable d) then
        Some ("<dict keys:!entries_unreadable>",
              cycle_guard_exit is_recursive this (indent_exit t2))
      else
        '(repr_entries, has_extra, t3) ← dict_entries_loop repr (table d) t2 [];
        Some (dict_format t3 repr_entries has_extra,
              cycle_guard_exit is_recursive this (indent_exit t3))
  end end.

(** The loop of [PySetObject::repr] over the items. *)
Fixpoint set_items_loop (repr : Traversal -> Z -> option (string * Traversal))
    (items : list Z) (t : Traversal) (repr_entries : list string)
  : option (list string * bool * Traversal) :=
  match items with
  | [] => Some (repr_entries, false, t)
  | item_addr :: items' =>
      if entries_full t (length repr_entries) then Some (repr_entries, true, t)
      else
        '(item_repr, t1) ← repr t item_addr;
        set_items_loop repr items' t1 (repr_entries ++ [item_repr])
  end.

Definition set_format (t : Traversal) (repr_entries : list string)
    (has_extra : bool) : string :=
  match repr_entries with
  | [] => "set()"
  | [e] => "{" +:+ e +:+ "}"
  | _ =>
      "{" +:+ newline
      +:+ string_concat
            (map (fun e => spaces (recursion_depth t * 2) +:+ e +:+ "," +:+ newline)
                 (merge_sort string_le repr_entries))
      +:+ (if has_extra then spaces (recursion_depth t * 2) +:+ "..." +:+ newline
           else EmptyString)
      +:+ spaces ((recursion_depth t - 1) * 2) +:+ "}"
  end.

Definition PySetObject_repr (repr : Traversal -> Z -> option (string * Traversal))
    (s : PySetObject) (this : Z) (t : Traversal) : option (string * Traversal) :=
  match set_invalid_reason s with
  | Some ir => Some ("<set !" +:+ ir +:+ ">", t)
  | None =>
  if negb (recursion_allowed t) then Some ("<set !recursion_depth>", t)
  else
    let '(is_recursive, t1) := cycle_guard t this in
    if is_recursive then
      Some ("<set !recursive_repr>", cycle_guard_exit is_recursive this t1)
    else
      let t2 := indent_enter t1 in
      '(repr_entries, has_extra, t3) ← set_items_loop repr (get_items s) t2 [];
      Some (set_format t3 repr_entries has_extra,
            cycle_guard_exit is_recursive this (indent_exit t3))
  end.

(** Modelled from the spec: [Traversal::repr] is missing from the sources.
    It renders the object at [addr] with the [repr] of its decoder; the
    nesting of calls is bounded by [fuel], [None] when it runs out. *)
Fixpoint Traversal_repr (fuel : nat) (h : Heap) (t : Traversal) (addr : Z)
  : option (string * Traversal) :=
  match fuel with
  | O => None
  | S fuel' =>
      match containers h !! addr with
      | Some (Dict d) => PyDictObject_repr (Traversal_repr fuel' h) d addr t
      | Some (PySet s) => PySetObject_repr (Traversal_repr fuel' h) s addr t
      | None => Some (other_repr h addr, t)
      end
  end.

(** [needle] occurs in [hay]. *)
Fixpoint is_infix (needle hay : string) : bool :=
  String.prefix needle hay
  || match hay with
     | EmptyString => false
     | String _ hay' => is_infix needle hay'
     end.

Definition recursive_marker : string := "!recursive_repr".

Definition no_reason (ir : option string) : bool :=
  match ir with
  | None => true
  | Some _ => false
  end.

(** The container at [a] passes every check that [repr] makes before it
    renders the entries. *)
Definition renderable (h : Heap) (a : Z) : bool :=
  match containers h !! a with
  | Some (Dict d) =>
      no_reason (dict_invalid_reason d) && no_reason (keys_invalid_reason d)
      && table_readable d && values_readable d && entries_readable d
  | Some (PySet s) => no_reason (set_invalid_reason s)
  | None => false
  end.

Definition slot_referents (slot : DictSlot) : list Z :=
  match slot with
  | SlotEntry me_key value => [me_key; value]
  | _ => []
  end.

(** The addresses that the [repr] of the container at [a] hands to
    [t.repr], when no cap cuts the loop short. *)
Definition referents (h : Heap) (a : Z) : list Z :=
  if renderable h a then
    match containers h !! a with
    | Some (Dict d) => table d ≫= slot_referents
    | Some (PySet s) => get_items s
    | None => []
    end
  else [].

(** [a :: l] is a chain of references. *)
Fixpoint is_walk (h : Heap) (a : Z) (l : list Z) : Prop :=
  match l with
  | [] => True
  | b :: l' => b ∈ referents h a /\ is_walk h b l'
  end.

(** Following references from [a], the rendering comes to a container of
    the open set [G] after [n] steps through containers outside of it. *)
Inductive hits (h : Heap) : gset Z -> nat -> Z -> Prop :=
  | hits_here G a : a ∈ G -> renderable h a = true -> hits h G 0 a
  | hits_step G a b n :
      a ∉ G -> b ∈ referents h a -> hits h (G ∪ {[a]}) n b -> hits h G (S n) a.

Definition dict_of (table : list DictSlot) : PyDictObject :=
  mkDict None None true true (Z.of_nat (length table)) true table.

Definition other_repr_sample (a : Z) : string :=
  if a =? 0x10 then "'a'" else if a =? 0x20 then "'b'" else "<object>".

(** Two dicts that hold each other: [{'a': {'b': ...}}]. *)
Definition heap_two_dicts : Heap :=
  mkHeap (<[0x1000 := Dict (dict_of [SlotEntry 0x10 0x2000])]>
            (<[0x2000 := Dict (dict_of [SlotEntry 0x20 0x1000])]> ∅))
         other_repr_sample.

(** A set that holds itself. *)
Definition heap_self_set : Heap :=
  mkHeap (<[0x1000 := PySet (mkSet None [0x1000; 0x10])]> ∅) other_repr_sample.

(** The traversal of a query, before anything is rendered. *)
Definition traversal_top (max_depth max_ent : Z) : Traversal :=
  mkTraversal 0 max_depth max_ent ∅.


Definition restores (repr : Traversal -> Z -> option (string * Traversal)) : Prop :=
  forall t a s t', repr t a = Some (s, t') -> t' = t.

(** The traversal inside the braces of the container at [this]. *)
Definition inside (this : Z) (t : Traversal) : Traversal :=
  indent_enter (with_in_progress (in_progress t ∪ {[this]}) t).

(** The containers of the snapshot that are not open. *)
Definition closed_containers (h : Heap) (t : Traversal) : gset Z :=
  dom (containers h) ∖ in_progress t.

Definition extends (repr1 repr2 : Traversal -> Z -> option (string * Traversal)) : Prop :=
  forall t a r, repr1 t a = Some r -> repr2 t a = Some r.


(** ** More of MemoryReader *)

(** [MemoryReader::read_to_end]. *)
Definition read_to_end (r : MemoryReader) (addr : Z) : result (list Byte.byte) :=
  bind_result (find_region_by_mapped_addr r addr) (fun rgn =>
    let offset := MappedPtr.bytes_until (v_addr rgn) addr in
    if offset >? v_size rgn then
      Throw (out_of_range "Read begins beyond end of region")
    else Ok (string_reader (v_data rgn) offset (wrap64 (v_size rgn - offset)))).

(** [MemoryReader::get<T>(addr)]: [read(addr, sizeof(T))], the bytes of
    the object. *)
Definition get (r : MemoryReader) (sizeof_T addr : Z) : result (list Byte.byte) :=
  read r addr sizeof_T.

(** Two regions that touch: [[0x1000, 0x2000)] and [[0x2000, 0x3000)]. *)
Definition reader_adjacent : MemoryReader :=
  mkReader [mkView 0x1000 0 (repeat Byte.x01 4096) 0x1000;
            mkView 0x2000 0x1000 (repeat Byte.x02 4096) 0x1000].

Definition is_hex_digit (c : ascii) : bool :=
  bool_decide (c ∈ list_ascii_of_string "0123456789ABCDEF").


(** ** More of the scanner *)

(** The strides that pass the two tests at the head of
    [map_all_addresses]. *)
Definition accepted_strides : list Z :=
  [0; 1; 2; 4; 8; 16; 32; 64; 128; 256; 512; 1024; 2048; 4096].

(** The worker that took the block at offset 0 is still in it, or nobody
    has taken it yet. *)
Definition first_block_open (st : scan_state) : Prop :=
  (current_offset st = 0 /\ Forall (fun ts => ts = Fetching 0) (threads st))
  \/ exists i addr, threads st !! i = Some (InBlock 0 0 0 addr 0).


(** ** Commands that filter a scan: find, find-all-objects, count-by-type

    The object decoders ([PyObject], [Environment::invalid_reason(addr)],
    [Traversal]) are declared outside these sources and are parameters:
    the snapshot is immutable, so what they return is a function of the
    address.  The lines are given without the terminal control prefix
    [CLEAR_LINE]. *)

Record ObjectDecoder : Type := mkObjects {
  sizeof_object_header : Z;          (* sizeof(PyObject) *)
  object_ob_type : Z -> Z;           (* obj.ob_type *)
  env_invalid_reason_at : Z -> option string;  (* env.invalid_reason(addr) *)
  traversal_repr : Z -> string;      (* t.repr(addr) of a fresh traversal *)
  traversal_is_valid : Z -> bool     (* t.is_valid after that repr *)
}.

#[global] Instance byte_eq_decision : EqDecision Byte.byte := Byte.byte_eq_dec.

(** The bytes that the scan hands to [fn] for the object at [addr]: those
    of the region of [addr], from [addr] on. *)
Definition value_at (r : MemoryReader) (addr size : Z) : result (list Byte.byte) :=
  read r addr size.

(** A little-endian integer, as [*reinterpret_cast<const uint64_t*>]
    loads it. *)
Fixpoint le_bytes_value (bs : list Byte.byte) : Z :=
  match bs with
  | [] => 0
  | b :: bs' => Z.of_N (Byte.to_N b) + 256 * le_bytes_value bs'
  end.

(** The test of the two lambdas of [find]: [value == target_value] in the
    aligned 8-byte case, [!memcmp(&mem_data, data.data(), data.size())]
    otherwise. *)
Definition find_matches (r : MemoryReader) (data : list Byte.byte)
    (alignment addr : Z) : bool :=
  if (Z.of_nat (length data) =? 8) && (alignment =? 8) then
    match value_at r addr 8 with
    | Ok bs => le_bytes_value bs =? le_bytes_value data
    | Throw _ => false
    end
  else
    match value_at r addr (Z.of_nat (length data)) with
    | Ok bs => bool_decide (bs = data)
    | Throw _ => false
    end.

Definition find_callback (r : MemoryReader) (data : list Byte.byte)
    (alignment : Z) (count_only : bool) (st : nat * list string) (addr : Z)
  : nat * list string :=
  if find_matches r data alignment addr then
    (S st.1,
     if count_only then st.2 else st.2 ++ ["Data found at " +:+ format_addr addr])
  else st.

(** [find DATA --align=ALIGN [--count]] once [DATA] is parsed:
    [result_count] and the lines printed, with the closing line. *)
Definition c_find (hardware_concurrency : nat) (r : MemoryReader)
    (data : list Byte.byte) (alignment : Z) (count_only : bool)
    (max_threads : nat) (sched : list nat)
  : option (result (nat * list string)) :=
  let object_size :=
    if (Z.of_nat (length data) =? 8) && (alignment =? 8) then 8
    else Z.of_nat (length data) in
  match map_all_addresses hardware_concurrency r alignment max_threads
          object_size sched with
  | None => None
  | Some (Throw e) => Some (Throw e)
  | Some (Ok calls) =>
      let '(result_count, lines) :=
        fold_left (find_callback r data alignment count_only) calls.*1 (0%nat, []) in
      Some (Ok (result_count,
                lines ++ [pretty (Z.of_nat result_count) +:+ " results found"]))
  end.

(** The lambda of [find-all-objects]. *)
Definition find_all_objects_callback (O : ObjectDecoder) (type_addr : Z)
    (count_only : bool) (st : nat * list string) (addr : Z) : nat * list string :=
  if negb (object_ob_type O addr =? type_addr)
     || bool_decide (is_Some (env_invalid_reason_at O addr)) then st
  else if count_only then (S st.1, st.2)
  else if negb (traversal_is_valid O addr) then st
  else (S st.1, st.2 ++ [traversal_repr O addr]).

(** [find-all-objects --type-addr=ADDRESS --type-name=NAME [--count]]:
    [result_count] and the lines written to [stdout]. *)
Definition c_find_all_objects (O : ObjectDecoder) (hardware_concurrency : nat)
    (env : Environment) (type_addr_arg : Z) (type_name : string)
    (count_only : bool) (max_threads : nat) (sched : list nat)
  : option (result (nat * list string)) :=
  match (if MappedPtr.is_null type_addr_arg then get_type env type_name
         else Ok type_addr_arg) with
  | Throw e => Some (Throw e)
  | Ok type_addr =>
      match map_all_addresses hardware_concurrency (env_r env) 8 max_threads
              (sizeof_object_header O) sched with
      | None => None
      | Some (Throw e) => Some (Throw e)
      | Some (Ok calls) =>
          Some (Ok (fold_left (find_all_objects_callback O type_addr count_only)
                              calls.*1 (0%nat, [])))
      end
  end.




(** [operator<] of [std::tuple<size_t, std::string, MappedPtr>], as
    [sort] uses it. *)
Definition entry_le (a b : nat * string * Z) : Prop :=
  match Nat.compare a.1.1 b.1.1 with
  | Lt => True
  | Gt => False
  | Eq =>
      match String.compare a.1.2 b.1.2 with
      | Lt => True
      | Gt => False
      | Eq => a.2 <= b.2
      end
  end.

#[global] Instance entry_le_dec a b : Decision (entry_le a b).
Proof.
  unfold entry_le. destruct (Nat.compare _ _); try apply _.
  destruct (String.compare _ _); apply _.
Defined.



(** The scanned addresses that pass a test. *)
Definition scan_hits (r : MemoryReader) (stride object_size : Z)
    (test : Z -> bool) (a : Z) : Prop :=
  covered r stride object_size a /\ test a = true.

(** The test of [find-all-objects] on an object. *)
Definition is_object_of (O : ObjectDecoder) (type_addr : Z) (count_only : bool)
    (a : Z) : bool :=
  (object_ob_type O a =? type_addr)
  && negb (bool_decide (is_Some (env_invalid_reason_at O a)))
  && (count_only || traversal_is_valid O a).


(** A page that holds the 8 bytes [01 02 .. 08] at [0x1010], zero
    elsewhere. *)
Definition reader_with_data : MemoryReader :=
  mkReader [mkView 0x1000 0
              (repeat Byte.x00 16
               ++ [Byte.x01; Byte.x02; Byte.x03; Byte.x04;
                   Byte.x05; Byte.x06; Byte.x07; Byte.x08]
               ++ repeat Byte.x00 (4096 - 24)) 0x1000].

Definition data_sample : list Byte.byte :=
  [Byte.x01; Byte.x02; Byte.x03; Byte.x04; Byte.x05; Byte.x06; Byte.x07; Byte.x08].

(** Objects of type [0x1100] at [0x1400] and [0x2400], nothing else. *)
Definition objects_sample : ObjectDecoder :=
  mkObjects 16
    (fun a => if (a =? 0x1400) || (a =? 0x2400) then 0x1100 else 0)
    (fun a => if (a =? 0x1400) || (a =? 0x2400) then None else Some "invalid_type")
    (fun a => "<object>@" +:+ format_addr a)
    (fun _ => true).



(** A catalog with the type at [0x1100] under the name ["dup"]. *)
Definition env_with_type : Environment :=
  mkEnv reader_two_pages 0x1100 (<["dup" := 0x1100]> ∅).


(** ** find-all-stacks: roots and tracebacks

    [back_for_frame] is the map the scan has built: every frame found
    running, with its [f_back].  [repr addr] stands for [t.repr(addr)] of
    the short traversal of the command; the frame decoder is not part of
    these sources. *)

(** Roots are all frames that are not the [f_back] of any other frame. *)
Definition stack_roots (back_for_frame : gmap Z Z) : list Z :=
  let entries := map_to_list back_for_frame in
  let roots := fold_left (fun roots it => set_emplace it.1 roots) entries [] in
  fold_left (fun roots it => set_erase it.2 roots) entries roots.

Definition missing_frame_warning (addr : Z) : string :=
  "<warning: frame points to f_back=@" +:+ format_addr addr
  +:+ " which is missing from the found frame list>".

(** The [while (!addr.is_null())] loop of one traceback, at
    [recursion_depth = 1]: the lines it writes.  [fuel] bounds the turns
    of the loop; [None] when it runs out. *)
Fixpoint print_stack (fuel : nat) (back_for_frame : gmap Z Z) (repr : Z -> string)
    (addr : Z) : option (list string) :=
  match fuel with
  | O => None
  | S fuel' =>
      if MappedPtr.is_null addr then Some []
      else
        let line := indent 1 +:+ repr addr in
        match back_for_frame !! addr with
        | Some f_back =>
            rest ← print_stack fuel' back_for_frame repr f_back;
            Some (line :: rest)
        | None =>
            Some [line; indent 1 +:+ missing_frame_warning addr]
        end
  end.

(** The last loop of the command: one traceback per root. *)
Fixpoint print_stacks (fuel : nat) (back_for_frame : gmap Z Z) (repr : Z -> string)
    (roots : list Z) : option (list (list string)) :=
  match roots with
  | [] => Some []
  | addr :: rest =>
      match print_stack fuel back_for_frame repr addr,
            print_stacks fuel back_for_frame repr rest with
      | Some lines, Some tracebacks =>
          Some (("Traceback (most recent call FIRST):" :: lines) :: tracebacks)
      | _, _ => None
      end
  end.

Definition find_all_stacks (fuel : nat) (back_for_frame : gmap Z Z)
    (repr : Z -> string) : option (list (list string)) :=
  print_stacks fuel back_for_frame repr (stack_roots back_for_frame).

(** The frame reached from [addr] after [n] steps along [f_back], through
    frames that were found. *)
Fixpoint nth_back (back_for_frame : gmap Z Z) (n : nat) (addr : Z) : option Z :=
  match n with
  | O => Some addr
  | S n' =>
      if MappedPtr.is_null addr then None
      else f_back ← back_for_frame !! addr; nth_back back_for_frame n' f_back
  end.

(** No two found frames have the same non-null [f_back]. *)
Definition back_injective (back_for_frame : gmap Z Z) : Prop :=
  forall p q a, back_for_frame !! p = Some a -> back_for_frame !! q = Some a ->
                a <> 0 -> p = q.

(** [path] lists the frames of a traceback printed before [addr], the
    latest first: it ends with a root, and each frame is the [f_back] of
    the one after it in the list. *)
Record stack_path (back_for_frame : gmap Z Z) (path : list Z) (addr : Z) : Prop :=
  mkStackPath {
  sp_nodup : NoDup path;
  sp_found : forall p, p ∈ path -> is_Some (back_for_frame !! p);
  sp_links : forall i p q, path !! i = Some p -> path !! S i = Some q ->
                           back_for_frame !! q = Some p;
  sp_root : forall p, last path = Some p -> forall k, back_for_frame !! k <> Some p;
  sp_latest : forall p, head path = Some p -> back_for_frame !! p = Some addr;
  sp_start : path = [] -> forall k, back_for_frame !! k <> Some addr
}.

(** Frame [0x30] is called from [0x20], [0x20] from [0x10]; [0x10] has no
    caller. *)
Definition stack_sample : gmap Z Z :=
  <[0x30 := 0x20]> (<[0x20 := 0x10]> (<[0x10 := 0]> ∅)).

(** A root [0x10] whose [f_back] chain runs into the cycle
    [0x20 -> 0x30 -> 0x20]. *)
Definition stack_with_cycle : gmap Z Z :=
  <[0x10 := 0x20]> (<[0x20 := 0x30]> (<[0x30 := 0x20]> ∅)).

Definition frame_repr_sample (addr : Z) : string :=
  "<frame>@" +:+ format_addr addr.


(** ** PyFrameObject::locals and direct_referents *)

(** What [locals] yields: the map, or the exception [invalid_object]. *)
Inductive locals_result : Type :=
| Locals (m : gmap Z Z)
| InvalidObject (ir : string).

(** The [for] loop of [locals]: [ret.emplace(varnames.items[z],
    this->f_localsplus[z])]; [fuel] is the number of turns left. *)
Fixpoint locals_loop (W : FrameWorld) (r : MemoryReader) (this varnames : Z)
    (fuel : nat) (z : Z) (ret : gmap Z Z) : outcome (gmap Z Z) :=
  match fuel with
  | O => Returns ret
  | S fuel' =>
      bind_outcome (host_element W r varnames (sizeof_co_varnames W + 8 * z))
        (fun name =>
      bind_outcome (host_element W r this (sizeof_PyFrameObject W + 8 * z))
        (fun value =>
      locals_loop W r this varnames fuel' (z + 1)
        (match ret !! name with
         | Some _ => ret
         | None => <[name := value]> ret
         end)))
  end.

Definition PyFrameObject_locals (W : FrameWorld) (env : Environment) (this : Z)
  : outcome locals_result :=
  let r := env_r env in
  let f := frame_at W this in
  bind_outcome (of_result (get_type env "code")) (fun code_type =>
  match env_invalid_reason W (f_code f) code_type with
  | Some ir => Returns (InvalidObject ir)
  | None =>
      bind_outcome (reader_get r (sizeof_f_code W) (f_code f)) (fun _ =>
      let co_varnames := co_varnames_at W (f_code f) in
      bind_outcome (of_result (get_type env "tuple")) (fun tuple_type =>
      match env_invalid_reason W co_varnames tuple_type with
      | Some ir => Returns (InvalidObject ir)
      | None =>
          bind_outcome (reader_get r (sizeof_co_varnames W) co_varnames) (fun _ =>
          bind_outcome
            (locals_loop W r this co_varnames
               (Z.to_nat (tuple_ob_size_at W co_varnames)) 0 ∅)
            (fun ret => Returns (Locals ret)))
      end))
  end).

(** [PyFrameObject::direct_referents]: [None] for [invalid_object]. *)
Definition PyFrameObject_direct_referents (W : FrameWorld) (env : Environment)
    (this : Z) : outcome (option (gset Z)) :=
  let f := frame_at W this in
  bind_outcome (PyFrameObject_locals W env this) (fun res =>
  match res with
  | InvalidObject _ => Returns None
  | Locals m =>
      Returns (Some (map_fold (fun name value ret => {[name; value]} ∪ ret)
                       {[f_back f; f_code f; f_builtins f; f_globals f;
                         f_locals f; f_trace f; f_gen f]} m))
  end).

(** A frame in the middle of [reader_one_page] with two variables. *)
Definition frame_world_two_locals : FrameWorld :=
  mkFrameWorld 0x168 0x168 0xB0 48 48 16 8 16 16 24 16
    (fun _ => mkFrame 0 0 0x1100 0 0 0 0 0 0)
    (fun _ => 0x1200)
    (fun _ => 2)
    (fun a => if a =? 0x1200 + 24 then 0x1300
              else if a =? 0x1200 + 32 then 0x1340
              else if a =? 0x1400 + 0x168 then 0x1500
              else 0)
    (fun addr ty =>
       if ((addr =? 0x1100) && (ty =? 0x1800))
          || ((addr =? 0x1200) && (ty =? 0x1810))
          || (((addr =? 0x1300) || (addr =? 0x1340)) && (ty =? 0x1820))
       then None else Some "invalid_type")
    (fun _ => None).


#[global] Instance DictSlot_eq_dec : EqDecision DictSlot.
Proof. solve_decision. Defined.




(** ** MemoryReader::MemoryReader on a single file

    The file holds, one after the other, [struct { start_address;
    end_address; region_data[end_address - start_address] }].  The bytes
    are read through [phosg::StringReader], a library: a read past the end
    of the file throws its [std::out_of_range]. *)

Inductive load_error : Type :=
| ReaderOutOfRange            (* phosg::StringReader: std::out_of_range *)
| MapViewOutOfRange.          (* runtime_error("Map view out of range") *)

(** [std::map::emplace(view.addr, view)]: the map as its list in key
    order; no effect on a key that is present. *)
Fixpoint map_emplace (view : View) (m : list View) : list View :=
  match m with
  | [] => [view]
  | w :: m' =>
      if v_addr view <? v_addr w then view :: m
      else if v_addr view =? v_addr w then m
      else w :: map_emplace view m'
  end.

(** [r.get_u64l()] at [offset]. *)
Definition get_u64l (file : list Byte.byte) (offset : Z) : option Z :=
  if offset + 8 >? Z.of_nat (length file) then None
  else Some (le_bytes_value (take 8 (drop (Z.to_nat offset) file))).

(** [MemoryMappedFile::view(addr, offset, size)] of a file mapped at
    [map_offset = 0]. *)
Definition MemoryMappedFile_view (file : list Byte.byte) (addr offset size : Z)
  : option View :=
  if wrap64 (offset + size) >? Z.of_nat (length file) then None
  else Some (mkView addr offset (string_reader file offset size) size).

(** The [while (!r.eof())] loop of the constructor: [regions_by_mapped]
    and [total_bytes].  [fuel] bounds the turns; [None] when it runs
    out. *)
Fixpoint single_file_loop (fuel : nat) (file : list Byte.byte) (offset : Z)
    (regions : list View) (total_bytes : Z)
  : option (load_error + MemoryReader * Z) :=
  match fuel with
  | O => None
  | S fuel' =>
      if offset >=? Z.of_nat (length file) then
        Some (inr (mkReader regions, total_bytes))
      else
        match get_u64l file offset, get_u64l file (offset + 8) with
        | Some start, Some end_ =>
            let region_size := MappedPtr.bytes_until start end_ in
            let data_offset := offset + 16 in
            match MemoryMappedFile_view file start data_offset region_size with
            | None => Some (inl MapViewOutOfRange)
            | Some view =>
                if data_offset + region_size >? Z.of_nat (length file) then
                  Some (inl ReaderOutOfRange)
                else
                  single_file_loop fuel' file (data_offset + region_size)
                    (map_emplace view regions)
                    (wrap64 (total_bytes + region_size))
            end
        | _, _ => Some (inl ReaderOutOfRange)
        end
  end.

Definition MemoryReader_single_file (fuel : nat) (file : list Byte.byte)
  : option (load_error + MemoryReader * Z) :=
  single_file_loop fuel file 0 [] 0.

(** The format, written out: little-endian start and end address, then
    the bytes of the region. *)
Definition byte_of_Z (x : Z) : Byte.byte :=
  default Byte.x00 (Byte.of_N (Z.to_N x)).

Fixpoint le_bytes (n : nat) (x : Z) : list Byte.byte :=
  match n with
  | O => []
  | S n' => byte_of_Z (x mod 256) :: le_bytes n' (x / 256)
  end.

Definition encode_region (rgn : Z * list Byte.byte) : list Byte.byte :=
  le_bytes 8 rgn.1 ++ le_bytes 8 (rgn.1 + Z.of_nat (length rgn.2)) ++ rgn.2.

Definition encode_regions (rgns : list (Z * list Byte.byte)) : list Byte.byte :=
  rgns ≫= encode_region.

(** Two regions are apart: they start at different addresses and their
    ranges do not overlap. *)
Definition regions_apart (a b : Z * list Byte.byte) : Prop :=
  a.1 <> b.1
  /\ (a.1 + Z.of_nat (length a.2) <= b.1 \/ b.1 + Z.of_nat (length b.2) <= a.1).

Definition region_in_space (rgn : Z * list Byte.byte) : Prop :=
  0 <= rgn.1 /\ rgn.1 + Z.of_nat (length rgn.2) < 2 ^ 64.

Definition view_of_region (file_offset : Z) (rgn : Z * list Byte.byte) : View :=
  mkView rgn.1 file_offset rgn.2 (Z.of_nat (length rgn.2)).

(** Two regions, the higher one first in the file. *)
Definition regions_sample : list (Z * list Byte.byte) :=
  [(0x2000, [Byte.x0a; Byte.x0b; Byte.x0c]); (0x1000, [Byte.x01; Byte.x02])].

(** The views of the regions of a file, the first record starting at
    [offset]. *)
Fixpoint views_from (offset : Z) (rgns : list (Z * list Byte.byte)) : list View :=
  match rgns with
  | [] => []
  | rgn :: rgns' =>
      view_of_region (offset + 16) rgn
      :: views_from (offset + 16 + Z.of_nat (length rgn.2)) rgns'
  end.

Fixpoint all_apart (rgns : list (Z * list Byte.byte)) : Prop :=
  match rgns with
  | [] => True
  | rgn :: rgns' => Forall (regions_apart rgn) rgns' /\ all_apart rgns'
  end.

Definition views_apart (a b : View) : Prop :=
  v_addr a <> v_addr b
  /\ (v_addr a + v_size a <= v_addr b \/ v_addr b + v_size b <= v_addr a).


(** ** aggregate-strings

    [fn_aggregate_strings<IsBytes>]: the histogram of the sizes of the
    [str] (or [bytes]) objects of the snapshot.  What the string decoders
    give is a parameter: [obj.invalid_reason(shell.env)] and the
    [data_size] of the [try] block ([None] when it throws), both functions
    of the address. *)

Record StringDecoder : Type := mkStrings {
  obj_invalid_reason_at : Z -> option string;  (* obj.invalid_reason(shell.env) *)
  string_data_size : bool -> Z -> option Z     (* data_size, by IsBytes *)
}.

Definition size_buckets : list Z :=
  [0; 1; 2; 5; 10; 20; 50; 100; 200; 500; 1000; 2000; 5000; 10000; 20000;
   50000; 100000; 200000; 500000; 1000000; 2000000; 5000000; 10000000;
   20000000; 50000000; 100000000; 200000000; 500000000; 1000000000].

(** [lower_bound(begin, end, value) - begin]: the first position whose
    element is not less than [value]. *)
Fixpoint lower_bound (buckets : list Z) (value : Z) : nat :=
  match buckets with
  | [] => 0%nat
  | b :: buckets' => if b <? value then S (lower_bound buckets' value) else 0%nat
  end.

(** [if (bucket_index >= histogram_data.size()) histogram_data.resize(
    bucket_index + 1, 0); histogram_data[bucket_index]++]. *)
Definition histogram_count (histogram_data : list nat) (bucket_index : nat)
  : list nat :=
  let resized :=
    if (length histogram_data <=? bucket_index)%nat
    then histogram_data
         ++ replicate (S bucket_index - length histogram_data) 0%nat
    else histogram_data in
  alter S bucket_index resized.

Record Aggregate : Type := mkAggregate {
  agg_histogram_data : list nat;   (* histogram_data *)
  agg_total_size : Z;              (* total_size *)
  agg_total_objects : nat;         (* total_objects *)
  agg_lines : list string          (* the reprs written to stdout *)
}.

(** The lambda of [fn_aggregate_strings]. *)
Definition aggregate_callback (O : ObjectDecoder) (D : StringDecoder)
    (is_bytes : bool) (type_addr print_smaller_than print_larger_than : Z)
    (st : Aggregate) (addr : Z) : Aggregate :=
  if negb (object_ob_type O addr =? type_addr)
     || bool_decide (is_Some (obj_invalid_reason_at D addr)) then st
  else
    match string_data_size D is_bytes addr with
    | None => st
    | Some data_size =>
        let bucket_index := lower_bound size_buckets data_size in
        mkAggregate
          (histogram_count (agg_histogram_data st) bucket_index)
          (wrap64 (agg_total_size st + data_size))
          (S (agg_total_objects st))
          (if (data_size >=? print_larger_than) && (data_size <? print_smaller_than)
           then agg_lines st ++ [traversal_repr O addr]
           else agg_lines st)
    end.

(** [aggregate-strings [--bytes] [--print-smaller-than=N]
    [--print-larger-than=N]]: the totals, the histogram and the reprs
    printed by the scan. *)
Definition c_aggregate_strings (O : ObjectDecoder) (D : StringDecoder)
    (hardware_concurrency : nat) (env : Environment) (is_bytes : bool)
    (print_smaller_than print_larger_than : Z) (max_threads : nat)
    (sched : list nat) : option (result Aggregate) :=
  match get_type env (if is_bytes then "bytes" else "str") with
  | Throw e => Some (Throw e)
  | Ok type_addr =>
      match map_all_addresses hardware_concurrency (env_r env) 8 max_threads
              (sizeof_object_header O) sched with
      | None => None
      | Some (Throw e) => Some (Throw e)
      | Some (Ok calls) =>
          Some (Ok (fold_left
                      (aggregate_callback O D is_bytes type_addr
                         print_smaller_than print_larger_than)
                      calls.*1 (mkAggregate [] 0 0%nat [])))
      end
  end.

(** The label of the histogram line of bucket [z]. *)
Definition bucket_str (z : nat) : string :=
  match size_buckets !! z with
  | Some b => pretty b
  | None => ">" +:+ pretty (List.last size_buckets 0)
  end.

(** The histogram lines that close the output. *)
Definition histogram_lines (histogram_data : list nat) : list string :=
  imap (fun z count =>
          "Length <= " +:+ bucket_str z +:+ ": " +:+ pretty (Z.of_nat count)
          +:+ " objects") histogram_data.

(** The objects that the lambda counts. *)
Definition is_aggregated (O : ObjectDecoder) (D : StringDecoder)
    (is_bytes : bool) (type_addr a : Z) : bool :=
  (object_ob_type O a =? type_addr)
  && negb (bool_decide (is_Some (obj_invalid_reason_at D a)))
  && bool_decide (is_Some (string_data_size D is_bytes a)).

Definition data_size_of (D : StringDecoder) (is_bytes : bool) (a : Z) : Z :=
  default 0 (string_data_size D is_bytes a).

Definition data_bytes (D : StringDecoder) (is_bytes : bool) (found : list Z) : Z :=
  foldr (fun a acc => data_size_of D is_bytes a + acc) 0 found.

(** A size belongs to bucket [z]: it is at most the bound of the bucket
    (bucket 29 has none) and above the bounds of the buckets before. *)
Definition in_bucket (z : nat) (s : Z) : Prop :=
  (z <= length size_buckets)%nat
  /\ (forall b, size_buckets !! z = Some b -> s <= b)
  /\ (forall y b, (y < z)%nat -> size_buckets !! y = Some b -> b < s).

(** The catalog with the type at [0x1100] under the name ["str"]; strings
    of 3 and of 700 bytes at [0x1400] and [0x2400]. *)
Definition env_with_str : Environment :=
  mkEnv reader_two_pages 0x1100 (<["str" := 0x1100]> ∅).

Definition strings_sample : StringDecoder :=
  mkStrings
    (fun _ => None)
    (fun _ a => if a =? 0x1400 then Some 3
                else if a =? 0x2400 then Some 700 else None).


(** ** context

    [context ADDRESS --size=N] once the address is parsed: the start
    address and the bytes handed to [phosg::print_data]. *)
Definition c_context (r : MemoryReader) (addr size : Z)
  : result (Z * list Byte.byte) :=
  bind_result (region_for_address r addr) (fun rgn =>
    let bytes_before := Z.min size (wrap64 (addr - rgn.1)) in
    let bytes_after :=
      Z.min size (MappedPtr.bytes_until addr (MappedPtr.offset_bytes rgn.1 rgn.2)) in
    let bytes_to_read := wrap64 (bytes_before + bytes_after) in
    let read_start_addr := MappedPtr.offset_bytes addr (- bytes_before) in
    bind_result (read r read_start_addr bytes_to_read) (fun data =>
      Ok (read_start_addr, data))).

(* ================================================================== *)
(** * Theorems *)
(* ================================================================== *)

(** ** Arithmetic of [wrap64] *)

Lemma wrap64_small x : in_u64 x -> wrap64 x = x.
Proof. unfold in_u64, wrap64. intros. apply Z.mod_small. lia. Qed.

Lemma wrap64_range x : in_u64 (wrap64 x).
Proof. unfold in_u64, wrap64. apply Z.mod_pos_bound. lia. Qed.

Lemma wrap64_add_over x : 2 ^ 64 <= x < 2 ^ 65 -> wrap64 x = x - 2 ^ 64.
Proof.
  unfold wrap64. intros H.
  replace x with ((x - 2 ^ 64) + 1 * 2 ^ 64) at 1 by lia.
  rewrite Z.mod_add by lia. apply Z.mod_small. lia.
Qed.

(** The overflow test of [read]: for 64-bit [a] and [b] the wrapped sum is
    below [a] exactly when the true sum leaves the 64-bit range. *)
Lemma wrap64_add_lt a b :
  in_u64 a -> in_u64 b -> (wrap64 (a + b) <? a) = (2 ^ 64 <=? a + b).
Proof.
  unfold in_u64. intros Ha Hb.
  destruct (Z.leb_spec (2 ^ 64) (a + b)).
  - rewrite wrap64_add_over by lia. apply Z.ltb_lt. lia.
  - rewrite wrap64_small by (unfold in_u64; lia). apply Z.ltb_ge. lia.
Qed.

(** ** The snapshot store: region lookup *)

Lemma view_ok_spec v :
  view_ok v = true ->
  0 <= v_addr v /\ 0 <= v_size v /\ v_addr v + v_size v < 2 ^ 64
  /\ Z.of_nat (length (v_data v)) = v_size v.
Proof. unfold view_ok. intros H. repeat (apply andb_prop in H as [H ?]). lia. Qed.

Lemma regions_sorted_later v m :
  forallb view_ok (v :: m) = true -> regions_sorted (v :: m) = true ->
  Forall (fun w => v_addr v + v_size v <= v_addr w /\ v_addr v < v_addr w) m.
Proof.
  revert v. induction m as [|w m IH]; intros v Hok Hs; [constructor|].
  cbn [regions_sorted] in Hs. cbn [forallb] in Hok.
  apply andb_prop in Hs as [Hvw Hs]. apply andb_prop in Hvw as [H1 H2].
  apply andb_prop in Hok as [Hv Hok].
  pose proof Hok as Hok'. cbn [forallb] in Hok'. apply andb_prop in Hok' as [Hw _].
  apply view_ok_spec in Hw. constructor; [lia|].
  specialize (IH w Hok Hs). eapply Forall_impl; [exact IH|].
  cbn. intros; lia.
Qed.

Lemma upper_bound_prev_inv m addr prev v :
  upper_bound_prev m addr prev = Some v ->
  prev = Some v \/ (v ∈ m /\ v_addr v <= addr).
Proof.
  revert prev. induction m as [|w m IH]; intros prev H; cbn in H; [by left|].
  destruct (Z.ltb_spec addr (v_addr w)); [by left|].
  apply IH in H as [H|[H ?]].
  - injection H as ->. right. split; [left|lia].
  - right. split; [by right|done].
Qed.

Lemma upper_bound_prev_hit m addr prev v :
  forallb view_ok m = true -> regions_sorted m = true ->
  v ∈ m -> v_addr v <= addr < v_addr v + v_size v ->
  upper_bound_prev m addr prev = Some v.
Proof.
  revert prev. induction m as [|w m IH]; intros prev Hok Hs Hin Hv.
  - by apply elem_of_nil in Hin.
  - pose proof (regions_sorted_later w m Hok Hs) as Hlater.
    cbn [forallb] in Hok. apply andb_prop in Hok as [Hw Hok].
    assert (regions_sorted m = true) as Hs'.
    { cbn [regions_sorted] in Hs. by apply andb_prop in Hs as [_ Hs]. }
    cbn [upper_bound_prev].
    apply elem_of_cons in Hin as [->|Hin].
    + destruct (Z.ltb_spec addr (v_addr w)); [lia|].
      destruct m as [|w' m]; [done|]. cbn [upper_bound_prev].
      apply Forall_cons in Hlater as [Hw' _].
      destruct (Z.ltb_spec addr (v_addr w')); [done|lia].
    + rewrite Forall_forall in Hlater. specialize (Hlater v Hin).
      destruct (Z.ltb_spec addr (v_addr w)); [lia|]. by apply IH.
Qed.

Lemma regions_wf_spec r :
  regions_wf r = true ->
  forallb view_ok (regions_by_mapped r) = true
  /\ regions_sorted (regions_by_mapped r) = true.
Proof. unfold regions_wf. intros H. by apply andb_prop in H. Qed.

Lemma regions_wf_view_ok r v :
  regions_wf r = true -> v ∈ regions_by_mapped r -> view_ok v = true.
Proof.
  intros [Hok _]%regions_wf_spec Hin. rewrite forallb_forall in Hok.
  apply Hok. by apply list_elem_of_In.
Qed.

Lemma find_region_hit r v addr :
  regions_wf r = true -> v ∈ regions_by_mapped r -> in_view v addr ->
  find_region_by_mapped_addr r addr = Ok v.
Proof.
  intros Hwf Hin Hv. pose proof (regions_wf_view_ok r v Hwf Hin) as Hvok.
  apply view_ok_spec in Hvok. destruct (regions_wf_spec r Hwf) as [Hok Hs].
  unfold find_region_by_mapped_addr, in_view in *.
  rewrite (upper_bound_prev_hit _ addr None v Hok Hs Hin Hv).
  unfold MappedPtr.offset_bytes. rewrite wrap64_small by (unfold in_u64; lia).
  destruct (Z.leb_spec (v_addr v + v_size v) addr); [lia|done].
Qed.

Lemma find_region_inv r addr v :
  regions_wf r = true ->
  find_region_by_mapped_addr r addr = Ok v ->
  v ∈ regions_by_mapped r /\ in_view v addr.
Proof.
  intros Hwf H. unfold find_region_by_mapped_addr in H.
  destruct (upper_bound_prev _ addr None) as [w|] eqn:Hub; [|done].
  apply upper_bound_prev_inv in Hub as [?|[Hin Hle]]; [done|].
  pose proof (regions_wf_view_ok r w Hwf Hin) as Hwok. apply view_ok_spec in Hwok.
  unfold MappedPtr.offset_bytes in H. rewrite wrap64_small in H by (unfold in_u64; lia).
  destruct (Z.leb_spec (v_addr w + v_size w) addr); [done|].
  injection H as <-. unfold in_view. split; [done|lia].
Qed.

(** [exists(addr)] holds exactly for the bytes of some region. *)
Lemma reader_exists_iff r addr :
  regions_wf r = true ->
  reader_exists r addr = true <-> exists v, v ∈ regions_by_mapped r /\ in_view v addr.
Proof.
  intros Hwf. unfold reader_exists. split.
  - destruct (find_region_by_mapped_addr r addr) as [v|] eqn:H; [|done].
    intros _. exists v. by apply find_region_inv.
  - intros (v & Hin & Hv). by rewrite (find_region_hit r v addr).
Qed.

(** [read] succeeds exactly when [addr] is a byte of a region and the
    range ends inside that region, in unbounded arithmetic. *)
Lemma read_ok_iff r addr size :
  regions_wf r = true -> in_u64 size ->
  is_ok (read r addr size) = true
  <-> exists v, v ∈ regions_by_mapped r /\ in_view v addr
                /\ addr + size <= v_addr v + v_size v.
Proof.
  intros Hwf Hsz. unfold read, bind_result. split.
  - destruct (find_region_by_mapped_addr r addr) as [v|] eqn:H; [|done].
    apply find_region_inv in H as [Hin Hv]; [|done].
    pose proof (view_ok_spec v (regions_wf_view_ok r v Hwf Hin)) as Hvok.
    unfold in_view, in_u64 in *. cbn zeta. unfold MappedPtr.bytes_until.
    rewrite (wrap64_small (addr - v_addr v)) by (unfold in_u64; lia).
    rewrite wrap64_add_lt by (unfold in_u64; lia).
    destruct (Z.leb_spec (2 ^ 64) (addr - v_addr v + size));
      [by rewrite orb_true_r|].
    rewrite wrap64_small by (unfold in_u64; lia). rewrite orb_false_r.
    destruct (Z.gtb_spec (addr - v_addr v + size) (v_size v)); [done|].
    intros _. exists v. repeat split; try done; lia.
  - intros (v & Hin & Hv & Hend).
    pose proof (view_ok_spec v (regions_wf_view_ok r v Hwf Hin)) as Hvok.
    rewrite (find_region_hit r v addr) by done.
    unfold in_view, in_u64 in *. cbn zeta. unfold MappedPtr.bytes_until.
    rewrite (wrap64_small (addr - v_addr v)) by (unfold in_u64; lia).
    rewrite wrap64_add_lt by (unfold in_u64; lia).
    destruct (Z.leb_spec (2 ^ 64) (addr - v_addr v + size)); [lia|].
    rewrite wrap64_small by (unfold in_u64; lia). rewrite orb_false_r.
    destruct (Z.gtb_spec (addr - v_addr v + size) (v_size v)); [lia|done].
Qed.

(** ** The validity helpers *)

(** What the source's [obj_valid_or_null] computes: it accepts every
    address except a misaligned one whose first bytes are mapped. *)
Lemma obj_valid_or_null_spec r sizeof_T addr alignment :
  obj_valid_or_null r sizeof_T addr alignment = true
  <-> addr = 0 \/ Z.land addr (wrap64 (alignment - 1)) = 0
      \/ exists_range r addr sizeof_T = false.
Proof.
  unfold obj_valid_or_null.
  destruct (Z.eqb_spec addr 0), (Z.eqb_spec (Z.land addr (wrap64 (alignment - 1))) 0),
    (exists_range r addr sizeof_T); cbn; intuition congruence.
Qed.

Lemma obj_valid_spec r sizeof_T addr alignment :
  obj_valid r sizeof_T addr alignment = true
  <-> addr <> 0 /\ Z.land addr (wrap64 (alignment - 1)) = 0
      /\ exists_range r addr sizeof_T = true.
Proof.
  unfold obj_valid.
  destruct (Z.eqb_spec addr 0), (Z.eqb_spec (Z.land addr (wrap64 (alignment - 1))) 0),
    (exists_range r addr sizeof_T); cbn; intuition congruence.
Qed.

(** C1 (code defect).  The claim reads [obj_valid_or_null] as "null, or
    [obj_valid]".  In the snapshot [reader_one_page] the address [0x3000]
    is not null, is aligned to 8 and belongs to no region: [obj_valid]
    rejects it and [obj_valid_or_null] accepts it. *)
Theorem obj_valid_or_null_accepts_unmapped :
  obj_valid_or_null reader_one_page 8 0x3000 8 = true
  /\ (0x3000 =? 0) = false
  /\ reader_exists reader_one_page 0x3000 = false
  /\ obj_valid reader_one_page 8 0x3000 8 = false.
Proof. repeat split; vm_compute; reflexivity. Qed.

(** ** read and exists_range *)

(** Without wrap-around of [addr + size], a range accepted by
    [exists_range] is read back from the bytes of its region. *)
Lemma exists_range_read_no_wrap r addr size :
  regions_wf r = true -> in_u64 size -> addr + size < 2 ^ 64 ->
  exists_range r addr size = true ->
  exists v, v ∈ regions_by_mapped r /\ in_view v addr
    /\ read r addr size
       = Ok (take (Z.to_nat size) (drop (Z.to_nat (addr - v_addr v)) (v_data v))).
Proof.
  intros Hwf Hsz Hnw H. unfold exists_range in H. unfold read, bind_result.
  destruct (find_region_by_mapped_addr r addr) as [v|] eqn:Hf; [|done].
  apply find_region_inv in Hf as [Hin Hv]; [|done].
  pose proof (view_ok_spec v (regions_wf_view_ok r v Hwf Hin)) as Hvok.
  exists v. split; [done|]. split; [done|].
  unfold in_view, in_u64 in *. cbn zeta.
  unfold MappedPtr.bytes_until, MappedPtr.offset_bytes in *.
  rewrite (wrap64_small (addr + size)) in H by (unfold in_u64; lia).
  rewrite (wrap64_small (addr + size - v_addr v)) in H by (unfold in_u64; lia).
  apply Z.leb_le in H.
  rewrite (wrap64_small (addr - v_addr v)) by (unfold in_u64; lia).
  rewrite wrap64_small by (unfold in_u64; lia).
  destruct (Z.gtb_spec (addr - v_addr v + size) (v_size v)); [lia|].
  destruct (Z.ltb_spec (addr - v_addr v + size) (addr - v_addr v)); [lia|].
  reflexivity.
Qed.

(** C4 (code defect).  [exists_range] has no overflow test where [read]
    has one.  In [reader_one_page], for [addr = 0x1005] and
    [n = 2^64 - 3] the sum [addr + n] wraps to [0x1002]: [exists_range]
    answers [true] and [read] throws [out_of_range]. *)
Theorem exists_range_true_read_throws :
  exists_range reader_one_page 0x1005 (2 ^ 64 - 3) = true
  /\ read reader_one_page 0x1005 (2 ^ 64 - 3)
     = Throw (out_of_range "Read size extends beyond end of region").
Proof. split; vm_compute; reflexivity. Qed.

(** C5, as stated, fails on an empty range: [[0x2000, 0x2000)] lies inside
    the region [[0x1000, 0x2000)] of [reader_one_page] (it ends exactly at
    the region end), and [read] throws because [0x2000] is no byte of a
    region. *)
Lemma read_empty_range_at_region_end_throws :
  ~ (is_ok (read reader_one_page 0x2000 0) = true
     <-> exists v, v ∈ regions_by_mapped reader_one_page
                   /\ range_in_view v 0x2000 0).
Proof.
  intros [_ H]. assert (is_ok (read reader_one_page 0x2000 0) = true) as Hr.
  { apply H. eexists. split; [left|]. unfold range_in_view. cbn. lia. }
  vm_compute in Hr. discriminate.
Qed.

(** C5 (amended).  In a well-formed snapshot, a read of at least one byte
    succeeds iff its range lies inside one region; a read of no byte
    succeeds iff [addr] is a byte of a region; a read that starts inside a
    region and ends exactly at its end succeeds, and with one more byte it
    throws [out_of_range]. *)
Theorem read_succeeds_iff_inside_region r addr size :
  regions_wf r = true -> in_u64 size ->
  (1 <= size ->
     (is_ok (read r addr size) = true
      <-> exists v, v ∈ regions_by_mapped r /\ range_in_view v addr size))
  /\ (size = 0 ->
     (is_ok (read r addr size) = true <-> reader_exists r addr = true))
  /\ (forall v, v ∈ regions_by_mapped r -> in_view v addr ->
        addr + size = v_addr v + v_size v -> in_u64 (size + 1) ->
        is_ok (read r addr size) = true
        /\ read r addr (size + 1)
           = Throw (out_of_range "Read size extends beyond end of region")).
Proof.
  intros Hwf Hsz. split; [|split].
  - intros Hpos. rewrite read_ok_iff by done. unfold range_in_view, in_view.
    split; intros (v & Hin & H); exists v; (split; [done|]); lia.
  - intros ->. rewrite read_ok_iff, reader_exists_iff by done.
    unfold in_view. split.
    + intros (v & Hin & H & _). by exists v.
    + intros (v & Hin & H). exists v. split; [done|]. split; [done|lia].
  - intros v Hin Hv Hend Hsz1. split.
    + apply read_ok_iff; [done..|]. exists v. split; [done|]. split; [done|lia].
    + destruct (read r addr (size + 1)) as [bs|e] eqn:Hr.
      * assert (is_ok (read r addr (size + 1)) = true) as Hok by by rewrite Hr.
        apply read_ok_iff in Hok as (w & Hw & Hwv & Hwend); [|done..].
        assert (w = v) as ->.
        { pose proof (find_region_hit r w addr Hwf Hw Hwv) as E1.
          pose proof (find_region_hit r v addr Hwf Hin Hv) as E2. congruence. }
        lia.
      * unfold read, bind_result in Hr.
        rewrite (find_region_hit r v addr Hwf Hin Hv) in Hr.
        destruct (_ || _) in Hr; congruence.
Qed.

Lemma read_succeeds_iff_inside_region_witness :
  is_ok (read reader_one_page 0x1ff8 8) = true
  /\ read reader_one_page 0x1ff8 9
     = Throw (out_of_range "Read size extends beyond end of region").
Proof.
  refine (proj2 (proj2 (read_succeeds_iff_inside_region reader_one_page 0x1ff8 8
                          eq_refl _)) _ _ _ _ _).
  - unfold in_u64; lia.
  - left.
  - unfold in_view; cbn; lia.
  - reflexivity.
  - unfold in_u64; lia.
Defined.

(** ** The scanner: one step at a time *)

Lemma bind_insert_perm {A B} (f : A -> list B) (l : list A) i x y :
  l !! i = Some x -> (<[i:=y]> l ≫= f) ++ f x ≡ₚ f y ++ (l ≫= f).
Proof.
  revert i. induction l as [|a l IH]; intros [|i] H; try done; cbn in *.
  - injection H as ->. rewrite <- !(assoc_L (++)).
    f_equiv. apply Permutation_app_comm.
  - rewrite <- (assoc_L (++)), (IH i H).
    rewrite !(assoc_L (++)). f_equiv. apply Permutation_app_comm.
Qed.

Lemma joined_count_le ths : (joined_count ths <= length ths)%nat.
Proof. unfold joined_count. apply length_filter. Qed.

Lemma joined_count_insert ths i x y :
  ths !! i = Some x -> is_joined x = false ->
  joined_count (<[i:=y]> ths)
  = (joined_count ths + if is_joined y then 1 else 0)%nat.
Proof.
  unfold joined_count. revert i.
  induction ths as [|a l IH]; intros [|i] H Hx; try done; cbn in *.
  - injection H as ->. rewrite Hx.
    destruct (is_joined y); repeat case_decide; try done; cbn; lia.
  - specialize (IH i H Hx). repeat case_decide; try done; cbn; f_equal; apply IH.
Qed.

Lemma z_values_cons stride z m :
  0 < stride -> z <= m ->
  z_values stride z m = z :: z_values stride (z + stride) m.
Proof.
  intros Hs Hz. unfold z_values.
  destruct (Z.leb_spec z m); [|lia].
  assert (0 <= (m - z) / stride) as Hq by (apply Z.div_pos; lia).
  replace (Z.to_nat ((m - z) / stride + 1)) with (S (Z.to_nat ((m - z) / stride))) by lia.
  cbn [seq map]. f_equal; [lia|].
  destruct (Z.leb_spec (z + stride) m).
  - replace (m - (z + stride)) with ((m - z) + (-1) * stride) by lia.
    rewrite Z.div_add by lia.
    replace (Z.to_nat ((m - z) / stride + -1 + 1)) with (Z.to_nat ((m - z) / stride)) by lia.
    rewrite <- fmap_S_seq. rewrite <- list_fmap_compose.
    apply list_fmap_ext. intros _ k _. cbn. lia.
  - rewrite Z.div_small by lia. done.
Qed.

Lemma z_values_nil stride z m : m < z -> z_values stride z m = [].
Proof. intros H. unfold z_values. destruct (Z.leb_spec z m); [lia|done]. Qed.

Lemma blocks_from_cons S c :
  c < ss_back S -> blocks_from S c = c :: blocks_from S (c + block_stride).
Proof. intros. unfold blocks_from. apply z_values_cons; [done|lia]. Qed.

Lemma blocks_from_nil S c : ss_back S <= c -> blocks_from S c = [].
Proof. intros. unfold blocks_from. apply z_values_nil. lia. Qed.

Lemma advance_region_inv ends offset cur j :
  advance_region ends offset cur = Some j ->
  (cur <= j)%nat
  /\ (exists e, ends !! (j - cur)%nat = Some e /\ offset < e)
  /\ (forall k e', (k < j - cur)%nat -> ends !! k = Some e' -> e' <= offset).
Proof.
  revert cur. induction ends as [|e ends IH]; intros cur H; cbn in H; [done|].
  destruct (Z.geb_spec offset e) as [Hge|Hlt].
  - apply IH in H as (Hle & (e1 & He1 & Hlt1) & Hbelow).
    split; [lia|]. split.
    + exists e1. split; [|done].
      replace (j - cur)%nat with (S (j - S cur)) by lia. done.
    + intros [|k] e' Hk He'; cbn in He'.
      * injection He' as <-. lia.
      * apply (Hbelow k); [lia|done].
  - injection H as <-. split; [lia|]. split.
    + exists e. rewrite Nat.sub_diag. done.
    + intros k e' Hk. lia.
Qed.

Lemma advance_region_total ends offset cur :
  (exists e, e ∈ ends /\ offset < e) -> is_Some (advance_region ends offset cur).
Proof.
  revert cur. induction ends as [|e ends IH]; intros cur (e1 & Hin & Hlt).
  - by apply elem_of_nil in Hin.
  - cbn. destruct (Z.geb_spec offset e); [|done].
    apply IH. exists e1. split; [|done].
    apply elem_of_cons in Hin as [->|Hin]; [lia|done].
Qed.

Section scan_steps.
Context (S : scan_setup) (num_threads : nat) (HS : setup_ok S num_threads).

Lemma ss_back_lookup :
  ss_offsets S !! length (ss_regions S) = Some (ss_back S).
Proof.
  unfold ss_back. rewrite last_lookup, (so_length _ _ HS). cbn.
  destruct (ss_offsets S !! length (ss_regions S)) eqn:E; [done|].
  apply lookup_ge_None in E. rewrite (so_length _ _ HS) in E. lia.
Qed.

Lemma region_at_unique c j j' : region_at S c j -> region_at S c j' -> j = j'.
Proof.
  intros (s & e & Hs & He & Hc) (s' & e' & Hs' & He' & Hc').
  destruct (decide (j < j')%nat).
  { pose proof (so_mono _ _ HS (j + 1)%nat j' e s' ltac:(lia) He Hs'). lia. }
  destruct (decide (j' < j)%nat).
  { pose proof (so_mono _ _ HS (j' + 1)%nat j e' s ltac:(lia) He' Hs). lia. }
  lia.
Qed.

Lemma advance_region_at cur c s :
  ss_offsets S !! cur = Some s -> s <= c -> c < ss_back S ->
  exists j, advance_region (drop (cur + 1) (ss_offsets S)) c cur = Some j
            /\ region_at S c j.
Proof.
  intros Hs Hsc Hc. pose proof ss_back_lookup as Hb.
  assert (cur < length (ss_regions S))%nat as Hcur.
  { destruct (decide (cur < length (ss_regions S))%nat); [done|].
    pose proof (so_mono _ _ HS (length (ss_regions S)) cur _ _ ltac:(lia) Hb Hs). lia. }
  destruct (advance_region_total (drop (cur + 1) (ss_offsets S)) c cur) as [j Hj].
  { exists (ss_back S). split; [|done].
    apply list_elem_of_lookup. exists (length (ss_regions S) - (cur + 1))%nat.
    rewrite lookup_drop. rewrite <- Hb. f_equal. lia. }
  exists j. split; [done|].
  apply advance_region_inv in Hj as (Hle & (e & He & Hlt) & Hbelow).
  rewrite lookup_drop in He. replace (cur + 1 + (j - cur))%nat with (j + 1)%nat in He by lia.
  destruct (decide (j = cur)) as [->|Hne].
  - exists s, e. repeat split; try done; lia.
  - assert (is_Some (ss_offsets S !! j)) as [s' Hs'].
    { apply lookup_lt_is_Some. apply lookup_lt_Some in He. lia. }
    exists s', e. repeat split; try done.
    apply (Hbelow (j - cur - 1)%nat); [lia|].
    rewrite lookup_drop. rewrite <- Hs'. f_equal. lia.
Qed.

Lemma fetch_step_any_region cur c s :
  0 <= c -> ss_offsets S !! cur = Some s -> s <= c ->
  fetch_step S cur c = fetch_step S 0 c.
Proof.
  intros Hc Hs Hsc. unfold fetch_step.
  destruct (Z.ltb_spec c (ss_back S)); [|done].
  destruct (advance_region_at cur c s Hs Hsc) as (j & -> & Hj); [done|].
  destruct (advance_region_at 0 c 0 (so_first _ _ HS) Hc) as (j0 & -> & Hj0); [done|].
  by rewrite (region_at_unique c j j0).
Qed.

Lemma fetch_step_ok cur c s :
  0 <= c -> ss_offsets S !! cur = Some s -> s <= c ->
  thread_ok S (c + block_stride) (fetch_step S cur c).
Proof.
  intros Hc Hs Hsc. unfold fetch_step.
  destruct (Z.ltb_spec c (ss_back S)); [|cbn; unfold block_stride; lia].
  destruct (advance_region_at cur c s Hs Hsc) as (j & -> & Hj); [done|].
  destruct Hj as (s' & e & Hs' & He & Hrange).
  unfold block_limit. rewrite He, Hs'. cbn.
  assert (is_Some (ss_regions S !! j)) as [rgn ->].
  { apply lookup_lt_is_Some. apply lookup_lt_Some in He.
    rewrite (so_length _ _ HS) in He. lia. }
  destruct (Z.leb_spec c (wrap64 (e - ss_object_size S))); cbn.
  - unfold block_limit. rewrite He. cbn.
    repeat split; try lia; eauto; [|unfold block_stride; lia].
    exists s'. split; [done|lia].
  - exists s'. split; [done|]. unfold block_stride. lia.
Qed.

Lemma thread_ok_mono c c' ts : c <= c' -> thread_ok S c ts -> thread_ok S c' ts.
Proof.
  intros Hle. destruct ts; cbn; try done.
  - intros (s & ? & ?). exists s. split; [done|lia].
  - intros (? & ? & ? & ? & ?). repeat split; try done; lia.
  - lia.
Qed.


Lemma bind_insert_split {A B} (f : A -> list B) (l : list A) i x y e :
  l !! i = Some x -> f x ≡ₚ e ++ f y -> l ≫= f ≡ₚ e ++ (<[i:=y]> l ≫= f).
Proof.
  revert i. induction l as [|a l IH]; intros [|i] H Hf; try done; cbn in *.
  - injection H as ->. rewrite Hf. by rewrite (assoc_L (++)).
  - rewrite (IH i H Hf). rewrite !(assoc_L (++)).
    f_equiv; try done. apply Permutation_app_comm.
Qed.

Lemma bind_insert_merge {A B} (f : A -> list B) (l : list A) i x y e :
  l !! i = Some x -> f y ≡ₚ e ++ f x -> <[i:=y]> l ≫= f ≡ₚ e ++ (l ≫= f).
Proof.
  intros H Hf.
  rewrite (bind_insert_split f (<[i:=y]> l) i y x e); [|apply list_lookup_insert_eq; by apply lookup_lt_Some in H|done].
  by rewrite list_insert_insert_eq, list_insert_id.
Qed.

Lemma is_joined_fetch_step cur c :
  is_joined (fetch_step S cur c) = (ss_back S <=? c).
Proof.
  unfold fetch_step. destruct (Z.ltb_spec c (ss_back S)), (Z.leb_spec (ss_back S) c);
    try lia; [|done]. repeat case_match; done.
Qed.

Lemma thread_step_inv st i :
  scan_inv S num_threads st -> scan_inv S num_threads (thread_step S st i).
Proof.
  intros [Hc Hlen Hths Hperm]. unfold thread_step.
  destruct (threads st !! i) as [ts|] eqn:Hi; [|done].
  pose proof (Forall_lookup_1 _ _ _ _ Hths Hi) as Hts.
  pose proof (so_back _ _ HS) as Hback. pose proof (so_stride _ _ HS) as Hstride.
  destruct ts as [cur|cur offset owr addr z| |]; [| |done|done].
  - (* fetch_add *)
    destruct Hts as (s & Hs & Hsc).
    pose proof (joined_count_insert _ i _ Joined Hi eq_refl) as Hj1.
    pose proof (joined_count_le (<[i:=Joined]> (threads st))) as Hj2.
    rewrite length_insert, Hlen in Hj2. cbn in Hj1.
    pose proof (joined_count_insert _ i _ (fetch_step S cur (current_offset st)) Hi eq_refl) as Hj3.
    rewrite is_joined_fetch_step in Hj3.
    assert (wrap64 (current_offset st + block_stride) = current_offset st + block_stride) as Hw.
    { apply wrap64_small. unfold in_u64, block_stride in *. nia. }
    rewrite Hw. constructor; cbn [current_offset threads calls].
    + rewrite Hj3. unfold block_stride in *.
      destruct (Z.leb_spec (ss_back S) (current_offset st)); lia.
    + by rewrite length_insert.
    + apply Forall_insert.
      * eapply Forall_impl; [exact Hths|]. intros ts. apply thread_ok_mono.
        unfold block_stride; lia.
      * eapply fetch_step_ok; [lia|done..].
    + rewrite <- Hperm. f_equiv.
      rewrite (bind_insert_merge (pending S) _ i _ _
                 (pending S (fetch_step S cur (current_offset st))) Hi);
        [|cbn [pending]; by rewrite (right_id_L [] (++))].
      rewrite <- (assoc_L (++)). rewrite (Permutation_app_comm (pending S _)).
      rewrite <- (assoc_L (++)). f_equiv.
      unfold future. destruct (Z.ltb_spec (current_offset st) (ss_back S)).
      * rewrite (blocks_from_cons S (current_offset st)) by done. cbn.
        unfold block_calls at 2.
        rewrite (fetch_step_any_region cur (current_offset st) s) by (done || lia).
        apply Permutation_app_comm.
      * rewrite !blocks_from_nil by (unfold block_stride; lia). cbn.
        unfold fetch_step. destruct (Z.ltb_spec (current_offset st) (ss_back S)); [lia|done].
  - (* one turn of the inner loop *)
    destruct Hts as (Hoff & Hoffc & (s & Hs & Hso) & [lim Hlim] & Hz).
    unfold loop_step. rewrite Hlim.
    assert (0 < num_threads)%nat as Hnt.
    { apply lookup_lt_Some in Hi. lia. }
    assert (wrap64 (offset + z) = offset + z) as Hw1.
    { apply wrap64_small. unfold in_u64, block_stride in *. lia. }
    assert (wrap64 (z + ss_stride S) = z + ss_stride S) as Hw2.
    { apply wrap64_small. unfold in_u64, block_stride in *. lia. }
    rewrite Hw1, Hw2.
    assert (thread_ok S (current_offset st) (Fetching cur)) as Hfetch.
    { exists s. split; [done|]. unfold block_stride in *. lia. }
    destruct (Z.ltb_spec z block_stride) as [Hzb|Hzb];
      [destruct (Z.gtb_spec (offset + z) lim) as [Hgt|Hle]|].
    + constructor; cbn [current_offset threads calls]; [|by rewrite length_insert|by apply Forall_insert|].
      * rewrite (joined_count_insert _ i _ _ Hi eq_refl). cbn. lia.
      * rewrite <- Hperm. f_equiv. f_equiv.
        rewrite (bind_insert_merge (pending S) _ i _ _ [] Hi); [done|].
        cbn. rewrite Hlim. rewrite z_values_nil; [done|lia].
    + constructor; cbn [current_offset threads calls]; [|by rewrite length_insert| |].
      * rewrite (joined_count_insert _ i _ _ Hi eq_refl). cbn. lia.
      * apply Forall_insert; [done|]. cbn. rewrite Hlim.
        repeat split; eauto; unfold block_stride in *; lia.
      * rewrite <- Hperm. rewrite fmap_app. cbn.
        rewrite <- (assoc_L (++)). f_equiv. cbn.
        rewrite (bind_insert_split (pending S) (threads st) i _
                   (InBlock cur offset owr addr (z + ss_stride S))
                   [MappedPtr.offset_bytes addr z] Hi); [done|].
        cbn. rewrite Hlim. rewrite (z_values_cons _ z); [done|lia|].
        unfold block_stride in *. lia.
    + constructor; cbn [current_offset threads calls]; [|by rewrite length_insert|by apply Forall_insert|].
      * rewrite (joined_count_insert _ i _ _ Hi eq_refl). cbn. lia.
      * rewrite <- Hperm. f_equiv. f_equiv.
        rewrite (bind_insert_merge (pending S) _ i _ _ [] Hi); [done|].
        cbn. rewrite Hlim. rewrite z_values_nil; [done|].
        unfold block_stride in *. lia.
Qed.

Lemma run_threads_inv_from st sched :
  scan_inv S num_threads st ->
  scan_inv S num_threads (fold_left (thread_step S) sched st).
Proof.
  revert st. induction sched as [|i sched IH]; intros st H; cbn; [done|].
  apply IH. by apply thread_step_inv.
Qed.

Lemma ss_back_nonneg : 0 <= ss_back S.
Proof.
  apply (so_mono _ _ HS 0%nat (length (ss_regions S)) 0 (ss_back S));
    [lia|apply (so_first _ _ HS)|apply ss_back_lookup].
Qed.

Lemma bind_pending_nil ths :
  Forall (fun ts => pending S ts = []) ths -> ths ≫= pending S = [].
Proof. induction 1 as [|ts ths H _ IH]; cbn; [done|]. by rewrite H, IH. Qed.

Lemma scan_inv_init :
  scan_inv S num_threads (mkScan 0 (replicate num_threads (Fetching 0)) []).
Proof.
  pose proof ss_back_nonneg. constructor; cbn.
  - unfold block_stride. lia.
  - apply length_replicate.
  - apply Forall_replicate. exists 0. split; [apply (so_first _ _ HS)|lia].
  - rewrite bind_pending_nil; [done|]. by apply Forall_replicate.
Qed.

(** Whatever the schedule, a scan that returns has made the calls of
    every block, each once. *)
Lemma run_threads_calls sched :
  let st := run_threads S num_threads sched in
  ss_back S <= current_offset st ->
  forallb is_joined (threads st) = true ->
  (calls st).*1 ≡ₚ future S 0.
Proof.
  intros st Hc Hj.
  destruct (run_threads_inv_from _ sched scan_inv_init) as [_ _ _ Hperm].
  fold (run_threads S num_threads sched) in Hperm. fold st in Hperm.
  rewrite <- Hperm. unfold future at 1. rewrite blocks_from_nil by done. cbn.
  rewrite bind_pending_nil; [by rewrite !(right_id_L [] (++))|].
  rewrite forallb_forall in Hj. apply Forall_forall. intros ts Hin.
  apply list_elem_of_In, Hj in Hin. by destruct ts.
Qed.

End scan_steps.

(** ** The scanner: the vectors of the setup *)

Lemma sum_sizes_cons rgn l : sum_sizes (rgn :: l) = rgn.2 + sum_sizes l.
Proof. done. Qed.

Lemma sum_sizes_app l1 l2 : sum_sizes (l1 ++ l2) = sum_sizes l1 + sum_sizes l2.
Proof.
  induction l1 as [|x l1 IH]; [done|].
  rewrite <- app_comm_cons, !sum_sizes_cons, IH. lia.
Qed.

Lemma sum_sizes_nonneg l : Forall (fun rgn => 0 <= rgn.2) l -> 0 <= sum_sizes l.
Proof. induction 1; [done|]. rewrite sum_sizes_cons. lia. Qed.

Lemma sum_sizes_take_S l j rgn :
  l !! j = Some rgn -> sum_sizes (take (S j) l) = sum_sizes (take j l) + rgn.2.
Proof.
  intros H. rewrite (take_S_r _ _ _ H), sum_sizes_app, sum_sizes_cons.
  change (sum_sizes []) with 0. lia.
Qed.

Lemma sum_sizes_take_mono l i j :
  Forall (fun rgn => 0 <= rgn.2) l -> (i <= j)%nat ->
  sum_sizes (take i l) <= sum_sizes (take j l).
Proof.
  intros Hl. revert i j. induction Hl as [|x l Hx Hl IH]; intros i j Hij.
  - by rewrite !take_nil.
  - destruct i as [|i].
    + apply sum_sizes_nonneg. apply Forall_take. by constructor.
    + destruct j as [|j]; [lia|]. cbn [take]. rewrite !sum_sizes_cons.
      specialize (IH i j). lia.
Qed.

Lemma region_start_offsets_from_length back regs :
  length (region_start_offsets_from back regs) = length regs.
Proof. revert back. induction regs as [|x l IH]; intros back; cbn; [done|]. by rewrite IH. Qed.

Lemma region_start_offsets_from_lookup regs back i rgn :
  Forall (fun rgn => 0 <= rgn.2) regs -> 0 <= back ->
  back + sum_sizes regs < 2 ^ 64 -> regs !! i = Some rgn ->
  region_start_offsets_from back regs !! i
  = Some (back + sum_sizes (take (S i) regs)).
Proof.
  intros Hl. revert back i. induction Hl as [|x l Hx Hl IH]; intros back i Hb Hsum Hi; [done|].
  rewrite sum_sizes_cons in Hsum. pose proof (sum_sizes_nonneg l Hl).
  cbn [region_start_offsets_from]. cbv zeta.
  rewrite wrap64_small by (unfold in_u64; lia).
  destruct i as [|i]; cbn [lookup list_lookup take].
  - rewrite sum_sizes_cons, take_0. change (sum_sizes []) with 0. f_equal. lia.
  - cbn in Hi. erewrite IH; [|lia|lia|done].
    rewrite sum_sizes_cons. f_equal. lia.
Qed.

Lemma region_start_offsets_lookup regs i :
  Forall (fun rgn => 0 <= rgn.2) regs -> sum_sizes regs < 2 ^ 64 ->
  (i <= length regs)%nat ->
  region_start_offsets regs !! i = Some (sum_sizes (take i regs)).
Proof.
  intros Hl Hsum Hi. unfold region_start_offsets. destruct i as [|i]; [done|].
  rewrite lookup_cons.
  destruct (regs !! i) as [rgn|] eqn:E.
  - erewrite region_start_offsets_from_lookup; [f_equal; lia|done|lia|lia|done].
  - apply lookup_ge_None in E. lia.
Qed.

Lemma region_start_offsets_length regs :
  length (region_start_offsets regs) = S (length regs).
Proof. unfold region_start_offsets. cbn. by rewrite region_start_offsets_from_length. Qed.

Lemma elem_of_z_values stride z m x :
  0 < stride ->
  x ∈ z_values stride z m <-> z <= x <= m /\ (x - z) mod stride = 0.
Proof.
  intros Hs. unfold z_values. destruct (Z.leb_spec z m) as [Hzm|Hzm].
  - rewrite list_elem_of_fmap. setoid_rewrite elem_of_seq.
    assert (0 <= (m - z) / stride) as Hq by (apply Z.div_pos; lia).
    split.
    + intros (k & -> & _ & Hk).
      assert (Z.of_nat k <= (m - z) / stride) as Hk' by lia.
      pose proof (Z.mul_div_le (m - z) stride Hs).
      replace (z + Z.of_nat k * stride - z) with (Z.of_nat k * stride) by lia.
      rewrite Z_mod_mult. split; [nia|done].
    + intros (Hx & Hmod). exists (Z.to_nat ((x - z) / stride)).
      assert (0 <= (x - z) / stride) by (apply Z.div_pos; lia).
      assert ((x - z) / stride <= (m - z) / stride) by (apply Z.div_le_mono; lia).
      pose proof (Z_div_exact_full_2 (x - z) stride ltac:(lia) Hmod).
      split; [lia|]. lia.
  - rewrite elem_of_nil. lia.
Qed.

Lemma NoDup_z_values stride z m : 0 < stride -> NoDup (z_values stride z m).
Proof.
  intros Hs. unfold z_values. destruct (z <=? m); [|constructor].
  apply NoDup_fmap_2_strong; [|apply NoDup_seq].
  intros k1 k2 _ _ H. nia.
Qed.

Lemma pow2_divides_block s :
  0 < s <= block_stride -> Z.land s (s - 1) = 0 -> block_stride mod s = 0.
Proof.
  intros Hs Hland.
  assert (forallb (fun k => let s := Z.of_nat k in
                     implb (Z.land s (s - 1) =? 0) (block_stride mod s =? 0))
                  (seq 1 4096) = true) as H by (vm_compute; reflexivity).
  rewrite forallb_forall in H.
  assert (In (Z.to_nat s) (seq 1 4096)) as Hin.
  { apply in_seq. unfold block_stride in *. lia. }
  specialize (H (Z.to_nat s) Hin).
  cbv zeta in H. rewrite Z2Nat.id in H by lia.
  rewrite Hland in H. cbn [Z.eqb implb] in H. by apply Z.eqb_eq in H.
Qed.


Lemma wrap64_add_inj a z1 z2 :
  in_u64 z1 -> in_u64 z2 -> wrap64 (a + z1) = wrap64 (a + z2) -> z1 = z2.
Proof.
  unfold in_u64, wrap64. intros H1 H2 H.
  pose proof (Z.div_mod (a + z1) (2 ^ 64) ltac:(lia)) as E1.
  pose proof (Z.div_mod (a + z2) (2 ^ 64) ltac:(lia)) as E2.
  rewrite H in E1. lia.
Qed.

Lemma NoDup_pending_fetch S cur b :
  0 < ss_stride S -> NoDup (pending S (fetch_step S cur b)).
Proof.
  intros Hs. unfold fetch_step.
  repeat case_match; try apply NoDup_nil_2.
  cbn [pending]. case_match; [|apply NoDup_nil_2].
  apply NoDup_fmap_2_strong; [|by apply NoDup_z_values].
  intros x1 x2 [Hz1 _]%elem_of_z_values [Hz2 _]%elem_of_z_values; [|done..].
  apply wrap64_add_inj; unfold in_u64, block_stride in *; lia.
Qed.

Lemma regions_sorted_lookup vs i j v w :
  forallb view_ok vs = true -> regions_sorted vs = true -> (i < j)%nat ->
  vs !! i = Some v -> vs !! j = Some w -> v_addr v + v_size v <= v_addr w.
Proof.
  revert i j. induction vs as [|x l IH]; intros i j Hok Hs Hij Hv Hw; [done|].
  pose proof (regions_sorted_later x l Hok Hs) as Hlater.
  destruct j as [|j]; [lia|]. cbn in Hw. destruct i as [|i]; cbn in Hv.
  - injection Hv as ->. rewrite Forall_lookup in Hlater.
    by apply (Hlater j w) in Hw as [? _].
  - cbn [forallb] in Hok. apply andb_prop in Hok as [_ Hok].
    cbn [regions_sorted] in Hs. apply andb_prop in Hs as [_ Hs].
    apply (IH i j); [done|done|lia|done|done].
Qed.

Lemma view_index_unique r j1 j2 v1 v2 a :
  regions_wf r = true ->
  regions_by_mapped r !! j1 = Some v1 -> regions_by_mapped r !! j2 = Some v2 ->
  in_view v1 a -> in_view v2 a -> j1 = j2.
Proof.
  intros [Hok Hs]%regions_wf_spec H1 H2 Ha1 Ha2. unfold in_view in *.
  destruct (decide (j1 < j2)%nat).
  { pose proof (regions_sorted_lookup _ j1 j2 v1 v2 Hok Hs ltac:(done) H1 H2). lia. }
  destruct (decide (j2 < j1)%nat).
  { pose proof (regions_sorted_lookup _ j2 j1 v2 v1 Hok Hs ltac:(done) H2 H1). lia. }
  lia.
Qed.

Lemma removelast_lookup {A} (l : list A) j :
  (S j < length l)%nat -> removelast l !! j = l !! j.
Proof.
  intros H. rewrite removelast_firstn_len. apply lookup_take_lt. lia.
Qed.

Section scan_of_reader.
Context (r : MemoryReader) (stride object_size : Z) (num_threads : nat).
Context (Hwf : regions_wf r = true).
Context (Hstride : 0 < stride <= block_stride).
Context (Htotal : total_size r + block_stride * (Z.of_nat num_threads + 1) < 2 ^ 64).

Lemma all_regions_sizes_nonneg : Forall (fun rgn => 0 <= rgn.2) (all_regions r).
Proof.
  unfold all_regions. apply Forall_fmap, Forall_forall. intros v Hv. cbn.
  pose proof (view_ok_spec v (regions_wf_view_ok r v Hwf Hv)). lia.
Qed.

Lemma all_regions_lookup j v :
  regions_by_mapped r !! j = Some v ->
  all_regions r !! j = Some (v_addr v, v_size v).
Proof. intros H. unfold all_regions. by rewrite list_lookup_fmap, H. Qed.

Lemma all_regions_length : length (all_regions r) = length (regions_by_mapped r).
Proof. unfold all_regions. apply length_map. Qed.

Lemma total_size_bound : 0 <= total_size r < 2 ^ 64.
Proof.
  pose proof (sum_sizes_nonneg _ all_regions_sizes_nonneg).
  unfold total_size, block_stride in *. lia.
Qed.

Lemma setup_of_offsets_lookup i :
  (i <= length (regions_by_mapped r))%nat ->
  ss_offsets (setup_of r stride object_size) !! i
  = Some (sum_sizes (take i (all_regions r))).
Proof.
  intros Hi. cbn. apply region_start_offsets_lookup.
  - apply all_regions_sizes_nonneg.
  - apply total_size_bound.
  - by rewrite all_regions_length.
Qed.

Lemma setup_of_offsets_inv i a :
  ss_offsets (setup_of r stride object_size) !! i = Some a ->
  (i <= length (regions_by_mapped r))%nat
  /\ a = sum_sizes (take i (all_regions r)).
Proof.
  intros H. pose proof (lookup_lt_Some _ _ _ H) as Hlt.
  unfold setup_of in Hlt. cbn [ss_offsets] in Hlt.
  rewrite region_start_offsets_length, all_regions_length in Hlt.
  split; [lia|]. rewrite setup_of_offsets_lookup in H by lia. congruence.
Qed.

Lemma setup_of_back : ss_back (setup_of r stride object_size) = total_size r.
Proof.
  unfold ss_back. rewrite last_lookup. unfold setup_of. cbn [ss_offsets].
  rewrite region_start_offsets_length. cbn [Nat.pred].
  pose proof (setup_of_offsets_lookup (length (all_regions r))) as H.
  unfold setup_of in H. cbn [ss_offsets] in H. rewrite H by (rewrite all_regions_length; lia).
  cbn. by rewrite firstn_all.
Qed.

Lemma setup_of_ok : setup_ok (setup_of r stride object_size) num_threads.
Proof.
  constructor.
  - done.
  - done.
  - cbn. apply region_start_offsets_length.
  - intros i j a b Hij Ha Hb.
    apply setup_of_offsets_inv in Ha as [_ ->].
    apply setup_of_offsets_inv in Hb as [_ ->].
    apply sum_sizes_take_mono; [apply all_regions_sizes_nonneg|done].
  - by rewrite setup_of_back.
Qed.


Local Abbreviation psum j := (sum_sizes (take j (all_regions r))).
Local Abbreviation S0 := (setup_of r stride object_size).

Lemma psum_S j v :
  regions_by_mapped r !! j = Some v -> psum (S j) = psum j + v_size v.
Proof. intros H. by rewrite (sum_sizes_take_S _ _ _ (all_regions_lookup j v H)). Qed.

Lemma psum_nonneg j : 0 <= psum j.
Proof. apply sum_sizes_nonneg, Forall_take, all_regions_sizes_nonneg. Qed.

Lemma psum_le_total j : psum j <= total_size r.
Proof.
  unfold total_size. rewrite <- (take_drop j (all_regions r)) at 2.
  rewrite sum_sizes_app.
  pose proof (sum_sizes_nonneg (drop j (all_regions r))
                (Forall_drop _ _ _ all_regions_sizes_nonneg)). lia.
Qed.

Lemma region_at_view b j :
  region_at S0 b j
  <-> exists v, regions_by_mapped r !! j = Some v
                /\ psum j <= b < psum j + v_size v.
Proof.
  unfold region_at. split.
  - intros (s & e & Hs & He & Hb).
    apply setup_of_offsets_inv in Hs as [_ ->].
    apply setup_of_offsets_inv in He as [Hj ->].
    destruct (regions_by_mapped r !! j) as [v|] eqn:Hv.
    + exists v. split; [done|]. rewrite Nat.add_1_r, (psum_S j v Hv) in Hb. done.
    + apply lookup_ge_None in Hv. lia.
  - intros (v & Hv & Hb). pose proof (lookup_lt_Some _ _ _ Hv).
    exists (psum j), (psum j + v_size v). split; [|split; [|done]].
    + apply setup_of_offsets_lookup. lia.
    + rewrite setup_of_offsets_lookup by lia.
      by rewrite Nat.add_1_r, (psum_S j v Hv).
Qed.

Context (Hosz : 1 <= object_size).
Context (Hfirst : forall v, head (regions_by_mapped r) = Some v ->
                            object_size <= v_size v).

Lemma object_size_le_end j v :
  regions_by_mapped r !! j = Some v -> object_size <= psum j + v_size v.
Proof.
  intros Hv. destruct j as [|j].
  - rewrite <- head_lookup in Hv. specialize (Hfirst v Hv).
    rewrite take_0. change (sum_sizes []) with 0. lia.
  - destruct (regions_by_mapped r !! 0%nat) as [v0|] eqn:Hv0.
    2:{ apply lookup_ge_None in Hv0. apply lookup_lt_Some in Hv. lia. }
    pose proof (psum_S 0 v0 Hv0) as H1. rewrite take_0 in H1.
    change (sum_sizes []) with 0 in H1.
    rewrite <- head_lookup in Hv0. specialize (Hfirst v0 Hv0).
    pose proof (sum_sizes_take_mono (all_regions r) 1 (S j)
                  all_regions_sizes_nonneg ltac:(lia)).
    pose proof (view_ok_spec v (regions_wf_view_ok r v Hwf
                  (list_elem_of_lookup_2 _ _ _ Hv))). lia.
Qed.

(** The calls of the block at global offset [b]. *)
Lemma block_calls_spec b a :
  0 <= b ->
  a ∈ block_calls S0 b
  <-> exists j v z, regions_by_mapped r !! j = Some v
        /\ psum j <= b < psum j + v_size v
        /\ 0 <= z <= block_stride - 1
        /\ b + z <= psum j + v_size v - object_size
        /\ z mod stride = 0
        /\ a = v_addr v + (b - psum j) + z.
Proof.
  intros Hb. pose proof setup_of_ok as HS. pose proof total_size_bound as Htot.
  unfold block_calls, fetch_step. rewrite setup_of_back.
  destruct (Z.ltb_spec b (total_size r)) as [Hlt|Hge].
  2:{ cbn [pending]. rewrite elem_of_nil. split; [done|].
      intros (j & v & z & Hv & Hrange & _).
      pose proof (psum_le_total (S j)) as Hle. rewrite (psum_S j v Hv) in Hle. lia. }
  destruct (advance_region_at S0 num_threads HS 0 b 0) as (j & -> & Hj);
    [done|lia|by rewrite setup_of_back|].
  pose proof Hj as Hj'. apply region_at_view in Hj' as (v & Hv & Hrange).
  pose proof (lookup_lt_Some _ _ _ Hv) as Hjn.
  pose proof (view_ok_spec v (regions_wf_view_ok r v Hwf
                (list_elem_of_lookup_2 _ _ _ Hv))) as Hvok.
  pose proof (object_size_le_end j v Hv) as Hoe.
  pose proof (psum_nonneg j) as Hp0.
  pose proof (psum_le_total (S j)) as Hpt. rewrite (psum_S j v Hv) in Hpt.
  assert (block_limit S0 j = Some (psum j + v_size v - object_size)) as Hlim.
  { unfold block_limit. rewrite setup_of_offsets_lookup by lia.
    cbn. rewrite Nat.add_1_r, (psum_S j v Hv).
    f_equal. apply wrap64_small. unfold in_u64. lia. }
  rewrite Hlim, setup_of_offsets_lookup by lia.
  change (ss_regions S0) with (all_regions r). rewrite (all_regions_lookup j v Hv).
  cbn [fst].
  assert (forall j' v', regions_by_mapped r !! j' = Some v' ->
            psum j' <= b < psum j' + v_size v' -> j' = j /\ v' = v) as Huniq.
  { intros j' v' Hv' Hr'.
    assert (j' = j) as ->.
    { apply (region_at_unique S0 num_threads HS b); [|done].
      apply region_at_view. eauto. }
    split; [done|congruence]. }
  destruct (Z.leb_spec b (psum j + v_size v - object_size)) as [Hble|Hbgt].
  2:{ cbn [pending]. rewrite elem_of_nil. split; [done|].
      intros (j' & v' & z & Hv' & Hr' & Hz & Hend & _).
      destruct (Huniq j' v' Hv' Hr') as [-> ->]. lia. }
  cbn [pending]. rewrite Hlim. rewrite list_elem_of_fmap.
  change (ss_stride S0) with stride.
  setoid_rewrite elem_of_z_values; [|lia].
  unfold MappedPtr.offset_bytes.
  rewrite (wrap64_small (b - psum j)) by (unfold in_u64; lia).
  rewrite (wrap64_small (v_addr v + (b - psum j))) by (unfold in_u64; lia).
  split.
  - intros (z & -> & Hz & Hmod). rewrite Z.sub_0_r in Hmod.
    exists j, v, z.
    rewrite wrap64_small by (unfold in_u64; lia).
    repeat split; try done; lia.
  - intros (j' & v' & z & Hv' & Hr' & Hz & Hend & Hmod & ->).
    destruct (Huniq j' v' Hv' Hr') as [-> ->].
    exists z. rewrite wrap64_small by (unfold in_u64; lia).
    split; [done|]. rewrite Z.sub_0_r. split; [lia|done].
Qed.


Lemma future_NoDup : NoDup (future S0 0).
Proof.
  pose proof total_size_bound as Htot.
  unfold future. apply NoDup_bind.
  - intros b1 b2 a Hb1 Hb2 Ha1 Ha2. unfold blocks_from in Hb1, Hb2.
    apply elem_of_z_values in Hb1 as [Hb1 Hm1]; [|done].
    apply elem_of_z_values in Hb2 as [Hb2 Hm2]; [|done].
    rewrite Z.sub_0_r in Hm1, Hm2.
    apply block_calls_spec in Ha1 as (j1 & v1 & z1 & Hv1 & Hr1 & Hz1 & He1 & _ & Ea1); [|lia].
    apply block_calls_spec in Ha2 as (j2 & v2 & z2 & Hv2 & Hr2 & Hz2 & He2 & _ & Ea2); [|lia].
    assert (j1 = j2) as ->.
    { apply (view_index_unique r j1 j2 v1 v2 a Hwf Hv1 Hv2); unfold in_view; lia. }
    assert (v1 = v2) as -> by congruence.
    pose proof (Z_div_exact_full_2 b1 block_stride ltac:(done) Hm1).
    pose proof (Z_div_exact_full_2 b2 block_stride ltac:(done) Hm2).
    unfold block_stride in *. lia.
  - intros b _. apply NoDup_pending_fetch. cbn. lia.
  - by apply NoDup_z_values.
Qed.

Context (Htile : block_tiled r = true).
Context (Hdiv : block_stride mod stride = 0).

Lemma psum_tiled j :
  (j < length (regions_by_mapped r))%nat -> psum j mod block_stride = 0.
Proof.
  induction j as [|j IH]; intros Hj; [done|].
  destruct (regions_by_mapped r !! j) as [v|] eqn:Hv.
  2:{ apply lookup_ge_None in Hv. lia. }
  rewrite (psum_S j v Hv).
  assert (In v (removelast (regions_by_mapped r))) as Hin.
  { apply list_elem_of_In, (list_elem_of_lookup_2 _ j). by rewrite removelast_lookup. }
  pose proof Htile as Ht. unfold block_tiled in Ht. rewrite forallb_forall in Ht.
  apply Ht, Z.eqb_eq in Hin.
  rewrite Z.add_mod, IH, Hin by (done || lia). done.
Qed.

Lemma mod_stride_of_block x : x mod block_stride = 0 -> x mod stride = 0.
Proof.
  intros H.
  pose proof (Z_div_exact_full_2 x block_stride ltac:(done) H) as Ex.
  pose proof (Z_div_exact_full_2 block_stride stride ltac:(lia) Hdiv) as Eb.
  rewrite Ex, Eb. rewrite <- Z.mul_assoc, Z.mul_comm. apply Z_mod_mult.
Qed.

Lemma future_covered a :
  a ∈ future S0 0 <-> covered r stride object_size a.
Proof.
  pose proof total_size_bound as Htot.
  unfold future, covered. rewrite list_elem_of_bind. split.
  - intros (b & Ha & Hb). unfold blocks_from in Hb. rewrite setup_of_back in Hb.
    apply elem_of_z_values in Hb as [Hb Hm]; [|done]. rewrite Z.sub_0_r in Hm.
    apply block_calls_spec in Ha as (j & v & z & Hv & Hr & Hz & He & Hzm & ->); [|lia].
    exists v, (b - psum j + z). split; [by eapply list_elem_of_lookup_2|].
    split; [lia|]. split; [|lia].
    pose proof (psum_tiled j (lookup_lt_Some _ _ _ Hv)) as Hpj.
    rewrite Z.add_mod, Hzm, Z.add_0_r, Z.mod_mod by lia.
    apply mod_stride_of_block. by rewrite Zminus_mod, Hm, Hpj.
  - intros (v & o & Hin & Ho & Hom & ->).
    apply list_elem_of_lookup in Hin as [j Hv].
    pose proof (psum_tiled j (lookup_lt_Some _ _ _ Hv)) as Hpj.
    pose proof (psum_nonneg j) as Hp0.
    pose proof (psum_le_total (S j)) as Hpt. rewrite (psum_S j v Hv) in Hpt.
    pose proof (Z.div_mod o block_stride ltac:(done)) as Eo.
    pose proof (Z.mod_pos_bound o block_stride ltac:(done)) as Hob.
    assert (0 <= o / block_stride) as Hq by (apply Z.div_pos; unfold block_stride; lia).
    exists (psum j + block_stride * (o / block_stride)). split.
    + apply block_calls_spec; [unfold block_stride in *; lia|].
      exists j, v, (o mod block_stride).
      repeat split; try done; try (unfold block_stride in *; lia).
      rewrite Z.mod_mod_divide; [done|]. apply Z.mod_divide; [lia|done].
    + unfold blocks_from. rewrite setup_of_back. apply elem_of_z_values; [done|].
      rewrite Z.sub_0_r, Z.add_mod, Hpj, Z.mul_comm, Z_mod_mult by done.
      split; [|done]. unfold block_stride in *. lia.
Qed.

End scan_of_reader.

(** ** The scanner: every thread returns *)


Section scan_termination.
Context (S : scan_setup) (num_threads : nat) (HS : setup_ok S num_threads).








End scan_termination.

(** ** The scanner: coverage *)

Lemma region_readers_ok r :
  regions_wf r = true -> regions_nonempty r = true ->
  is_ok (region_readers r (all_regions r)) = true.
Proof.
  intros Hwf Hne. unfold all_regions.
  assert (forall l, Forall (fun v => v ∈ regions_by_mapped r) l ->
            is_ok (region_readers r (map (fun v => (v_addr v, v_size v)) l)) = true) as H.
  { induction 1 as [|v l Hv _ IH]; [done|]. cbn [map region_readers fst snd].
    pose proof (view_ok_spec v (regions_wf_view_ok r v Hwf Hv)) as Hvok.
    unfold regions_nonempty in Hne. rewrite forallb_forall in Hne.
    pose proof (Hne v (proj1 (list_elem_of_In _ _) Hv)) as Hpos. apply Z.ltb_lt in Hpos.
    assert (is_ok (read r (v_addr v) (v_size v)) = true) as Hr.
    { apply read_ok_iff; [done|unfold in_u64; lia|].
      exists v. unfold in_view. repeat split; try done; lia. }
    destruct (read r (v_addr v) (v_size v)); [|done]. cbn [bind_result].
    destruct (region_readers r _); done. }
  apply H. by apply Forall_forall.
Qed.




(** ** The catalog: find_base_type_object *)

Lemma base_type_fold D addrs s c0 :
  fold_left (base_type_callback D) addrs (s, c0)
  = (mkSession (env s) (saves s)
       (stderr s ++ map (fun a => "Base type candidate found at " +:+ format_addr a)
                        (candidates_of D addrs)),
     c0 ++ candidates_of D addrs).
Proof.
  revert s c0. induction addrs as [|a addrs IH]; intros s c0.
  - cbn. destruct s. cbn. by rewrite !(right_id_L [] (++)).
  - cbn [fold_left]. unfold base_type_callback at 2. unfold candidates_of.
    rewrite filter_cons. destruct (base_type_candidate D a) eqn:Ha.
    + rewrite decide_True by done. rewrite IH. cbn. unfold candidates_of.
      by rewrite <- !(assoc_L (++)).
    + rewrite decide_False by done. apply IH.
Qed.

Lemma singleton_of_NoDup {A} (l : list A) (a : A) :
  NoDup l -> a ∈ l -> (forall x, x ∈ l -> x = a) -> l = [a].
Proof.
  intros Hnd Hin Hall. destruct l as [|x l]; [by apply elem_of_nil in Hin|].
  assert (x = a) as -> by (apply Hall; left).
  destruct l as [|y l]; [done|].
  assert (y = a) as -> by (apply Hall; right; left).
  apply NoDup_cons in Hnd as [Hnin _]. exfalso. apply Hnin. left.
Qed.


Lemma exactly_one_candidate_unique D addrs A B :
  exactly_one_candidate D addrs A -> exactly_one_candidate D addrs B -> A = B.
Proof. intros (HA & HcA & _) (_ & _ & HB). by apply HB. Qed.



(** ** The catalog: find_all_type_objects *)

Lemma is_type_object_spec D base a :
  is_type_object D base a = true
  <-> ob_type (decode_type D a) = base /\ ty_invalid_reason (decode_type D a) = None.
Proof.
  unfold is_type_object. cbv zeta.
  destruct (Z.eqb_spec (ob_type (decode_type D a)) base),
    (ty_invalid_reason (decode_type D a)) as [reason|]; cbn;
    try rewrite bool_decide_eq_true_2 by eauto;
    try rewrite bool_decide_eq_false_2 by (by intros [? [=]]);
    cbn; intuition congruence.
Qed.

Lemma base_type_candidate_spec D a :
  base_type_candidate D a = true
  <-> ob_type (decode_type D a) = a /\ ty_invalid_reason (decode_type D a) = None
      /\ ty_name (decode_type D a) = "type"%string.
Proof.
  unfold base_type_candidate. cbv zeta.
  destruct (Z.eqb_spec (ob_type (decode_type D a)) a),
    (ty_invalid_reason (decode_type D a)) as [reason|],
    (String.eqb_spec (ty_name (decode_type D a)) "type"); cbn;
    try rewrite bool_decide_eq_true_2 by eauto;
    try rewrite bool_decide_eq_false_2 by (by intros [? [=]]);
    cbn; intuition congruence.
Qed.

Lemma emplace_lookup k a m k' :
  emplace k a m !! k' = match m !! k' with
                        | Some b => Some b
                        | None => if decide (k = k') then Some a else None
                        end.
Proof.
  unfold emplace. destruct (m !! k) as [b|] eqn:Hk.
  - destruct (m !! k') eqn:Hk'; [done|]. case_decide; [congruence|done].
  - rewrite lookup_insert. case_decide as Hd.
    + subst. by rewrite Hk.
    + by destruct (m !! k').
Qed.

(** The fold of the scan's calls only inserts objects that passed the test. *)
Lemma type_fold_values D base (P : Z -> Prop) addrs st :
  (forall a, is_type_object D base a = true -> P a) ->
  (forall k a, st.1.1 !! k = Some a -> P a) ->
  forall k a, (fold_left (type_callback D base) addrs st).1.1 !! k = Some a -> P a.
Proof.
  intros HP. revert st. induction addrs as [|x addrs IH]; intros st Hst; [done|].
  cbn [fold_left]. apply IH. clear IH.
  unfold type_callback. destruct (is_type_object D base x) eqn:Hx; [|done].
  destruct st as [[types lines] changed]. cbn [fst] in Hst. unfold insert_type.
  destruct (types !! ty_name (decode_type D x)) as [existing|] eqn:Hn.
  - destruct (negb (existing =? x)); [|done]. cbn [fst].
    intros k a. rewrite emplace_lookup.
    destruct (types !! k) eqn:Hk; [intros [= <-]; by eapply Hst|].
    case_decide; [|done]. intros [= <-]. by apply HP.
  - cbn [fst]. intros k a. rewrite lookup_insert. case_decide.
    + intros [= <-]. by apply HP.
    + apply Hst.
Qed.

(** C8.  Starting without a base type, after [find_base_type_object] and
    then [find_all_type_objects] have returned, every address stored in
    [type_objects] has [ob_type] equal to [base_type_object], and so has
    [base_type_object] itself. *)
Theorem catalog_types_have_base_type D hw s max_threads sched1 sched2 s1 s2 :
  base_type_object (env s) = 0 ->
  find_base_type_object D hw s max_threads sched1 = Some (Ok s1) ->
  find_all_type_objects D hw s1 max_threads sched2 = Some (Ok s2) ->
  (forall k a, type_objects (env s2) !! k = Some a ->
     ob_type (decode_type D a) = base_type_object (env s2))
  /\ ob_type (decode_type D (base_type_object (env s2))) = base_type_object (env s2).
Proof.
  intros Hnull H1 H2.
  assert (base_type_object (env s2) = base_type_object (env s1)
          /\ forall k a, type_objects (env s2) !! k = Some a ->
               ob_type (decode_type D a) = base_type_object (env s1)) as [Hbase Htypes].
  { unfold find_all_type_objects in H2.
    destruct (MappedPtr.is_null _); [done|].
    destruct (map_all_addresses _ _ _ _ _ _) as [[calls|]|]; [|done..].
    pose proof (type_fold_values D (base_type_object (env s1))
                  (fun a => ob_type (decode_type D a) = base_type_object (env s1))
                  calls.*1 (∅, [], false)) as Hfold.
    destruct (fold_left _ _ _) as [[types lines] changed].
    assert (forall k a, types !! k = Some a ->
              ob_type (decode_type D a) = base_type_object (env s1)) as Hall.
    { apply Hfold.
      - by intros a [? _]%is_type_object_spec.
      - intros k a. cbn. by rewrite lookup_empty. }
    injection H2 as <-. by destruct changed. }
  split; [intros k a Hk; rewrite Hbase; by eapply Htypes|].
  rewrite Hbase.
  assert (base_type_object (env s1) <> 0) as Hnz.
  { unfold find_all_type_objects, MappedPtr.is_null in H2.
    destruct (Z.eqb_spec (base_type_object (env s1)) 0); [done|done]. }
  unfold find_base_type_object in H1.
  destruct (map_all_addresses _ _ _ _ _ _) as [[calls|]|]; [|done..].
  rewrite base_type_fold in H1. cbn [app] in H1.
  destruct (candidates_of D calls.*1) as [|c [|c' cs]] eqn:Hc;
    injection H1 as <-; cbn in *; try done.
  assert (c ∈ candidates_of D calls.*1) as Hin by (rewrite Hc; left).
  apply list_elem_of_filter in Hin as [Hcand _].
  by apply base_type_candidate_spec in Hcand as [? _].
Qed.

Lemma catalog_types_have_base_type_witness :
  exists s1 s2,
    find_base_type_object decoder_sample 1 session_sample 1 (replicate 1200 0%nat)
    = Some (Ok s1)
    /\ find_all_type_objects decoder_sample 1 s1 1 (replicate 1200 0%nat) = Some (Ok s2)
    /\ (forall k a, type_objects (env s2) !! k = Some a ->
          ob_type (decode_type decoder_sample a) = base_type_object (env s2))
    /\ ob_type (decode_type decoder_sample (base_type_object (env s2)))
       = base_type_object (env s2).
Proof.
  assert (exists s1, find_base_type_object decoder_sample 1 session_sample 1
                       (replicate 1200 0%nat) = Some (Ok s1)
                     /\ exists s2, find_all_type_objects decoder_sample 1 s1 1
                                     (replicate 1200 0%nat) = Some (Ok s2))
    as (s1 & H1 & s2 & H2).
  { eexists. split; [vm_compute; reflexivity|]. eexists. vm_compute. reflexivity. }
  exists s1, s2. split; [exact H1|]. split; [exact H2|].
  exact (catalog_types_have_base_type decoder_sample 1 session_sample 1 _ _ s1 s2
           eq_refl H1 H2).
Defined.

(** ** Address formatting *)

Lemma hex_digits_length n x : length (hex_digits n x) = n.
Proof.
  revert x. induction n as [|n IH]; intros x; [done|].
  cbn [hex_digits]. rewrite length_app, IH. cbn. lia.
Qed.

Lemma hex_digit_inj d1 d2 :
  0 <= d1 < 16 -> 0 <= d2 < 16 -> hex_digit d1 = hex_digit d2 -> d1 = d2.
Proof.
  intros H1 H2 H.
  assert (forallb (fun i => forallb (fun j =>
            implb (bool_decide (hex_digit (Z.of_nat i) = hex_digit (Z.of_nat j)))
                  (i =? j)%nat) (seq 0 16)) (seq 0 16) = true) as Hall
    by (vm_compute; reflexivity).
  rewrite forallb_forall in Hall.
  specialize (Hall (Z.to_nat d1) ltac:(apply in_seq; lia)).
  rewrite forallb_forall in Hall.
  specialize (Hall (Z.to_nat d2) ltac:(apply in_seq; lia)).
  rewrite !Z2Nat.id in Hall by lia.
  rewrite bool_decide_eq_true_2 in Hall by done. cbn [implb] in Hall.
  apply Nat.eqb_eq in Hall. lia.
Qed.

Lemma hex_digits_inj n x y :
  hex_digits n x = hex_digits n y -> x mod 16 ^ Z.of_nat n = y mod 16 ^ Z.of_nat n.
Proof.
  revert x y. induction n as [|n IH]; intros x y H.
  - cbn. by rewrite !Z.mod_1_r.
  - cbn [hex_digits] in H. apply app_inj_2 in H as [Hhi Hlo]; [|done].
    injection Hlo as Hlo. apply hex_digit_inj in Hlo;
      [|apply Z.mod_pos_bound; lia..].
    apply IH in Hhi.
    rewrite Nat2Z.inj_succ, Z.pow_succ_r by lia.
    rewrite !(Z.rem_mul_r _ 16) by lia. lia.
Qed.

Lemma format_addr_inj a b :
  in_u64 a -> in_u64 b -> format_addr a = format_addr b -> a = b.
Proof.
  unfold in_u64, format_addr. intros Ha Hb H.
  apply (f_equal list_ascii_of_string) in H.
  rewrite !list_ascii_of_string_of_list_ascii in H.
  apply hex_digits_inj in H. change (16 ^ Z.of_nat 16) with (2 ^ 64) in H.
  rewrite !Z.mod_small in H by lia. done.
Qed.

Lemma list_ascii_of_string_app s1 s2 :
  list_ascii_of_string (s1 +:+ s2)
  = list_ascii_of_string s1 ++ list_ascii_of_string s2.
Proof.
  induction s1 as [|c s1 IH]; [done|].
  change (list_ascii_of_string (String c s1 +:+ s2))
    with (c :: list_ascii_of_string (s1 +:+ s2)).
  by rewrite IH.
Qed.

Lemma alternate_key_inj n1 a1 n2 a2 :
  in_u64 a1 -> in_u64 a2 ->
  alternate_key n1 a1 = alternate_key n2 a2 -> n1 = n2 /\ a1 = a2.
Proof.
  intros H1 H2 H. unfold alternate_key in H.
  apply (f_equal list_ascii_of_string) in H.
  rewrite !list_ascii_of_string_app in H.
  apply app_inj_2 in H as [Hn Hrest].
  2:{ rewrite !length_app. unfold format_addr.
      rewrite !list_ascii_of_string_of_list_ascii, !hex_digits_length. done. }
  apply app_inj_2 in Hrest as [_ Hfmt].
  2:{ unfold format_addr.
      rewrite !list_ascii_of_string_of_list_ascii, !hex_digits_length. done. }
  split.
  - rewrite <- (string_of_list_ascii_of_string n1), <- (string_of_list_ascii_of_string n2).
    by rewrite Hn.
  - apply format_addr_inj; [done..|].
    rewrite <- (string_of_list_ascii_of_string (format_addr a1)),
            <- (string_of_list_ascii_of_string (format_addr a2)).
    by rewrite Hfmt.
Qed.

(** ** The catalog: name collisions and the order of discovery *)

Lemma elem_of_snoc {A} (l : list A) (x a : A) : a ∈ l ++ [x] <-> a ∈ l \/ a = x.
Proof. by rewrite elem_of_app, list_elem_of_singleton. Qed.

Lemma type_fold_hits D base addrs st :
  fold_left (type_callback D base) addrs st
  = fold_left (insert_type D) (type_hits D base addrs) st.
Proof.
  revert st. induction addrs as [|a addrs IH]; intros st; [done|].
  cbn [fold_left]. unfold type_hits. rewrite filter_cons.
  unfold type_callback at 2. destruct (is_type_object D base a) eqn:Ha.
  - rewrite decide_True by done. cbn [fold_left]. apply IH.
  - rewrite decide_False by done. apply IH.
Qed.

Lemma insert_type_lookup D m lines changed x k :
  (insert_type D (m, lines, changed) x).1.1 !! k
  = match m !! k with
    | Some v => Some v
    | None =>
        match m !! type_name_of D x with
        | None => if decide (type_name_of D x = k) then Some x else None
        | Some e =>
            if decide (e <> x /\ alternate_key (type_name_of D x) x = k)
            then Some x else None
        end
    end.
Proof.
  unfold insert_type, type_name_of.
  destruct (m !! ty_name (decode_type D x)) as [e|] eqn:Hn.
  - destruct (Z.eqb_spec e x) as [->|Hne]; cbn [negb fst].
    + destruct (m !! k); [done|]. rewrite decide_False; [done|]. by intros [? _].
    + rewrite emplace_lookup. destruct (m !! k); [done|].
      destruct (decide (alternate_key _ x = k)).
      * by rewrite decide_True.
      * rewrite decide_False; [done|]. by intros [_ ?].
  - cbn [fst]. rewrite lookup_insert. case_decide as Hd.
    + subst k. by rewrite Hn.
    + by destruct (m !! k).
Qed.

Section type_fold.
Context (D : TypeDecoder) (U : Z -> Prop).
Context (HU : forall a, U a -> in_u64 a).
Context (Hclash : forall a b, U a -> U b ->
           type_name_of D a <> alternate_key (type_name_of D b) b).

Lemma types_inv_step hs m lines changed x :
  Forall U hs -> U x -> types_inv D hs m ->
  types_inv D (hs ++ [x]) (insert_type D (m, lines, changed) x).1.1.
Proof.
  intros Hhs Hx [Hent Hret Hfirst].
  assert (forall k v, m !! k = Some v ->
            (insert_type D (m, lines, changed) x).1.1 !! k = Some v) as Hmono.
  { intros k v Hk. by rewrite insert_type_lookup, Hk. }
  (* the entry at an alternate key of [x] can only be [x] *)
  assert (forall v, m !! alternate_key (type_name_of D x) x = Some v -> v = x) as Halt.
  { intros v Hv. destruct (Hent _ _ Hv) as [Hin [Hk|Hk]].
    - exfalso. rewrite Forall_forall in Hhs.
      eapply (Hclash v x); [by apply Hhs|done|done].
    - rewrite Forall_forall in Hhs.
      apply alternate_key_inj in Hk as [_ ?]; [done|apply HU..]; [done|by apply Hhs]. }
  constructor.
  - intros k v. rewrite insert_type_lookup.
    destruct (m !! k) as [w|] eqn:Hk.
    + intros [= <-]. destruct (Hent _ _ Hk) as [? ?]. split; [apply elem_of_snoc; by left|done].
    + destruct (m !! type_name_of D x) as [e|]; case_decide as Hd; try done.
      * intros [= <-]. destruct Hd as [_ <-]. split; [apply elem_of_snoc; by right|by right].
      * intros [= <-]. subst k. split; [apply elem_of_snoc; by right|by left].
  - intros a [Ha| ->]%elem_of_snoc.
    + destruct (Hret a Ha) as [H1|(H1 & a' & H2 & Hne)].
      * left. by apply Hmono.
      * right. split; [by apply Hmono|]. exists a'. split; [by apply Hmono|done].
    + unfold retained. rewrite !insert_type_lookup.
      destruct (m !! type_name_of D x) as [e|] eqn:Hn.
      * destruct (decide (e = x)) as [->|Hne]; [by left|]. right. split.
        -- destruct (m !! alternate_key (type_name_of D x) x) as [v|] eqn:Hv.
           ++ by rewrite (Halt v).
           ++ by rewrite decide_True.
        -- by exists e.
      * left. by rewrite decide_True.
  - intros l1 a l2 Hsplit Hl1.
    destruct l2 as [|y l2 _] using rev_ind.
    + apply app_inj_tail in Hsplit as [<- <-].
      rewrite insert_type_lookup.
      destruct (m !! type_name_of D x) as [e|] eqn:Hn.
      * destruct (Hent _ _ Hn) as [Hin [Hk|Hk]].
        -- destruct (decide (e = x)) as [->|Hne]; [done|].
           exfalso. by apply (Hl1 e).
        -- exfalso. rewrite Forall_forall in Hhs.
           eapply (Hclash x e); [done|by apply Hhs|done].
      * by rewrite decide_True.
    + rewrite app_comm_cons, (assoc_L (++)) in Hsplit.
      apply app_inj_tail in Hsplit as [-> <-].
      apply Hmono. by apply (Hfirst l1 a l2).
Qed.

Lemma types_inv_fold hs0 m0 lines0 changed0 hs :
  Forall U hs0 -> Forall U hs -> types_inv D hs0 m0 ->
  types_inv D (hs0 ++ hs) (fold_left (insert_type D) hs (m0, lines0, changed0)).1.1.
Proof.
  revert hs0 m0 lines0 changed0.
  induction hs as [|x hs IH]; intros hs0 m0 lines0 changed0 H0 Hhs Hinv.
  - by rewrite (right_id_L [] (++)).
  - apply Forall_cons in Hhs as [Hx Hhs]. cbn [fold_left].
    pose proof (types_inv_step hs0 m0 lines0 changed0 x H0 Hx Hinv) as Hstep.
    destruct (insert_type D (m0, lines0, changed0) x) as [[m1 lines1] changed1].
    rewrite (cons_middle x), (assoc_L (++)).
    apply IH; [|done|done]. apply Forall_app. split; [done|by constructor].
Qed.

End type_fold.

Lemma types_inv_empty D : types_inv D [] ∅.
Proof.
  constructor.
  - intros k v. by rewrite lookup_empty.
  - intros a Ha. by apply elem_of_nil in Ha.
  - intros l1 a l2 H. by destruct l1.
Qed.

(** With pairwise distinct names the catalog is the map from each name to
    its object, whatever the order. *)
Lemma distinct_names_fold D hs0 m0 lines0 changed0 hs :
  NoDup (type_name_of D <$> (hs0 ++ hs)) ->
  (forall k a, m0 !! k = Some a <-> a ∈ hs0 /\ type_name_of D a = k) ->
  forall k a,
    (fold_left (insert_type D) hs (m0, lines0, changed0)).1.1 !! k = Some a
    <-> a ∈ hs0 ++ hs /\ type_name_of D a = k.
Proof.
  revert hs0 m0 lines0 changed0.
  induction hs as [|x hs IH]; intros hs0 m0 lines0 changed0 Hnd Hm k a.
  - rewrite (right_id_L [] (++)). apply Hm.
  - cbn [fold_left].
    pose proof (insert_type_lookup D m0 lines0 changed0 x) as Hl.
    destruct (insert_type D (m0, lines0, changed0) x) as [[m1 lines1] changed1].
    cbn [fst] in Hl.
    rewrite (cons_middle x), (assoc_L (++)) in Hnd |- *.
    apply IH; [done|]. clear IH k a. intros k a.
    assert (m0 !! type_name_of D x = None) as Hfresh.
    { destruct (m0 !! type_name_of D x) as [e|] eqn:He; [|done].
      apply Hm in He as [He Hn]. exfalso.
      rewrite fmap_app, (fmap_app _ hs0) in Hnd.
      apply NoDup_app in Hnd as [Hnd _]. apply NoDup_app in Hnd as (_ & Hnd & _).
      apply (Hnd (type_name_of D x)); [|cbn; left].
      rewrite <- Hn. by apply list_elem_of_fmap_2. }
    rewrite Hl, Hfresh. destruct (m0 !! k) as [v|] eqn:Hk.
    + apply Hm in Hk as [Hv Hn]. split.
      * intros [= <-]. split; [apply elem_of_snoc; by left|done].
      * intros [[Ha| ->]%elem_of_snoc Hna].
        -- f_equal. assert (m0 !! k = Some a) as Ha' by (by apply Hm).
           assert (m0 !! k = Some v) as Hv' by (by apply Hm). congruence.
        -- subst k. assert (m0 !! type_name_of D x = Some v) as Hv' by (by apply Hm).
           congruence.
    + case_decide as Hd.
      * split.
        -- intros [= <-]. split; [apply elem_of_snoc; by right|done].
        -- intros [[Ha| ->]%elem_of_snoc Hna]; [|done].
           assert (m0 !! k = Some a) as Ha' by (by apply Hm). congruence.
      * split; [done|].
        intros [[Ha| ->]%elem_of_snoc Hna]; [|done].
        assert (m0 !! k = Some a) as Ha' by (by apply Hm). congruence.
Qed.

Lemma thread_step_calls_u64 S st i :
  Forall (fun c => in_u64 c.1) (calls st) ->
  Forall (fun c => in_u64 c.1) (calls (thread_step S st i)).
Proof.
  intros H. unfold thread_step.
  destruct (threads st !! i) as [[cur|cur offset owr addr z| |]|]; try done.
  unfold loop_step. repeat case_match; simplify_eq; cbn; try done.
  apply Forall_app. split; [done|]. constructor; [|done]. apply wrap64_range.
Qed.

Lemma run_threads_calls_u64 S num_threads sched :
  Forall (fun c => in_u64 c.1) (calls (run_threads S num_threads sched)).
Proof.
  unfold run_threads.
  assert (forall st, Forall (fun c => in_u64 c.1) (calls st) ->
            Forall (fun c => in_u64 c.1) (calls (fold_left (thread_step S) sched st))) as H.
  { induction sched as [|i sched IH]; intros st Hst; [done|].
    cbn. by apply IH, thread_step_calls_u64. }
  apply H. constructor.
Qed.

(** What a returned scan says about the run of the threads. *)
Lemma map_all_addresses_inv hw r stride num_threads object_size sched cs :
  map_all_addresses hw r stride num_threads object_size sched = Some (Ok cs) ->
  let nt := if (num_threads =? 0)%nat then hw else num_threads in
  let st := run_threads (setup_of r stride object_size) nt sched in
  stride <= block_stride
  /\ ss_back (setup_of r stride object_size) <= current_offset st
  /\ forallb is_joined (threads st) = true
  /\ cs = calls st.
Proof.
  intros H nt st. unfold map_all_addresses in H.
  destruct (negb _) in H; [done|].
  destruct (Z.gtb_spec stride block_stride) as [|Hle] in H; [done|].
  destruct (region_readers r (all_regions r)) in H; [|done].
  fold nt in H. fold (setup_of r stride object_size) in H. fold st in H.
  destruct (_ && _) eqn:Hret in H; [|done].
  injection H as <-. apply andb_prop in Hret as [Hc Hj]. apply Z.leb_le in Hc. done.
Qed.

(** Two scans of the same snapshot make the same calls, up to their order. *)
Lemma scan_runs_permutation hw r stride num_threads object_size
    schedA schedB callsA callsB :
  let nt := if (num_threads =? 0)%nat then hw else num_threads in
  regions_wf r = true -> 0 < stride ->
  total_size r + block_stride * (Z.of_nat nt + 1) < 2 ^ 64 ->
  map_all_addresses hw r stride num_threads object_size schedA = Some (Ok callsA) ->
  map_all_addresses hw r stride num_threads object_size schedB = Some (Ok callsB) ->
  callsA.*1 ≡ₚ callsB.*1.
Proof.
  intros nt Hwf Hpos Htotal HA HB.
  apply map_all_addresses_inv in HA as (Hle & HcA & HjA & ->).
  apply map_all_addresses_inv in HB as (_ & HcB & HjB & ->).
  pose proof (setup_of_ok r stride object_size nt Hwf ltac:(lia) Htotal) as HS.
  etransitivity; [apply (run_threads_calls _ nt HS schedA HcA HjA)|].
  symmetry. apply (run_threads_calls _ nt HS schedB HcB HjB).
Qed.

Lemma map_all_addresses_u64 hw r stride num_threads object_size sched calls :
  map_all_addresses hw r stride num_threads object_size sched = Some (Ok calls) ->
  Forall in_u64 calls.*1.
Proof.
  intros (_ & _ & _ & ->)%map_all_addresses_inv.
  apply Forall_fmap. apply run_threads_calls_u64.
Qed.

(** C7, as stated, fails: on the same snapshot and catalog state two runs
    of [find_all_type_objects] give different [type_objects].  The objects
    at [0x1400] and [0x2400] share the name ["dup"]; the plain name goes to
    the one whose block is scanned first. *)
Lemma find_all_types_depends_on_schedule :
  exists sA sB,
    find_all_type_objects decoder_sample 2 session_with_base 2
      schedule_first_block_first = Some (Ok sA)
    /\ find_all_type_objects decoder_sample 2 session_with_base 2
         schedule_second_block_first = Some (Ok sB)
    /\ type_objects (env sA) !! "dup"%string = Some 0x1400
    /\ type_objects (env sB) !! "dup"%string = Some 0x2400
    /\ type_objects (env sA) <> type_objects (env sB).
Proof.
  eexists _, _. split; [vm_compute; reflexivity|].
  split; [vm_compute; reflexivity|].
  assert (forall (m1 m2 : gmap string Z),
            m1 !! "dup"%string = Some 0x1400 -> m2 !! "dup"%string = Some 0x2400 ->
            m1 !! "dup"%string = Some 0x1400 /\ m2 !! "dup"%string = Some 0x2400
            /\ m1 <> m2) as H.
  { intros m1 m2 H1 H2. split; [done|]. split; [done|]. intros ->. congruence. }
  apply H; vm_compute; reflexivity.
Qed.

(** C7 (amended).  Two runs of [find_all_type_objects] on the same
    well-formed snapshot and catalog state discover the same type objects.
    If their names are pairwise distinct, both runs leave the same
    [type_objects].  If no name is itself an alternate key, every
    discovered object is retained in either run, under its plain name or
    under ["{name}+{address}"], and the plain name belongs to the object of
    that name which the run reaches first. *)
Theorem find_all_types_up_to_collisions D hw s max_threads
    schedA schedB callsA callsB :
  let r := env_r (env s) in
  let base := base_type_object (env s) in
  let nt := if (max_threads =? 0)%nat then hw else max_threads in
  let hitsA := type_hits D base callsA.*1 in
  let hitsB := type_hits D base callsB.*1 in
  regions_wf r = true ->
  total_size r + block_stride * (Z.of_nat nt + 1) < 2 ^ 64 ->
  base <> 0 ->
  map_all_addresses hw r 8 max_threads (sizeof_PyTypeObject D) schedA
  = Some (Ok callsA) ->
  map_all_addresses hw r 8 max_threads (sizeof_PyTypeObject D) schedB
  = Some (Ok callsB) ->
  exists sA sB,
    find_all_type_objects D hw s max_threads schedA = Some (Ok sA)
    /\ find_all_type_objects D hw s max_threads schedB = Some (Ok sB)
    /\ hitsA ≡ₚ hitsB
    /\ (NoDup (type_name_of D <$> hitsA) ->
        type_objects (env sA) = type_objects (env sB))
    /\ (no_key_clash D hitsA ->
        types_inv D hitsA (type_objects (env sA))
        /\ types_inv D hitsB (type_objects (env sB))).
Proof.
  intros r base nt hitsA hitsB Hwf Htotal Hbase HA HB.
  assert (hitsA ≡ₚ hitsB) as Hperm.
  { unfold hitsA, hitsB, type_hits.
    by rewrite (scan_runs_permutation hw r 8 max_threads _ schedA schedB callsA callsB
                  Hwf ltac:(lia) Htotal HA HB). }
  assert (Forall in_u64 hitsA) as HuA.
  { unfold hitsA, type_hits. apply Forall_forall.
    intros a [_ Ha]%list_elem_of_filter.
    pose proof (map_all_addresses_u64 _ _ _ _ _ _ _ HA) as Hu.
    rewrite Forall_forall in Hu. by apply Hu. }
  unfold find_all_type_objects. fold r base.
  unfold MappedPtr.is_null. destruct (Z.eqb_spec base 0); [done|].
  rewrite HA, HB, !type_fold_hits. fold hitsA hitsB.
  pose proof (distinct_names_fold D [] ∅ [] false hitsA) as HdA.
  pose proof (distinct_names_fold D [] ∅ [] false hitsB) as HdB.
  pose proof (fun HU Hc => types_inv_fold D (fun a => a ∈ hitsA) HU Hc [] ∅ [] false hitsA)
    as HiA.
  pose proof (fun HU Hc => types_inv_fold D (fun a => a ∈ hitsA) HU Hc [] ∅ [] false hitsB)
    as HiB.
  destruct (fold_left (insert_type D) hitsA (∅, [], false)) as [[mA linesA] chA].
  destruct (fold_left (insert_type D) hitsB (∅, [], false)) as [[mB linesB] chB].
  cbn [fst app] in *.
  eexists _, _. split; [reflexivity|]. split; [reflexivity|]. split; [done|].
  assert (forall ch s1, type_objects (env (if ch : bool then save_analysis s1 else s1))
                        = type_objects (env s1)) as Hty by (by intros []).
  rewrite !Hty. cbn [type_objects env]. split.
  - intros Hnd. apply map_eq. intros k. apply option_eq. intros a.
    rewrite HdA, HdB; [by rewrite Hperm|by rewrite <- Hperm|..].
    + intros ? ?. rewrite lookup_empty. split; [done|]. by intros [?%elem_of_nil _].
    + done.
    + intros ? ?. rewrite lookup_empty. split; [done|]. by intros [?%elem_of_nil _].
  - intros Hclash.
    assert (forall a, a ∈ hitsA -> in_u64 a) as HU by (by apply Forall_forall).
    split.
    + apply HiA; [done|done|constructor|by apply Forall_forall|apply types_inv_empty].
    + apply HiB; [done|done|constructor| |apply types_inv_empty].
      apply Forall_forall. intros a Ha. by rewrite Hperm.
Qed.

Lemma find_all_types_up_to_collisions_witness :
  exists callsA callsB sA sB,
    map_all_addresses 2 reader_two_pages 8 2 408 schedule_first_block_first
    = Some (Ok callsA)
    /\ map_all_addresses 2 reader_two_pages 8 2 408 schedule_second_block_first
       = Some (Ok callsB)
    /\ find_all_type_objects decoder_sample 2 session_with_base 2
         schedule_first_block_first = Some (Ok sA)
    /\ find_all_type_objects decoder_sample 2 session_with_base 2
         schedule_second_block_first = Some (Ok sB)
    /\ type_hits decoder_sample 0x1100 callsA.*1
       ≡ₚ type_hits decoder_sample 0x1100 callsB.*1.
Proof.
  assert (exists callsA,
            map_all_addresses 2 reader_two_pages 8 2 408 schedule_first_block_first
            = Some (Ok callsA)) as [callsA HA]
    by (eexists; vm_compute; reflexivity).
  assert (exists callsB,
            map_all_addresses 2 reader_two_pages 8 2 408 schedule_second_block_first
            = Some (Ok callsB)) as [callsB HB]
    by (eexists; vm_compute; reflexivity).
  assert (total_size reader_two_pages
          + block_stride * (Z.of_nat (if (2 =? 0)%nat then 2%nat else 2%nat) + 1)
          < 2 ^ 64) as Htotal by (vm_compute; reflexivity).
  assert (0x1100 <> 0) as Hbase by lia.
  destruct (find_all_types_up_to_collisions decoder_sample 2 session_with_base 2
              schedule_first_block_first schedule_second_block_first callsA callsB
              eq_refl Htotal Hbase HA HB) as (sA & sB & H1 & H2 & H3 & _).
  exists callsA, callsB, sA, sB. repeat split; assumption.
Defined.

(** ** async-task-graph: the roots *)

Lemma elem_of_set_emplace x s y : y ∈ set_emplace x s <-> y = x \/ y ∈ s.
Proof.
  induction s as [|z s IH]; cbn.
  - rewrite list_elem_of_singleton, elem_of_nil. tauto.
  - destruct (Z.ltb_spec x z); [by rewrite elem_of_cons|].
    destruct (Z.eqb_spec x z) as [->|].
    + rewrite elem_of_cons. tauto.
    + rewrite !elem_of_cons, IH. tauto.
Qed.

Lemma set_emplace_sorted x s :
  StronglySorted Z.lt s -> StronglySorted Z.lt (set_emplace x s).
Proof.
  induction 1 as [|z s Hs IH Hz]; cbn; [repeat constructor|].
  destruct (Z.ltb_spec x z).
  - constructor; [by constructor|]. constructor; [done|].
    eapply Forall_impl; [exact Hz|]. cbn. lia.
  - destruct (Z.eqb_spec x z); [by constructor|].
    constructor; [done|]. apply Forall_forall. intros y [->|Hy]%elem_of_set_emplace.
    + lia.
    + rewrite Forall_forall in Hz. by apply Hz.
Qed.

Lemma elem_of_set_erase x s y : y ∈ set_erase x s <-> y ∈ s /\ y <> x.
Proof. unfold set_erase. rewrite list_elem_of_filter. tauto. Qed.

Lemma set_erase_sorted x s :
  StronglySorted Z.lt s -> StronglySorted Z.lt (set_erase x s).
Proof.
  unfold set_erase. induction 1 as [|z s Hs IH Hz]; [constructor|].
  rewrite filter_cons. destruct (decide (z <> x)); [|exact IH].
  constructor; [exact IH|]. apply Forall_forall. intros y [_ Hy]%list_elem_of_filter.
  rewrite Forall_forall in Hz. by apply Hz.
Qed.

Lemma sorted_lt_NoDup s : StronglySorted Z.lt s -> NoDup s.
Proof.
  induction 1 as [|z s Hs IH Hz]; constructor; [|done].
  intros Hin. rewrite Forall_forall in Hz. specialize (Hz z Hin). lia.
Qed.

Lemma fold_emplace_spec (entries : list (Z * list Z)) roots :
  StronglySorted Z.lt roots ->
  StronglySorted Z.lt (fold_left (fun roots it => set_emplace it.1 roots) entries roots)
  /\ forall y, y ∈ fold_left (fun roots it => set_emplace it.1 roots) entries roots
               <-> y ∈ roots \/ exists ts, (y, ts) ∈ entries.
Proof.
  revert roots. induction entries as [|[k ts] entries IH]; intros roots Hs; cbn.
  - split; [done|]. intros y. split; [by left|].
    intros [?|[? ?%elem_of_nil]]; done.
  - destruct (IH (set_emplace k roots) (set_emplace_sorted k roots Hs)) as [Hs' Hin].
    split; [done|]. intros y. rewrite Hin, elem_of_set_emplace. split.
    + intros [[->|?]|[ts' ?]]; [right; exists ts; left|by left|right; exists ts'; by right].
    + intros [?|[ts' [[= -> ->]|?]%elem_of_cons]];
        [left; by right|left; by left|right; by exists ts'].
Qed.

Lemma fold_erase_spec (targets : list Z) roots :
  StronglySorted Z.lt roots ->
  StronglySorted Z.lt (fold_left (fun roots target => set_erase target roots) targets roots)
  /\ forall y, y ∈ fold_left (fun roots target => set_erase target roots) targets roots
               <-> y ∈ roots /\ y ∉ targets.
Proof.
  revert roots. induction targets as [|t targets IH]; intros roots Hs; cbn.
  - split; [done|]. intros y. rewrite elem_of_nil. tauto.
  - destruct (IH (set_erase t roots) (set_erase_sorted t roots Hs)) as [Hs' Hin].
    split; [done|]. intros y. rewrite Hin, elem_of_set_erase, not_elem_of_cons. tauto.
Qed.

Lemma fold_erase_all_spec (entries : list (Z * list Z)) roots :
  StronglySorted Z.lt roots ->
  let res := fold_left
    (fun roots it => fold_left (fun roots target => set_erase target roots) it.2 roots)
    entries roots in
  StronglySorted Z.lt res
  /\ forall y, y ∈ res
               <-> y ∈ roots /\ forall k ts, (k, ts) ∈ entries -> y ∉ ts.
Proof.
  revert roots. induction entries as [|[k ts] entries IH]; intros roots Hs; cbn.
  - split; [done|]. intros y. split; [|tauto]. intros ?. split; [done|].
    by intros ? ? ?%elem_of_nil.
  - destruct (fold_erase_spec ts roots Hs) as [Hs1 Hin1].
    destruct (IH _ Hs1) as [Hs2 Hin2]. cbn in Hs2, Hin2.
    split; [done|]. intros y. rewrite Hin2, Hin1. split.
    + intros [[? ?] Hrest]. split; [done|].
      intros k' ts' [[= -> ->]|?]%elem_of_cons; [done|by eapply Hrest].
    + intros [? Hall]. split; [split; [done|]|].
      * apply (Hall k). left.
      * intros k' ts' ?. apply (Hall k'). by right.
Qed.

(** The roots are the keys of the graph that no entry awaits, in ascending
    order and without repetition. *)
Lemma graph_roots_spec (G : gmap Z (list Z)) :
  NoDup (graph_roots G)
  /\ forall y, y ∈ graph_roots G
               <-> is_Some (G !! y) /\ forall k ts, G !! k = Some ts -> y ∉ ts.
Proof.
  unfold graph_roots.
  destruct (fold_emplace_spec (map_to_list G) [] ltac:(constructor)) as [Hs1 Hin1].
  destruct (fold_erase_all_spec (map_to_list G) _ Hs1) as [Hs2 Hin2].
  cbn in Hs2, Hin2. split; [by apply sorted_lt_NoDup|].
  intros y. rewrite Hin2, Hin1. split.
  - intros [[?%elem_of_nil|[ts Hts]] Hall]; [done|].
    apply elem_of_map_to_list in Hts. split; [by exists ts|].
    intros k ts' Hk. apply (Hall k). by apply elem_of_map_to_list.
  - intros [[ts Hts] Hall]. split.
    + right. exists ts. by apply elem_of_map_to_list.
    + intros k ts' Hk. apply (Hall k). by apply elem_of_map_to_list.
Qed.

(** ** async-task-graph: the depth-first print *)

Lemma print_entry_null fuel G repr depth st :
  print_entry (S fuel) G repr depth 0 st = Some st.
Proof. done. Qed.

(** A revisit prints [<!seen>@addr] and returns: no look-up in the graph,
    no recursive call. *)
Lemma print_entry_seen fuel G repr depth addr seen out :
  addr <> 0 -> addr ∈ seen ->
  print_entry (S fuel) G repr depth addr (seen, out)
  = Some ({[addr]} ∪ seen,
          out ++ [indent depth +:+ ("<!seen>@" +:+ format_addr addr)]).
Proof.
  intros Hnz Hin. cbn [print_entry]. unfold MappedPtr.is_null.
  destruct (Z.eqb_spec addr 0); [done|]. cbn [fst snd].
  by rewrite bool_decide_eq_true_2.
Qed.

Lemma print_entry_fresh fuel G repr depth addr seen out next :
  addr <> 0 -> addr ∉ seen -> G !! addr = Some [next] ->
  print_entry (S fuel) G repr depth addr (seen, out)
  = print_entry fuel G repr (S depth) next
      ({[addr]} ∪ seen, out ++ [indent depth +:+ repr depth addr]).
Proof.
  intros Hnz Hin HG. cbn [print_entry]. unfold MappedPtr.is_null.
  destruct (Z.eqb_spec addr 0); [done|]. cbn [fst snd].
  rewrite bool_decide_eq_false_2 by done. by rewrite HG.
Qed.

Lemma print_entry_missing fuel G repr depth addr seen out :
  addr <> 0 -> addr ∉ seen -> G !! addr = None ->
  print_entry (S fuel) G repr depth addr (seen, out)
  = Some ({[addr]} ∪ seen,
          (out ++ [indent depth +:+ repr depth addr])
          ++ ["Warning: await target " +:+ format_addr addr +:+ " missing from graph"]).
Proof.
  intros Hnz Hin HG. cbn [print_entry]. unfold MappedPtr.is_null.
  destruct (Z.eqb_spec addr 0); [done|]. cbn [fst snd].
  rewrite bool_decide_eq_false_2 by done. by rewrite HG.
Qed.

Ltac seen_solver :=
  first
    [ let Hin := fresh "Hin" in
      intros Hin;
      rewrite ?elem_of_union, ?elem_of_singleton, ?elem_of_empty in Hin;
      intuition congruence
    | rewrite ?elem_of_union, ?elem_of_singleton; tauto ].

Ltac distinct H :=
  repeat (apply NoDup_cons in H as [? H]);
  repeat match goal with
         | X : _ ∉ _ :: _ |- _ => apply not_elem_of_cons in X as [? X]
         end.

Lemma await_cycle_lookup T1 G1 T2 G2 T3 G3 k ts :
  NoDup [T1; G1; T2; G2; T3; G3] ->
  await_cycle T1 G1 T2 G2 T3 G3 !! k = Some ts
  <-> (k = T1 /\ ts = [G1]) \/ (k = G1 /\ ts = [T2]) \/ (k = T2 /\ ts = [G2])
      \/ (k = G2 /\ ts = [T3]) \/ (k = T3 /\ ts = [G3]) \/ (k = G3 /\ ts = [T1]).
Proof.
  intros Hnd. distinct Hnd. unfold await_cycle.
  rewrite !lookup_insert, lookup_empty.
  repeat case_decide; subst; try done; split; intros Hk; simplify_eq; try tauto;
    intuition congruence.
Qed.

Lemma await_cycle_roots T1 G1 T2 G2 T3 G3 :
  NoDup [T1; G1; T2; G2; T3; G3] ->
  graph_roots (await_cycle T1 G1 T2 G2 T3 G3) = [].
Proof.
  intros Hnd. destruct (graph_roots_spec (await_cycle T1 G1 T2 G2 T3 G3)) as [_ Hin].
  destruct (graph_roots _) as [|y roots]; [done|]. exfalso.
  destruct (proj1 (Hin y) ltac:(left)) as [[ts Hts] Hall].
  assert (forall k ts', (k = T1 /\ ts' = [G1]) \/ (k = G1 /\ ts' = [T2])
            \/ (k = T2 /\ ts' = [G2]) \/ (k = G2 /\ ts' = [T3])
            \/ (k = T3 /\ ts' = [G3]) \/ (k = G3 /\ ts' = [T1]) -> y ∉ ts') as Hall'.
  { intros k ts' Hk. apply (Hall k). by apply await_cycle_lookup. }
  apply await_cycle_lookup in Hts; [|done].
  destruct Hts as [[-> _]|[[-> _]|[[-> _]|[[-> _]|[[-> _]|[-> _]]]]]].
  - apply (Hall' G3 [T1]); [tauto|left].
  - apply (Hall' T1 [G1]); [tauto|left].
  - apply (Hall' G1 [T2]); [tauto|left].
  - apply (Hall' T2 [G2]); [tauto|left].
  - apply (Hall' G2 [T3]); [tauto|left].
  - apply (Hall' T3 [G3]); [tauto|left].
Qed.

Lemma await_cycle_with_root_lookup T0 T1 G1 T2 G2 T3 G3 k ts :
  NoDup [T0; T1; G1; T2; G2; T3; G3] ->
  await_cycle_with_root T0 T1 G1 T2 G2 T3 G3 !! k = Some ts
  <-> (k = T0 /\ ts = [T1])
      \/ await_cycle T1 G1 T2 G2 T3 G3 !! k = Some ts.
Proof.
  intros Hnd. pose proof Hnd as Hnd'. apply NoDup_cons in Hnd' as [Hnin Hnd'].
  unfold await_cycle_with_root. rewrite lookup_insert. case_decide as Hd.
  - subst k. split; [intros [= <-]; by left|].
    intros [[_ ->]|Hk]; [done|]. exfalso.
    apply await_cycle_lookup in Hk; [|done].
    apply Hnin. rewrite !elem_of_cons. tauto.
  - split; [by right|]. intros [[? _]|?]; [congruence|done].
Qed.

Lemma await_cycle_with_root_roots T0 T1 G1 T2 G2 T3 G3 :
  NoDup [T0; T1; G1; T2; G2; T3; G3] ->
  graph_roots (await_cycle_with_root T0 T1 G1 T2 G2 T3 G3) = [T0].
Proof.
  intros Hnd.
  destruct (graph_roots_spec (await_cycle_with_root T0 T1 G1 T2 G2 T3 G3)) as [Hnodup Hin].
  pose proof Hnd as Hnd'. apply NoDup_cons in Hnd' as [Hnin Hnd'].
  assert (forall k ts', (k = T0 /\ ts' = [T1]) \/ (k = T1 /\ ts' = [G1])
            \/ (k = G1 /\ ts' = [T2]) \/ (k = T2 /\ ts' = [G2])
            \/ (k = G2 /\ ts' = [T3]) \/ (k = T3 /\ ts' = [G3])
            \/ (k = G3 /\ ts' = [T1])
            <-> await_cycle_with_root T0 T1 G1 T2 G2 T3 G3 !! k = Some ts') as HG.
  { intros k ts'. rewrite await_cycle_with_root_lookup, await_cycle_lookup by done. tauto. }
  apply singleton_of_NoDup; [done| |].
  - apply Hin. split.
    + exists [T1]. apply HG. tauto.
    + intros k ts Hk. apply HG in Hk. distinct Hnd.
      destruct Hk as [[_ ->]|[[_ ->]|[[_ ->]|[[_ ->]|[[_ ->]|[[_ ->]|[_ ->]]]]]]];
        apply not_elem_of_cons; (split; [congruence|apply not_elem_of_nil]).
  - intros y [[ts Hts] Hall]%Hin.
    assert (forall k ts', (k = T0 /\ ts' = [T1]) \/ (k = T1 /\ ts' = [G1])
            \/ (k = G1 /\ ts' = [T2]) \/ (k = T2 /\ ts' = [G2])
            \/ (k = G2 /\ ts' = [T3]) \/ (k = T3 /\ ts' = [G3])
            \/ (k = G3 /\ ts' = [T1]) -> y ∉ ts') as Hall'.
    { intros k ts' Hk. apply (Hall k). by apply HG. }
    apply HG in Hts.
    destruct Hts as [[-> _]|[[-> _]|[[-> _]|[[-> _]|[[-> _]|[[-> _]|[-> _]]]]]]]; [done|..];
      exfalso.
    + apply (Hall' T0 [T1]); [tauto|left].
    + apply (Hall' T1 [G1]); [tauto|left].
    + apply (Hall' G1 [T2]); [tauto|left].
    + apply (Hall' T2 [G2]); [tauto|left].
    + apply (Hall' G2 [T3]); [tauto|left].
    + apply (Hall' T3 [G3]); [tauto|left].
Qed.

(** C3, as stated, fails: in the pure cycle every object is the await
    target of another one, so there is no root and the command prints no
    tree. *)
Lemma await_cycle_prints_no_tree :
  async_task_graph 100 (await_cycle 0x10 0x20 0x30 0x40 0x50 0x60) repr_sample
  = Some [].
Proof. vm_compute. reflexivity. Qed.

(** C3 (amended).  For pairwise distinct, non-null addresses: the pure
    cycle T1→G1→T2→G2→T3→G3→T1 has no root and yields no tree; with one
    more task T0 that awaits T1 the command prints exactly one tree, rooted
    at T0, whose last line is [<!seen>@] followed by the address of T1; and
    in any graph a revisit of an address that is already in [seen] prints
    [<!seen>@addr] and returns without recursing. *)
Theorem async_task_graph_await_cycle repr T0 T1 G1 T2 G2 T3 G3 fuel :
  NoDup [T0; T1; G1; T2; G2; T3; G3] ->
  Forall (fun a => a <> 0) [T0; T1; G1; T2; G2; T3; G3] ->
  (8 <= fuel)%nat ->
  async_task_graph fuel (await_cycle T1 G1 T2 G2 T3 G3) repr = Some []
  /\ async_task_graph fuel (await_cycle_with_root T0 T1 G1 T2 G2 T3 G3) repr
     = Some [[indent 0 +:+ repr 0%nat T0;
              indent 1 +:+ repr 1%nat T1;
              indent 2 +:+ repr 2%nat G1;
              indent 3 +:+ repr 3%nat T2;
              indent 4 +:+ repr 4%nat G2;
              indent 5 +:+ repr 5%nat T3;
              indent 6 +:+ repr 6%nat G3;
              indent 7 +:+ ("<!seen>@" +:+ format_addr T1)]]
  /\ (forall G depth addr seen out k,
        addr <> 0 -> addr ∈ seen ->
        print_entry (S k) G repr depth addr (seen, out)
        = Some ({[addr]} ∪ seen,
                out ++ [indent depth +:+ ("<!seen>@" +:+ format_addr addr)])).
Proof.
  intros Hnd Hnz Hfuel. split; [|split].
  - unfold async_task_graph. rewrite await_cycle_roots; [done|].
    by apply NoDup_cons in Hnd as [_ ?].
  - unfold async_task_graph. rewrite await_cycle_with_root_roots by done.
    assert (forall k ts', (k = T0 /\ ts' = [T1]) \/ (k = T1 /\ ts' = [G1])
            \/ (k = G1 /\ ts' = [T2]) \/ (k = T2 /\ ts' = [G2])
            \/ (k = G2 /\ ts' = [T3]) \/ (k = T3 /\ ts' = [G3])
            \/ (k = G3 /\ ts' = [T1])
            -> await_cycle_with_root T0 T1 G1 T2 G2 T3 G3 !! k = Some ts') as HG.
    { intros k ts'. rewrite await_cycle_with_root_lookup, await_cycle_lookup; [tauto|..].
      - by apply NoDup_cons in Hnd as [_ ?].
      - done. }
    do 8 (destruct fuel as [|fuel]; [lia|]).
    repeat (apply Forall_cons in Hnz as [? Hnz]).
    distinct Hnd. cbn [print_roots].
    rewrite (print_entry_fresh _ _ _ _ T0 _ _ T1); [|done|seen_solver|apply HG; tauto].
    rewrite (print_entry_fresh _ _ _ _ T1 _ _ G1); [|done|seen_solver|apply HG; tauto].
    rewrite (print_entry_fresh _ _ _ _ G1 _ _ T2); [|done|seen_solver|apply HG; tauto].
    rewrite (print_entry_fresh _ _ _ _ T2 _ _ G2); [|done|seen_solver|apply HG; tauto].
    rewrite (print_entry_fresh _ _ _ _ G2 _ _ T3); [|done|seen_solver|apply HG; tauto].
    rewrite (print_entry_fresh _ _ _ _ T3 _ _ G3); [|done|seen_solver|apply HG; tauto].
    rewrite (print_entry_fresh _ _ _ _ G3 _ _ T1); [|done|seen_solver|apply HG; tauto].
    rewrite print_entry_seen; [done|done|seen_solver].
  - intros G depth addr seen out k. apply print_entry_seen.
Qed.

Lemma async_task_graph_await_cycle_witness :
  async_task_graph 8 (await_cycle 0x10 0x20 0x30 0x40 0x50 0x60) repr_sample
  = Some []
  /\ async_task_graph 8 (await_cycle_with_root 0x8 0x10 0x20 0x30 0x40 0x50 0x60)
       repr_sample
     = Some [[indent 0 +:+ repr_sample 0%nat 0x8;
              indent 1 +:+ repr_sample 1%nat 0x10;
              indent 2 +:+ repr_sample 2%nat 0x20;
              indent 3 +:+ repr_sample 3%nat 0x30;
              indent 4 +:+ repr_sample 4%nat 0x40;
              indent 5 +:+ repr_sample 5%nat 0x50;
              indent 6 +:+ repr_sample 6%nat 0x60;
              indent 7 +:+ ("<!seen>@" +:+ format_addr 0x10)]].
Proof.
  assert (NoDup [0x8; 0x10; 0x20; 0x30; 0x40; 0x50; 0x60]) as Hnd.
  { apply (bool_decide_unpack (NoDup [0x8; 0x10; 0x20; 0x30; 0x40; 0x50; 0x60])).
    vm_compute. exact I. }
  assert (Forall (fun a => a <> 0) [0x8; 0x10; 0x20; 0x30; 0x40; 0x50; 0x60]) as Hnz.
  { repeat constructor; lia. }
  destruct (async_task_graph_await_cycle repr_sample 0x8 0x10 0x20 0x30 0x40 0x50 0x60
              8 Hnd Hnz (le_n 8)) as (H1 & H2 & _).
  split; [exact H1|exact H2].
Defined.

(** ** PyFrameObject::invalid_reason *)

(** Without wrap-around in the size, the range check does its work: a
    range it accepts holds the whole trailing array. *)
Lemma localsplus_range_check_sound W r this n :
  regions_wf r = true -> 0 <= sizeof_PyFrameObject W -> 0 <= n ->
  this + sizeof_PyFrameObject W + 8 * n < 2 ^ 64 -> 0 <= this ->
  exists_range r this (localsplus_range_size W n) = true ->
  localsplus_fits W r this n.
Proof.
  intros Hwf Hsz Hn Hnw Hthis H. unfold localsplus_range_size in H.
  rewrite (wrap64_small (n * 8)) in H by (unfold in_u64; lia).
  rewrite wrap64_small in H by (unfold in_u64; lia).
  destruct (exists_range_read_no_wrap r this (sizeof_PyFrameObject W + n * 8) Hwf)
    as (v & Hin & Hv & Hread); [unfold in_u64; lia|lia|done|].
  exists v. split; [done|]. split; [done|].
  assert (is_ok (read r this (sizeof_PyFrameObject W + n * 8)) = true) as Hok
    by by rewrite Hread.
  apply read_ok_iff in Hok as (w & Hw & Hwv & Hend); [|done|unfold in_u64; lia].
  assert (w = v) as ->.
  { pose proof (find_region_hit r w this Hwf Hw Hwv).
    pose proof (find_region_hit r v this Hwf Hin Hv). congruence. }
  lia.
Qed.

(** When the checks before the loop pass, the function goes on to the
    loop over the variable names. *)
Lemma frame_invalid_reason_reaches_loop W env this code_type tuple_type this_mapped :
  let f := frame_at W this in
  let r := env_r env in
  let co_varnames := co_varnames_at W (f_code f) in
  let ob_size := tuple_ob_size_at W co_varnames in
  (f_state f <? FRAME_CREATED) || (f_state f >? FRAME_CLEARED) = false ->
  obj_valid_or_null r (sizeof_f_back W) (f_back f) 8 = true ->
  obj_valid_or_null r (sizeof_f_code W) (f_code f) 8 = true ->
  obj_valid_or_null r (sizeof_f_builtins W) (f_builtins f) 8 = true ->
  obj_valid_or_null r (sizeof_f_globals W) (f_globals f) 8 = true ->
  obj_valid_or_null r (sizeof_f_locals W) (f_locals f) 8 = true ->
  obj_valid_or_null r (sizeof_f_valuestack W) (f_valuestack f) 1 = true ->
  obj_valid_or_null r (sizeof_f_trace W) (f_trace f) 1 = true ->
  obj_valid_or_null r (sizeof_f_gen W) (f_gen f) 1 = true ->
  MappedPtr.is_null (f_code f) = false ->
  get_type env "code" = Ok code_type ->
  env_invalid_reason W (f_code f) code_type = None ->
  is_ok (read r (f_code f) (sizeof_f_code W)) = true ->
  get_type env "tuple" = Ok tuple_type ->
  env_invalid_reason W co_varnames tuple_type = None ->
  is_ok (read r co_varnames (sizeof_co_varnames W)) = true ->
  host_to_mapped r (sizeof_PyFrameObject W) this = Ok this_mapped ->
  exists_range r this_mapped (localsplus_range_size W ob_size) = true ->
  PyFrameObject_invalid_reason W env this
  = frame_locals_loop W env this co_varnames (Z.to_nat ob_size) 0.
Proof.
  intros f r co_varnames ob_size Hst H1 H2 H3 H4 H5 H6 H7 H8 Hnn Hct Hci Hcr Htt Hti Htr Hhm Her.
  unfold PyFrameObject_invalid_reason. fold r f.
  rewrite Hst, H1, H2, H3, H4, H5, H6, H7, H8, Hnn. cbn [negb].
  rewrite Hct. cbn [of_result bind_outcome]. rewrite Hci.
  unfold reader_get. destruct (read r (f_code f) (sizeof_f_code W)); [|done].
  cbn [bind_result of_result bind_outcome].
  rewrite Htt. cbn [of_result bind_outcome]. fold co_varnames. rewrite Hti.
  destruct (read r co_varnames (sizeof_co_varnames W)); [|done].
  cbn [bind_result of_result bind_outcome].
  rewrite Hhm. cbn [of_result bind_outcome]. fold ob_size. by rewrite Her.
Qed.

(** C9 (code defect).  The frame of [frame_world_sample] ends exactly at
    the end of its region and its tuple of names has [ob_size = 2^61], so
    [ob_size * 8] wraps to [0]: the size passed to [exists_range] is
    [sizeof( *this)], the check passes although the trailing array does not
    fit, and the first turn of the loop reads [f_localsplus[0]] at
    [0x2000], outside the region.  The function returns neither
    ["invalid_f_localsplus_range"] nor an earlier reason. *)
Theorem frame_range_check_passes_on_wrapped_size :
  exists_range reader_one_page frame_addr_sample
    (localsplus_range_size frame_world_sample (2 ^ 61)) = true
  /\ ~ localsplus_fits frame_world_sample reader_one_page frame_addr_sample (2 ^ 61)
  /\ PyFrameObject_invalid_reason frame_world_sample frame_env_sample frame_addr_sample
     = ReadsOutside 0x2000.
Proof.
  split; [vm_compute; reflexivity|]. split.
  - intros (v & Hin & _ & Hend). cbn in Hin.
    apply list_elem_of_singleton in Hin as ->. cbn in Hend.
    unfold frame_addr_sample in Hend. lia.
  - rewrite (frame_invalid_reason_reaches_loop frame_world_sample frame_env_sample
               frame_addr_sample 0x1800 0x1810 frame_addr_sample);
      [|vm_compute; reflexivity..].
    change (tuple_ob_size_at frame_world_sample
              (co_varnames_at frame_world_sample
                 (f_code (frame_at frame_world_sample frame_addr_sample))))
      with (2 ^ 61).
    replace (Z.to_nat (2 ^ 61)) with (S (Z.to_nat (2 ^ 61 - 1))) by lia.
    generalize (Z.to_nat (2 ^ 61 - 1)). intros fuel. reflexivity.
Qed.

(** ** Rendering containers *)

Lemma prefix_app (n a b : string) :
  String.prefix n a = true -> String.prefix n (a +:+ b) = true.
Proof.
  revert a. induction n as [|c n IH]; intros a H; [by destruct (a +:+ b)|].
  destruct a as [|c' a]; [done|].
  change (String c' a +:+ b) with (String c' (a +:+ b)). cbn in *.
  destruct (Ascii.ascii_dec c c'); [by apply IH|done].
Qed.

Lemma is_infix_app_l (n a b : string) :
  is_infix n a = true -> is_infix n (a +:+ b) = true.
Proof.
  induction a as [|c a IH]; intros H.
  - cbn in H. rewrite orb_false_r in H. destruct n; [|done]. by destruct b.
  - cbn [is_infix] in H. apply orb_true_iff in H as [H|H].
    + change (String c a +:+ b) with (String c (a +:+ b)) at 1.
      cbn [is_infix]. apply orb_true_iff. left.
      by apply (prefix_app n (String c a) b).
    + change (String c a +:+ b) with (String c (a +:+ b)).
      cbn [is_infix]. rewrite (IH H). apply orb_true_r.
Qed.

Lemma is_infix_app_r (n a b : string) :
  is_infix n b = true -> is_infix n (a +:+ b) = true.
Proof.
  intros H. induction a as [|c a IH]; [done|].
  change (String c a +:+ b) with (String c (a +:+ b)).
  cbn [is_infix]. rewrite IH. apply orb_true_r.
Qed.

Lemma is_infix_string_concat (n : string) (l : list string) (s : string) :
  s ∈ l -> is_infix n s = true -> is_infix n (string_concat l) = true.
Proof.
  intros Hin Hs. induction Hin as [s l|s s' l Hin IH]; cbn.
  - by apply is_infix_app_l.
  - by apply is_infix_app_r, IH.
Qed.

Create HintDb infix discriminated.
#[local] Hint Resolve is_infix_app_l is_infix_app_r : infix.

Lemma dict_lines_marker t entries extra ks vs n :
  (ks, vs) ∈ entries -> is_infix n ks = true \/ is_infix n vs = true ->
  is_infix n (dict_lines t entries extra) = true.
Proof.
  intros Hin Hm. unfold dict_lines.
  apply is_infix_app_r, is_infix_app_r, is_infix_app_l.
  apply (is_infix_string_concat _ _
           (spaces (recursion_depth t * 2) +:+ ks +:+ ": " +:+ vs +:+ "," +:+ newline)).
  - apply (list_elem_of_fmap_2 (fun e => _ +:+ e.1 +:+ _ +:+ e.2 +:+ _) _ (ks, vs)).
    by rewrite merge_sort_Permutation.
  - destruct Hm as [Hm|Hm]; auto 10 with infix.
Qed.

Lemma dict_format_marker t entries extra ks vs n :
  (ks, vs) ∈ entries -> is_infix n ks = true \/ is_infix n vs = true ->
  is_infix n (dict_format t entries extra) = true.
Proof.
  intros Hin Hm. unfold dict_format.
  destruct entries as [|e [|e' entries]]; [by apply elem_of_nil in Hin| |].
  - destruct extra; [by eapply dict_lines_marker|].
    apply list_elem_of_singleton in Hin as <-. cbn [fst snd].
    destruct Hm as [Hm|Hm]; auto 10 with infix.
  - by eapply dict_lines_marker.
Qed.

Lemma set_format_marker t entries extra s n :
  s ∈ entries -> is_infix n s = true ->
  is_infix n (set_format t entries extra) = true.
Proof.
  intros Hin Hm. unfold set_format.
  destruct entries as [|e [|e' entries]]; [by apply elem_of_nil in Hin| |].
  - apply list_elem_of_singleton in Hin as <-. auto with infix.
  - apply is_infix_app_r, is_infix_app_r, is_infix_app_l.
    apply (is_infix_string_concat _ _
             (spaces (recursion_depth t * 2) +:+ s +:+ "," +:+ newline)).
    + apply (list_elem_of_fmap_2 (fun e => _ +:+ e +:+ _) _ s).
      by rewrite merge_sort_Permutation.
    + auto with infix.
Qed.

Lemma entries_full_uncapped t size : max_entries t < 0 -> entries_full t size = false.
Proof.
  intros H. unfold entries_full.
  replace (max_entries t >=? 0) with false; [done|].
  symmetry. rewrite Z.geb_leb. by apply Z.leb_gt.
Qed.

(** The scope of a guard that opened an entry, and of the indent inside
    it, leave the traversal as it was. *)
Lemma guard_scope_restores t this :
  this ∉ in_progress t ->
  cycle_guard_exit false this (with_in_progress (in_progress t ∪ {[this]}) t) = t
  /\ cycle_guard_exit false this
       (indent_exit (indent_enter (with_in_progress (in_progress t ∪ {[this]}) t))) = t.
Proof.
  intros Hnot. destruct t as [d m e G]. cbn in *.
  unfold cycle_guard_exit, indent_exit, indent_enter, with_in_progress,
    with_recursion_depth. cbn.
  assert ((G ∪ {[this]}) ∖ {[this]} = G) as ->.
  { apply set_eq. intros x.
    rewrite elem_of_difference, elem_of_union, elem_of_singleton.
    split; [tauto|]. intros Hx. split; [tauto|]. by intros ->. }
  split; [done|]. f_equal. lia.
Qed.

Section loops.
Context (repr : Traversal -> Z -> option (string * Traversal)) (t : Traversal).
Hypothesis repr_restores : forall a s t', repr t a = Some (s, t') -> t' = t.

Lemma dict_entries_loop_restores table acc entries extra t3 :
  dict_entries_loop repr table t acc = Some (entries, extra, t3) -> t3 = t.
Proof using repr_restores.
  revert acc. induction table as [|slot table IH]; intros acc H; cbn in H.
  - congruence.
  - destruct slot as [| |k v].
    + by eapply IH.
    + destruct (entries_full t (length acc)); [congruence|by eapply IH].
    + destruct (entries_full t (length acc)); [congruence|].
      destruct (repr t k) as [[ks t1]|] eqn:Hk; [|done].
      apply repr_restores in Hk as ->. cbn in H.
      destruct (repr t v) as [[vs t2]|] eqn:Hv; [|done].
      apply repr_restores in Hv as ->. cbn in H. by eapply IH.
Qed.

Lemma set_items_loop_restores items acc entries extra t3 :
  set_items_loop repr items t acc = Some (entries, extra, t3) -> t3 = t.
Proof using repr_restores.
  revert acc. induction items as [|a items IH]; intros acc H; cbn in H.
  - congruence.
  - destruct (entries_full t (length acc)); [congruence|].
    destruct (repr t a) as [[s t1]|] eqn:Ha; [|done].
    apply repr_restores in Ha as ->. cbn in H. by eapply IH.
Qed.

Lemma dict_entries_loop_total table acc :
  (forall a, is_Some (repr t a)) ->
  is_Some (dict_entries_loop repr table t acc).
Proof using repr_restores.
  intros Htot. revert acc. induction table as [|slot table IH]; intros acc; cbn.
  - done.
  - destruct slot as [| |k v].
    + apply IH.
    + destruct (entries_full t (length acc)); [done|apply IH].
    + destruct (entries_full t (length acc)); [done|].
      destruct (Htot k) as [[ks t1] Hk]. rewrite Hk. cbn.
      apply repr_restores in Hk as ->.
      destruct (Htot v) as [[vs t2] Hv]. rewrite Hv. cbn.
      apply repr_restores in Hv as ->. apply IH.
Qed.

Lemma set_items_loop_total items acc :
  (forall a, is_Some (repr t a)) ->
  is_Some (set_items_loop repr items t acc).
Proof using repr_restores.
  intros Htot. revert acc. induction items as [|a items IH]; intros acc; cbn.
  - done.
  - destruct (entries_full t (length acc)); [done|].
    destruct (Htot a) as [[s t1] Ha]. rewrite Ha. cbn.
    apply repr_restores in Ha as ->. apply IH.
Qed.

(** Without a cap, every entry of the table is rendered. *)
Lemma dict_entries_loop_entries table acc entries extra t3 :
  max_entries t < 0 ->
  dict_entries_loop repr table t acc = Some (entries, extra, t3) ->
  (forall e, e ∈ acc -> e ∈ entries)
  /\ (forall k v, SlotEntry k v ∈ table ->
       exists ks vs, (ks, vs) ∈ entries
                     /\ repr t k = Some (ks, t) /\ repr t v = Some (vs, t)).
Proof using repr_restores.
  intros Hcap. revert acc.
  induction table as [|slot table IH]; intros acc H; cbn in H.
  - split; [naive_solver|]. intros k v Hin. by apply elem_of_nil in Hin.
  - rewrite (entries_full_uncapped t _ Hcap) in H. destruct slot as [| |k v].
    + destruct (IH _ H) as [Hacc Hall]. split; [done|].
      intros k v [?|Hin]%elem_of_cons; [done|by apply Hall].
    + destruct (IH _ H) as [Hacc Hall]. split.
      * intros e He. apply Hacc, elem_of_app. by left.
      * intros k v [?|Hin]%elem_of_cons; [done|by apply Hall].
    + destruct (repr t k) as [[ks t1]|] eqn:Hk; [|done].
      pose proof (repr_restores _ _ _ Hk) as ->. cbn in H.
      destruct (repr t v) as [[vs t2]|] eqn:Hv; [|done].
      pose proof (repr_restores _ _ _ Hv) as ->. cbn in H.
      destruct (IH _ H) as [Hacc Hall]. split.
      * intros e He. apply Hacc, elem_of_app. by left.
      * intros k' v' [Heq|Hin]%elem_of_cons; [|by apply Hall].
        injection Heq as -> ->. exists ks, vs. split; [|done].
        apply Hacc, elem_of_app. right. by apply list_elem_of_singleton.
Qed.

Lemma set_items_loop_entries items acc entries extra t3 :
  max_entries t < 0 ->
  set_items_loop repr items t acc = Some (entries, extra, t3) ->
  (forall e, e ∈ acc -> e ∈ entries)
  /\ (forall a, a ∈ items -> exists s, s ∈ entries /\ repr t a = Some (s, t)).
Proof using repr_restores.
  intros Hcap. revert acc.
  induction items as [|a items IH]; intros acc H; cbn in H.
  - split; [naive_solver|]. intros a Hin. by apply elem_of_nil in Hin.
  - rewrite (entries_full_uncapped t _ Hcap) in H.
    destruct (repr t a) as [[s t1]|] eqn:Ha; [|done].
    pose proof (repr_restores _ _ _ Ha) as ->. cbn in H.
    destruct (IH _ H) as [Hacc Hall]. split.
    + intros e He. apply Hacc, elem_of_app. by left.
    + intros a' [->|Hin]%elem_of_cons; [|by apply Hall].
      exists s. split; [|done].
      apply Hacc, elem_of_app. right. by apply list_elem_of_singleton.
Qed.
End loops.

Lemma cycle_guard_open t this :
  this ∈ in_progress t -> cycle_guard t this = (true, t).
Proof. intros H. unfold cycle_guard. by rewrite bool_decide_eq_true_2. Qed.

Lemma cycle_guard_fresh t this :
  this ∉ in_progress t ->
  cycle_guard t this = (false, with_in_progress (in_progress t ∪ {[this]}) t).
Proof. intros H. unfold cycle_guard. by rewrite bool_decide_eq_false_2. Qed.

Lemma PyDictObject_repr_restores repr d this t s t' :
  restores repr -> PyDictObject_repr repr d this t = Some (s, t') -> t' = t.
Proof.
  intros Hr H. unfold PyDictObject_repr in H.
  destruct (dict_invalid_reason d); [congruence|].
  destruct (keys_invalid_reason d); [congruence|].
  destruct (table_readable d); cbn in H; [|congruence].
  destruct (values_readable d); cbn in H; [|congruence].
  destruct (decide (this ∈ in_progress t)) as [Hin|Hnot].
  - rewrite (cycle_guard_open _ _ Hin) in H. cbn in H. congruence.
  - rewrite (cycle_guard_fresh _ _ Hnot) in H.
    destruct (guard_scope_restores t this Hnot) as [Hg Hgi].
    destruct (recursion_allowed _); cbn [negb] in H; [|congruence].
    destruct (entries_readable d); cbn [negb] in H; [|congruence].
    fold (inside this t) in H.
    destruct (dict_entries_loop repr (table d) (inside this t) [])
      as [[[entries extra] t3]|] eqn:Hloop; [|done].
    apply dict_entries_loop_restores in Hloop as ->; [|by intros; eapply Hr].
    injection H as _ <-. exact Hgi.
Qed.

Lemma PySetObject_repr_restores repr s0 this t s t' :
  restores repr -> PySetObject_repr repr s0 this t = Some (s, t') -> t' = t.
Proof.
  intros Hr H. unfold PySetObject_repr in H.
  destruct (set_invalid_reason s0); [congruence|].
  destruct (recursion_allowed t); cbn [negb] in H; [|congruence].
  destruct (decide (this ∈ in_progress t)) as [Hin|Hnot].
  - rewrite (cycle_guard_open _ _ Hin) in H. cbn in H. congruence.
  - rewrite (cycle_guard_fresh _ _ Hnot) in H.
    destruct (guard_scope_restores t this Hnot) as [Hg Hgi].
    fold (inside this t) in H.
    destruct (set_items_loop repr (get_items s0) (inside this t) [])
      as [[[entries extra] t3]|] eqn:Hloop; [|done].
    apply set_items_loop_restores in Hloop as ->; [|by intros; eapply Hr].
    injection H as _ <-. exact Hgi.
Qed.

(** Rendering leaves the traversal as it found it: the recursion depth
    and the cycle-guard set are those of before the call. *)
Lemma Traversal_repr_restores h fuel : restores (Traversal_repr fuel h).
Proof.
  induction fuel as [|fuel IH]; intros t a s t' H; [done|].
  cbn [Traversal_repr] in H. destruct (containers h !! a) as [[d|s0]|].
  - by eapply PyDictObject_repr_restores.
  - by eapply PySetObject_repr_restores.
  - congruence.
Qed.

Lemma PyDictObject_repr_total repr d this t :
  restores repr ->
  (this ∉ in_progress t -> forall a, is_Some (repr (inside this t) a)) ->
  is_Some (PyDictObject_repr repr d this t).
Proof.
  intros Hr Htot. unfold PyDictObject_repr.
  destruct (dict_invalid_reason d); [done|].
  destruct (keys_invalid_reason d); [done|].
  destruct (table_readable d); cbn [negb]; [|done].
  destruct (values_readable d); cbn [negb]; [|done].
  destruct (decide (this ∈ in_progress t)) as [Hin|Hnot].
  - by rewrite (cycle_guard_open _ _ Hin).
  - rewrite (cycle_guard_fresh _ _ Hnot).
    destruct (recursion_allowed _); cbn [negb]; [|done].
    destruct (entries_readable d); cbn [negb]; [|done].
    fold (inside this t).
    destruct (dict_entries_loop_total repr (inside this t)
                (fun a s t' => Hr _ a s t') (table d) [] (Htot Hnot))
      as [[[entries extra] t3] ->].
    done.
Qed.

Lemma PySetObject_repr_total repr s0 this t :
  restores repr ->
  (this ∉ in_progress t -> forall a, is_Some (repr (inside this t) a)) ->
  is_Some (PySetObject_repr repr s0 this t).
Proof.
  intros Hr Htot. unfold PySetObject_repr.
  destruct (set_invalid_reason s0); [done|].
  destruct (recursion_allowed t); cbn [negb]; [|done].
  destruct (decide (this ∈ in_progress t)) as [Hin|Hnot].
  - by rewrite (cycle_guard_open _ _ Hin).
  - rewrite (cycle_guard_fresh _ _ Hnot). fold (inside this t).
    destruct (set_items_loop_total repr (inside this t)
                (fun a s t' => Hr _ a s t') (get_items s0) [] (Htot Hnot))
      as [[[entries extra] t3] ->].
    done.
Qed.

Lemma closed_containers_inside h this t :
  is_Some (containers h !! this) -> this ∉ in_progress t ->
  (size (closed_containers h (inside this t)) < size (closed_containers h t))%nat.
Proof.
  intros Hc Hnot. apply subset_size. unfold closed_containers. cbn.
  apply elem_of_dom in Hc. split.
  - intros x. rewrite !elem_of_difference, elem_of_union. tauto.
  - intros Hsub. specialize (Hsub this).
    rewrite !elem_of_difference, elem_of_union, elem_of_singleton in Hsub. tauto.
Qed.

(** Every nested call opens a container that was closed, so the nesting
    is bounded by the number of closed containers, whatever the depth
    limit. *)
Lemma Traversal_repr_total h fuel t a :
  (size (closed_containers h t) < fuel)%nat -> is_Some (Traversal_repr fuel h t a).
Proof.
  revert t a. induction fuel as [|fuel IH]; intros t a Hfuel; [lia|].
  cbn [Traversal_repr]. destruct (containers h !! a) as [[d|s0]|] eqn:Ha.
  - apply PyDictObject_repr_total; [apply Traversal_repr_restores|].
    intros Hnot b. apply IH.
    pose proof (closed_containers_inside h a t (mk_is_Some _ _ Ha) Hnot). lia.
  - apply PySetObject_repr_total; [apply Traversal_repr_restores|].
    intros Hnot b. apply IH.
    pose proof (closed_containers_inside h a t (mk_is_Some _ _ Ha) Hnot). lia.
  - done.
Qed.

Lemma referents_renderable h a b : b ∈ referents h a -> renderable h a = true.
Proof.
  unfold referents. destruct (renderable h a); [done|].
  intros H. by apply elem_of_nil in H.
Qed.

Lemma recursion_allowed_le t :
  recursion_depth t <= max_recursion_depth t -> recursion_allowed t = true.
Proof.
  intros H. unfold recursion_allowed. rewrite Z.gtb_ltb.
  apply negb_true_iff. by apply Z.ltb_ge.
Qed.

(** When the rendering comes back to an open container, and neither the
    depth limit nor the entry cap cuts it before, the text holds the
    marker. *)
Lemma Traversal_repr_hits h n :
  forall fuel t a s t',
    hits h (in_progress t) n a ->
    max_entries t < 0 ->
    recursion_depth t + Z.of_nat n <= max_recursion_depth t ->
    Traversal_repr fuel h t a = Some (s, t') ->
    is_infix recursive_marker s = true.
Proof.
  induction n as [|n IH]; intros fuel t a s t' Hhits Hcap Hdepth H;
    (destruct fuel as [|fuel]; [done|]); cbn [Traversal_repr] in H;
    inversion Hhits as [G a' Hin Hrend|G a' b n' Hnot Hb Hrest]; subst.
  - unfold renderable in Hrend. destruct (containers h !! a) as [[d|s0]|]; [| |done].
    + unfold PyDictObject_repr in H.
      destruct (dict_invalid_reason d); [done|].
      destruct (keys_invalid_reason d); [done|].
      destruct (table_readable d); [|done]. destruct (values_readable d); [|done].
      cbn [negb] in H. rewrite (cycle_guard_open _ _ Hin) in H.
      by injection H as <- _.
    + unfold PySetObject_repr in H. destruct (set_invalid_reason s0); [done|].
      rewrite recursion_allowed_le in H by lia. cbn [negb] in H.
      rewrite (cycle_guard_open _ _ Hin) in H. by injection H as <- _.
  - pose proof (referents_renderable _ _ _ Hb) as Hrend.
    unfold referents in Hb. rewrite Hrend in Hb. unfold renderable in Hrend.
    assert (recursion_allowed (with_in_progress (in_progress t ∪ {[a]}) t) = true)
      as Hallowed by (apply recursion_allowed_le; cbn; lia).
    assert (forall c fuel' sc tc,
               c = b -> Traversal_repr fuel' h (inside a t) c = Some (sc, tc) ->
               is_infix recursive_marker sc = true) as Hsub.
    { intros c fuel' sc tc -> Hc. eapply (IH fuel' (inside a t)); [done|done| |done].
      cbn. lia. }
    destruct (containers h !! a) as [[d|s0]|]; [| |done].
    + unfold PyDictObject_repr in H.
      destruct (dict_invalid_reason d); [done|].
      destruct (keys_invalid_reason d); [done|].
      destruct (table_readable d); [|done]. destruct (values_readable d); [|done].
      destruct (entries_readable d); [|done].
      cbn [negb] in H. rewrite (cycle_guard_fresh _ _ Hnot), Hallowed in H.
      cbn [negb] in H. fold (inside a t) in H.
      destruct (dict_entries_loop (Traversal_repr fuel h) (table d) (inside a t) [])
        as [[[entries extra] t3]|] eqn:Hloop; [|done].
      injection H as <- _.
      apply list_elem_of_bind in Hb as (slot & Hbs & Hslot).
      destruct slot as [| |k v]; [by apply elem_of_nil in Hbs..|].
      eapply (dict_entries_loop_entries (Traversal_repr fuel h) (inside a t))
        in Hloop as [_ Hall]; [|by intros; eapply Traversal_repr_restores|done].
      destruct (Hall k v Hslot) as (ks & vs & Hin & Hk & Hv).
      apply (dict_format_marker _ _ _ ks vs); [done|].
      cbn in Hbs. apply elem_of_cons in Hbs as [->|Hbs]; [left; by eapply Hsub|].
      apply list_elem_of_singleton in Hbs as ->. right. by eapply Hsub.
    + unfold PySetObject_repr in H. destruct (set_invalid_reason s0); [done|].
      rewrite recursion_allowed_le in H by lia. cbn [negb] in H.
      rewrite (cycle_guard_fresh _ _ Hnot) in H. fold (inside a t) in H.
      destruct (set_items_loop (Traversal_repr fuel h) (get_items s0) (inside a t) [])
        as [[[entries extra] t3]|] eqn:Hloop; [|done].
      injection H as <- _.
      eapply (set_items_loop_entries (Traversal_repr fuel h) (inside a t))
        in Hloop as [_ Hall]; [|by intros; eapply Traversal_repr_restores|done].
      destruct (Hall b Hb) as (sb & Hin & Hsb).
      apply (set_format_marker _ _ _ sb); [done|]. by eapply Hsub.
Qed.

(** A chain of references that comes back to one of its own objects
    leads the rendering back to an open container. *)
Lemma walk_hits h l :
  forall G a,
    (forall x, x ∈ G -> renderable h x = true) ->
    is_walk h a l ->
    ~ NoDup (a :: l) \/ (exists x, x ∈ a :: l /\ x ∈ G) ->
    exists n, (n <= length l)%nat /\ hits h G n a.
Proof.
  induction l as [|b l IH]; intros G a HG Hwalk Hloop.
  - exists 0%nat. split; [done|]. destruct Hloop as [Hdup|(x & Hx & HxG)].
    + destruct Hdup. apply NoDup_singleton.
    + apply list_elem_of_singleton in Hx as ->. apply hits_here; auto.
  - destruct (decide (a ∈ G)) as [Hin|Hnot].
    { exists 0%nat. split; [lia|]. apply hits_here; auto. }
    destruct Hwalk as [Hb Hwalk].
    destruct (IH (G ∪ {[a]}) b) as (n & Hn & Hhits); [|done| |].
    + intros x [Hx|Hx]%elem_of_union; [by apply HG|].
      apply elem_of_singleton in Hx as ->. by eapply referents_renderable.
    + destruct Hloop as [Hdup|(x & Hx & HxG)].
      * destruct (decide (a ∈ b :: l)) as [Ha|Ha].
        -- right. exists a. split; [done|]. apply elem_of_union. right.
           by apply elem_of_singleton.
        -- left. intros Hnd. apply Hdup. by apply NoDup_cons.
      * apply elem_of_cons in Hx as [->|Hx]; [done|].
        right. exists x. split; [done|]. apply elem_of_union. by left.
    + exists (S n). split; [cbn; lia|]. by eapply hits_step.
Qed.

Lemma dict_entries_loop_extends repr1 repr2 table t acc r :
  extends repr1 repr2 ->
  dict_entries_loop repr1 table t acc = Some r ->
  dict_entries_loop repr2 table t acc = Some r.
Proof.
  intros Hext. revert t acc.
  induction table as [|slot table IH]; intros t acc H; cbn in *; [done|].
  destruct slot as [| |k v]; [by apply IH| |].
  - destruct (entries_full t (length acc)); [done|by apply IH].
  - destruct (entries_full t (length acc)); [done|].
    destruct (repr1 t k) as [[ks t1]|] eqn:Hk; [|done].
    rewrite (Hext _ _ _ Hk). cbn in *.
    destruct (repr1 t1 v) as [[vs t2]|] eqn:Hv; [|done].
    rewrite (Hext _ _ _ Hv). cbn in *. by apply IH.
Qed.

Lemma set_items_loop_extends repr1 repr2 items t acc r :
  extends repr1 repr2 ->
  set_items_loop repr1 items t acc = Some r ->
  set_items_loop repr2 items t acc = Some r.
Proof.
  intros Hext. revert t acc.
  induction items as [|a items IH]; intros t acc H; cbn in *; [done|].
  destruct (entries_full t (length acc)); [done|].
  destruct (repr1 t a) as [[s t1]|] eqn:Ha; [|done].
  rewrite (Hext _ _ _ Ha). cbn in *. by apply IH.
Qed.

(** More fuel does not change a result. *)
Lemma Traversal_repr_fuel h fuel fuel' :
  (fuel <= fuel')%nat -> extends (Traversal_repr fuel h) (Traversal_repr fuel' h).
Proof.
  revert fuel'. induction fuel as [|fuel IH]; intros fuel' Hle t a r H; [done|].
  destruct fuel' as [|fuel']; [lia|]. cbn [Traversal_repr] in *.
  assert (extends (Traversal_repr fuel h) (Traversal_repr fuel' h)) as Hext
    by (apply IH; lia).
  destruct (containers h !! a) as [[d|s0]|]; [| |done].
  - unfold PyDictObject_repr in *.
    destruct (dict_invalid_reason d); [done|].
    destruct (keys_invalid_reason d); [done|].
    destruct (negb (table_readable d)); [done|].
    destruct (negb (values_readable d)); [done|].
    destruct (cycle_guard t a) as [[|] t1]; [done|].
    destruct (negb (recursion_allowed t1)); [done|].
    destruct (negb (entries_readable d)); [done|].
    destruct (dict_entries_loop (Traversal_repr fuel h) _ _ _) as [r'|] eqn:Hloop;
      [|done].
    by rewrite (dict_entries_loop_extends _ _ _ _ _ _ Hext Hloop).
  - unfold PySetObject_repr in *.
    destruct (set_invalid_reason s0); [done|].
    destruct (negb (recursion_allowed t)); [done|].
    destruct (cycle_guard t a) as [[|] t1]; [done|].
    destruct (set_items_loop (Traversal_repr fuel h) _ _ _) as [r'|] eqn:Hloop;
      [|done].
    by rewrite (set_items_loop_extends _ _ _ _ _ _ Hext Hloop).
Qed.

Lemma closed_containers_size h t :
  (size (closed_containers h t) <= size (dom (containers h)))%nat.
Proof.
  apply subseteq_size. unfold closed_containers. intros x.
  rewrite elem_of_difference. tauto.
Qed.

(** C10 (amended).  Rendering any object of any snapshot returns, with
    fuel for one nested call per container of the snapshot whatever the
    depth limit, and leaves the recursion depth and the cycle-guard set as
    they were, so every guard entry opened has been removed.  A dict whose
    address is open renders as [<dict !recursive_repr>] once it has passed
    the checks on the object, its keys, its table and its values; a set
    whose address is open renders as [<set !recursive_repr>] once it has
    passed the validity check and the depth check.  When a chain of
    references from the object comes back to one of its own objects, no
    container is open yet, the entries are not capped and the depth limit
    leaves room for the chain, the text holds [!recursive_repr]. *)
Theorem repr_cycle_guard (h : Heap) (t : Traversal) (addr : Z) :
  (exists s, Traversal_repr (S (size (dom (containers h)))) h t addr = Some (s, t))
  /\ (forall fuel d,
        containers h !! addr = Some (Dict d) ->
        addr ∈ in_progress t ->
        dict_invalid_reason d = None -> keys_invalid_reason d = None ->
        table_readable d = true -> values_readable d = true ->
        Traversal_repr (S fuel) h t addr = Some ("<dict !recursive_repr>", t))
  /\ (forall fuel s0,
        containers h !! addr = Some (PySet s0) ->
        addr ∈ in_progress t ->
        set_invalid_reason s0 = None -> recursion_allowed t = true ->
        Traversal_repr (S fuel) h t addr = Some ("<set !recursive_repr>", t))
  /\ (forall l,
        in_progress t = ∅ -> max_entries t < 0 ->
        is_walk h addr l -> ~ NoDup (addr :: l) ->
        recursion_depth t + Z.of_nat (length l) <= max_recursion_depth t ->
        exists s,
          Traversal_repr (S (size (dom (containers h)))) h t addr = Some (s, t)
          /\ is_infix recursive_marker s = true).
Proof.
  assert (exists s,
             Traversal_repr (S (size (dom (containers h)))) h t addr = Some (s, t))
    as Hret.
  { destruct (Traversal_repr_total h (S (size (dom (containers h)))) t addr)
      as [[s t'] Hs].
    - pose proof (closed_containers_size h t). lia.
    - pose proof (Traversal_repr_restores _ _ _ _ _ _ Hs) as ->. by exists s. }
  split; [done|]. split; [|split].
  - intros fuel d Hd Hin Hv Hk Ht Hvs. cbn [Traversal_repr]. rewrite Hd.
    unfold PyDictObject_repr. rewrite Hv, Hk, Ht, Hvs. cbn [negb].
    by rewrite (cycle_guard_open _ _ Hin).
  - intros fuel s0 Hs Hin Hv Hallowed. cbn [Traversal_repr]. rewrite Hs.
    unfold PySetObject_repr. rewrite Hv, Hallowed. cbn [negb].
    by rewrite (cycle_guard_open _ _ Hin).
  - intros l Hempty Hcap Hwalk Hdup Hdepth. destruct Hret as [s Hs].
    exists s. split; [done|].
    destruct (walk_hits h l (in_progress t) addr) as (n & Hn & Hhits);
      [|done|by left|].
    { intros x Hx. rewrite Hempty in Hx. by apply elem_of_empty in Hx. }
    eapply (Traversal_repr_hits h n); [done|done| |done]. lia.
Qed.

(** C10 (as stated) fails.  Two dicts hold each other, and with
    [max_recursion_depth = 0] the inner dict is cut by the depth limit
    before the chain comes back: no [!recursive_repr] in the text.  With
    [max_entries = 0] the loop stops before the first entry.  A set whose
    address is open renders as [<set !recursion_depth>] when the depth
    limit is passed, since its depth check comes before the guard, and an
    open dict with an invalid reason renders that reason. *)
Lemma repr_cycle_without_marker :
  is_walk heap_two_dicts 0x1000 [0x2000; 0x1000]
  /\ Traversal_repr 3 heap_two_dicts (traversal_top 0 (-1)) 0x1000
     = Some ("{'a': <dict !recursion_depth len=1>}", traversal_top 0 (-1))
  /\ is_infix recursive_marker "{'a': <dict !recursion_depth len=1>}" = false
  /\ Traversal_repr 3 heap_two_dicts (traversal_top 5 0) 0x1000
     = Some ("{}", traversal_top 5 0)
  /\ Traversal_repr 2 heap_self_set (mkTraversal 1 0 (-1) {[0x1000]}) 0x1000
     = Some ("<set !recursion_depth>", mkTraversal 1 0 (-1) {[0x1000]}).
Proof.
  split.
  { repeat split; apply (bool_decide_unpack _); vm_compute; reflexivity. }
  repeat split; vm_compute; reflexivity.
Qed.

Lemma repr_cycle_guard_witness :
  (exists s,
      Traversal_repr 3 heap_two_dicts (traversal_top 2 (-1)) 0x1000
      = Some (s, traversal_top 2 (-1))
      /\ is_infix recursive_marker s = true)
  /\ Traversal_repr 1 heap_two_dicts (mkTraversal 1 2 (-1) {[0x1000]}) 0x1000
     = Some ("<dict !recursive_repr>", mkTraversal 1 2 (-1) {[0x1000]})
  /\ Traversal_repr 1 heap_self_set (mkTraversal 1 2 (-1) {[0x1000]}) 0x1000
     = Some ("<set !recursive_repr>", mkTraversal 1 2 (-1) {[0x1000]}).
Proof.
  split; [|split].
  - destruct (repr_cycle_guard heap_two_dicts (traversal_top 2 (-1)) 0x1000)
      as (_ & _ & _ & H).
    apply (H [0x2000; 0x1000]).
    + reflexivity.
    + reflexivity.
    + repeat split; apply (bool_decide_unpack _); vm_compute; reflexivity.
    + intros Hnd. apply NoDup_cons in Hnd as [Hnot _]. apply Hnot.
      apply (bool_decide_unpack _). vm_compute. reflexivity.
    + cbn. lia.
  - destruct (repr_cycle_guard heap_two_dicts (mkTraversal 1 2 (-1) {[0x1000]}) 0x1000)
      as (_ & H & _).
    apply (H 0%nat (dict_of [SlotEntry 0x10 0x2000])); reflexivity.
  - destruct (repr_cycle_guard heap_self_set (mkTraversal 1 2 (-1) {[0x1000]}) 0x1000)
      as (_ & _ & H & _).
    apply (H 0%nat (mkSet None [0x1000; 0x10])); reflexivity.
Defined.

(** ** More of MemoryReader *)

Lemma read_in_view r v addr size :
  regions_wf r = true -> v ∈ regions_by_mapped r -> in_view v addr ->
  0 <= size -> addr + size <= v_addr v + v_size v ->
  read r addr size = Ok (string_reader (v_data v) (addr - v_addr v) size).
Proof.
  intros Hwf Hin Hv Hsize Hend.
  pose proof (view_ok_spec v (regions_wf_view_ok r v Hwf Hin)) as Hvok.
  unfold read. rewrite (find_region_hit r v addr) by done.
  unfold in_view in *. cbn [bind_result]. cbn zeta. unfold MappedPtr.bytes_until.
  rewrite (wrap64_small (addr - v_addr v)) by (unfold in_u64; lia).
  rewrite (wrap64_small (addr - v_addr v + size)) by (unfold in_u64; lia).
  destruct (Z.gtb_spec (addr - v_addr v + size) (v_size v)); [lia|].
  destruct (Z.ltb_spec (addr - v_addr v + size) (addr - v_addr v)); [lia|done].
Qed.

Lemma read_inv r addr size bs :
  regions_wf r = true -> in_u64 size -> read r addr size = Ok bs ->
  exists v, v ∈ regions_by_mapped r /\ in_view v addr
    /\ addr + size <= v_addr v + v_size v
    /\ bs = string_reader (v_data v) (addr - v_addr v) size.
Proof.
  intros Hwf Hsize Hread.
  assert (is_ok (read r addr size) = true) as Hok by by rewrite Hread.
  apply read_ok_iff in Hok as (v & Hin & Hv & Hend); [|done..].
  exists v. repeat split; try done; try apply Hv.
  rewrite (read_in_view r v addr size) in Hread
    by (done || (unfold in_u64 in Hsize; lia)).
  congruence.
Qed.

Lemma string_reader_length data offset size :
  0 <= offset -> 0 <= size -> offset + size <= Z.of_nat (length data) ->
  Z.of_nat (length (string_reader data offset size)) = size.
Proof.
  intros. unfold string_reader. rewrite length_take, length_drop. lia.
Qed.

(** X1.  [exists(addr)] holds exactly for the bytes of the regions of a
    well-formed snapshot, and agrees with [exists_range] for ranges of no
    byte and of one byte. *)
Theorem exists_iff_mapped r addr :
  regions_wf r = true ->
  (reader_exists r addr = true
   <-> exists v, v ∈ regions_by_mapped r /\ in_view v addr)
  /\ exists_range r addr 0 = reader_exists r addr
  /\ exists_range r addr 1 = reader_exists r addr.
Proof.
  intros Hwf. split; [by apply reader_exists_iff|].
  unfold exists_range, reader_exists.
  destruct (find_region_by_mapped_addr r addr) as [v|] eqn:H; [|done].
  apply find_region_inv in H as [Hin Hv]; [|done].
  pose proof (view_ok_spec v (regions_wf_view_ok r v Hwf Hin)) as Hvok.
  unfold in_view in Hv. unfold MappedPtr.bytes_until, MappedPtr.offset_bytes. cbn.
  rewrite (wrap64_small (addr + 0)), (wrap64_small (addr + 1))
    by (unfold in_u64; lia).
  rewrite !wrap64_small by (unfold in_u64; lia).
  split; apply Z.leb_le; lia.
Qed.

Lemma exists_iff_mapped_witness :
  reader_exists reader_one_page 0x1FFF = true
  /\ exists_range reader_one_page 0x2000 1 = reader_exists reader_one_page 0x2000.
Proof.
  destruct (exists_iff_mapped reader_one_page 0x1FFF) as (H & _ & _); [reflexivity|].
  destruct (exists_iff_mapped reader_one_page 0x2000) as (_ & _ & H1); [reflexivity|].
  split; [|exact H1]. apply H.
  exists (mkView 0x1000 0 (repeat Byte.x00 4096) 0x1000). split.
  - apply list_elem_of_singleton. reflexivity.
  - unfold in_view. cbn. lia.
Defined.

(** X2.  [read_to_end(addr)] succeeds exactly where [exists(addr)] holds;
    it yields the bytes from [addr] to the end of the region of [addr], at
    least one, the same as [read] for that many bytes; its own range check
    never fires. *)
Theorem read_to_end_spec r addr :
  regions_wf r = true ->
  is_ok (read_to_end r addr) = reader_exists r addr
  /\ read_to_end r addr <> Throw (out_of_range "Read begins beyond end of region")
  /\ forall v, v ∈ regions_by_mapped r -> in_view v addr ->
       read_to_end r addr = Ok (drop (Z.to_nat (addr - v_addr v)) (v_data v))
       /\ read_to_end r addr = read r addr (v_addr v + v_size v - addr)
       /\ Z.of_nat (length (drop (Z.to_nat (addr - v_addr v)) (v_data v)))
          = v_addr v + v_size v - addr.
Proof.
  intros Hwf.
  assert (forall v, v ∈ regions_by_mapped r -> in_view v addr ->
            read_to_end r addr = Ok (drop (Z.to_nat (addr - v_addr v)) (v_data v))
            /\ Z.of_nat (length (v_data v)) = v_size v) as Hhit.
  { intros v Hin Hv.
    pose proof (view_ok_spec v (regions_wf_view_ok r v Hwf Hin)) as Hvok.
    unfold read_to_end. rewrite (find_region_hit r v addr) by done.
    unfold in_view in Hv. cbn [bind_result]. cbn zeta. unfold MappedPtr.bytes_until.
    rewrite (wrap64_small (addr - v_addr v)) by (unfold in_u64; lia).
    rewrite (wrap64_small (v_size v - _)) by (unfold in_u64; lia).
    destruct (Z.gtb_spec (addr - v_addr v) (v_size v)); [lia|].
    split; [|lia]. f_equal. unfold string_reader. apply take_ge.
    rewrite length_drop. lia. }
  split; [|split].
  - unfold reader_exists, read_to_end.
    destruct (find_region_by_mapped_addr r addr) as [v|] eqn:H; [|done].
    apply find_region_inv in H as [Hin Hv]; [|done].
    destruct (Hhit v Hin Hv) as [Hr _]. unfold read_to_end in Hr.
    rewrite (find_region_hit r v addr) in Hr by done. by rewrite Hr.
  - unfold read_to_end.
    destruct (find_region_by_mapped_addr r addr) as [v|e] eqn:H.
    + apply find_region_inv in H as [Hin Hv]; [|done].
      destruct (Hhit v Hin Hv) as [Hr _]. unfold read_to_end in Hr.
      rewrite (find_region_hit r v addr) in Hr by done. by rewrite Hr.
    + unfold find_region_by_mapped_addr in H. cbn.
      destruct (upper_bound_prev _ _ _); [|congruence].
      destruct (_ <=? _); congruence.
  - intros v Hin Hv. destruct (Hhit v Hin Hv) as [Hr Hlen].
    pose proof (view_ok_spec v (regions_wf_view_ok r v Hwf Hin)) as Hvok.
    unfold in_view in Hv. split; [done|]. split.
    + rewrite Hr, (read_in_view r v addr) by (done || lia).
      f_equal. unfold string_reader. symmetry. apply take_ge.
      rewrite length_drop. lia.
    + rewrite length_drop. lia.
Qed.

Lemma read_to_end_spec_witness :
  read_to_end reader_one_page 0x1FFE = Ok [Byte.x00; Byte.x00]
  /\ read_to_end reader_one_page 0x1FFE = read reader_one_page 0x1FFE 2.
Proof.
  destruct (read_to_end_spec reader_one_page 0x1FFE) as (_ & _ & H); [reflexivity|].
  destruct (H (mkView 0x1000 0 (repeat Byte.x00 4096) 0x1000)) as (H1 & H2 & _).
  - apply list_elem_of_singleton. reflexivity.
  - unfold in_view. cbn. lia.
  - split; [exact H1|exact H2].
Defined.

(** X3.  [region_for_address(addr)] returns the one entry of
    [all_regions()] whose range holds [addr], and throws when there is
    none. *)
Theorem region_for_address_iff r addr start size :
  regions_wf r = true ->
  region_for_address r addr = Ok (start, size)
  <-> (start, size) ∈ all_regions r /\ start <= addr < start + size.
Proof.
  intros Hwf. unfold region_for_address, all_regions. split.
  - destruct (find_region_by_mapped_addr r addr) as [v|] eqn:H; [|done].
    apply find_region_inv in H as [Hin Hv]; [|done].
    cbn. intros [= <- <-]. split; [|done].
    by apply (list_elem_of_fmap_2 (fun v => (v_addr v, v_size v))).
  - intros [(v & [= -> ->] & Hin)%list_elem_of_fmap Hv].
    by rewrite (find_region_hit r v addr).
Qed.

Lemma region_for_address_iff_witness :
  region_for_address reader_adjacent 0x2000 = Ok (0x2000, 0x1000).
Proof.
  apply (region_for_address_iff reader_adjacent 0x2000 0x2000 0x1000).
  - reflexivity.
  - split; [|lia]. apply (bool_decide_unpack _). vm_compute. reflexivity.
Defined.

(** X4.  A read can be split: the first [n1] bytes of [read(addr, n1 + n2)]
    are [read(addr, n1)] and the rest is [read(addr + n1, n2)]; a read
    returns as many bytes as it was asked for. *)
Theorem read_split r addr n1 n2 bs :
  regions_wf r = true -> 0 <= n1 -> 0 < n2 -> n1 + n2 < 2 ^ 64 ->
  read r addr (n1 + n2) = Ok bs ->
  read r addr n1 = Ok (take (Z.to_nat n1) bs)
  /\ read r (addr + n1) n2 = Ok (drop (Z.to_nat n1) bs)
  /\ Z.of_nat (length bs) = n1 + n2.
Proof.
  intros Hwf Hn1 Hn2 Hsum Hread.
  apply read_inv in Hread as (v & Hin & Hv & Hend & ->);
    [|done|unfold in_u64; lia].
  pose proof (view_ok_spec v (regions_wf_view_ok r v Hwf Hin)) as Hvok.
  unfold in_view in Hv.
  rewrite (read_in_view r v addr n1) by (done || lia).
  rewrite (read_in_view r v (addr + n1) n2) by (done || unfold in_view; lia).
  unfold string_reader. split; [|split].
  - f_equal. rewrite take_take. f_equal. lia.
  - f_equal. rewrite (Z2Nat.inj_add n1 n2) by lia.
    rewrite <- take_drop_commute, drop_drop. do 2 f_equal. lia.
  - rewrite length_take, length_drop. lia.
Qed.

Lemma read_split_witness :
  read reader_one_page 0x1800 3 = Ok (take 3 (repeat Byte.x00 8))
  /\ read reader_one_page 0x1803 5 = Ok (drop 3 (repeat Byte.x00 8)).
Proof.
  destruct (read_split reader_one_page 0x1800 3 5 (repeat Byte.x00 8))
    as (H1 & H2 & _); try lia; try reflexivity.
  split; [exact H1|exact H2].
Defined.

(** X5.  An address that [obj_valid<T>] accepts is not null, is aligned,
    and [get<T>] succeeds on it with [sizeof(T)] bytes, when the object
    does not reach past the end of the 64-bit address space. *)
Theorem obj_valid_get r sizeof_T addr alignment :
  regions_wf r = true -> 0 <= sizeof_T -> addr + sizeof_T < 2 ^ 64 ->
  obj_valid r sizeof_T addr alignment = true ->
  addr <> 0 /\ Z.land addr (wrap64 (alignment - 1)) = 0
  /\ exists bs, get r sizeof_T addr = Ok bs /\ Z.of_nat (length bs) = sizeof_T.
Proof.
  intros Hwf Hsz Hend (Hnn & Hal & Hex)%obj_valid_spec.
  split; [done|]. split; [done|].
  destruct (exists_range_read_no_wrap r addr sizeof_T) as (v & Hin & Hv & Hread);
    [done| |done|done|].
  { unfold exists_range in Hex.
    destruct (find_region_by_mapped_addr r addr) as [v|] eqn:H; [|done].
    apply find_region_inv in H as [Hin Hv]; [|done].
    pose proof (view_ok_spec v (regions_wf_view_ok r v Hwf Hin)).
    unfold in_view in Hv. unfold in_u64. lia. }
  unfold get. rewrite Hread. eexists. split; [done|].
  pose proof (view_ok_spec v (regions_wf_view_ok r v Hwf Hin)).
  apply read_inv in Hread as (w & Hw & Hwv & Hwend & _);
    [|done|unfold in_view, in_u64 in *; lia].
  assert (w = v) as ->.
  { pose proof (find_region_hit r w addr Hwf Hw Hwv).
    pose proof (find_region_hit r v addr Hwf Hin Hv). congruence. }
  unfold in_view in Hv. rewrite length_take, length_drop. lia.
Qed.

Lemma obj_valid_get_witness :
  exists bs, get reader_one_page 16 0x1FF0 = Ok bs /\ Z.of_nat (length bs) = 16.
Proof.
  destruct (obj_valid_get reader_one_page 16 0x1FF0 8) as (_ & _ & H);
    [reflexivity|lia|lia|reflexivity|exact H].
Defined.

(** X6.  [offset_bytes] and [bytes_until] undo each other on 64-bit
    values, also across the wrap-around of the address space. *)
Theorem offset_bytes_until_round_trip p n q :
  in_u64 p -> in_u64 n -> in_u64 q ->
  MappedPtr.bytes_until p (MappedPtr.offset_bytes p n) = n
  /\ MappedPtr.offset_bytes p (MappedPtr.bytes_until p q) = q.
Proof.
  unfold in_u64, MappedPtr.bytes_until, MappedPtr.offset_bytes, wrap64.
  intros Hp Hn Hq. split.
  - rewrite Zminus_mod_idemp_l. replace (p + n - p) with n by lia.
    apply Z.mod_small. lia.
  - rewrite Zplus_mod_idemp_r. replace (p + (q - p)) with q by lia.
    apply Z.mod_small. lia.
Qed.

Lemma offset_bytes_until_round_trip_witness :
  MappedPtr.bytes_until (2 ^ 64 - 8) (MappedPtr.offset_bytes (2 ^ 64 - 8) 16) = 16
  /\ MappedPtr.offset_bytes (2 ^ 64 - 8) (MappedPtr.bytes_until (2 ^ 64 - 8) 8) = 8.
Proof.
  apply (offset_bytes_until_round_trip (2 ^ 64 - 8) 16 8); unfold in_u64; lia.
Defined.

Lemma hex_digits_all_hex n x :
  Forall (fun c => is_hex_digit c = true) (hex_digits n x).
Proof.
  revert x. induction n as [|n IH]; intros x; cbn; [constructor|].
  apply Forall_app. split; [apply IH|]. constructor; [|constructor].
  assert (0 <= x mod 16 < 16) as Hd by (apply Z.mod_pos_bound; lia).
  unfold hex_digit.
  assert (Z.to_nat (x mod 16) < 16)%nat as Hlt by lia.
  destruct (Z.to_nat (x mod 16)) as [|[|[|[|[|[|[|[|[|[|[|[|[|[|[|[|k]]]]]]]]]]]]]]]];
    try reflexivity; lia.
Qed.

(** X7.  The format of a [MappedPtr] is sixteen upper-case hexadecimal
    digits, and two 64-bit addresses with the same text are equal. *)
Theorem format_addr_sixteen_digits a b :
  in_u64 a -> in_u64 b ->
  String.length (format_addr a) = 16%nat
  /\ Forall (fun c => is_hex_digit c = true) (list_ascii_of_string (format_addr a))
  /\ (format_addr a = format_addr b -> a = b).
Proof.
  intros Ha Hb. unfold format_addr. split; [|split].
  - rewrite <- (hex_digits_length 16 a) at 2.
    generalize (hex_digits 16 a). intros l. induction l; cbn; congruence.
  - rewrite list_ascii_of_string_of_list_ascii. apply hex_digits_all_hex.
  - by apply format_addr_inj.
Qed.

Lemma format_addr_sixteen_digits_witness :
  String.length (format_addr 0x7ADDBEB44E10) = 16%nat
  /\ Forall (fun c => is_hex_digit c = true)
            (list_ascii_of_string (format_addr 0x7ADDBEB44E10))
  /\ (format_addr 0x7ADDBEB44E10 = format_addr 0x7ADDBEB44E10
      -> 0x7ADDBEB44E10 = 0x7ADDBEB44E10).
Proof.
  apply (format_addr_sixteen_digits 0x7ADDBEB44E10 0x7ADDBEB44E10);
    unfold in_u64; lia.
Defined.

(** ** More of the scanner *)

Lemma read_throws_out_of_range r addr size e :
  read r addr size = Throw e -> exists what, e = out_of_range what.
Proof.
  unfold read, find_region_by_mapped_addr.
  destruct (upper_bound_prev _ _ _) as [v|]; cbn; [|intros [= <-]; eauto].
  destruct (_ <=? addr); cbn; [intros [= <-]; eauto|].
  destruct (_ || _); [intros [= <-]; eauto|done].
Qed.

Lemma region_readers_throws_out_of_range r regions e :
  region_readers r regions = Throw e -> exists what, e = out_of_range what.
Proof.
  induction regions as [|rgn regions IH]; cbn; [done|].
  destruct (read r rgn.1 rgn.2) eqn:Hread; cbn.
  - destruct (region_readers r regions); cbn; [done|].
    intros [= <-]. by apply IH.
  - intros [= <-]. by eapply read_throws_out_of_range.
Qed.

Lemma stride_test_accepted :
  forallb (fun s => Bool.eqb (Z.land s (wrap64 (s - 1)) =? 0)
                             (bool_decide (s ∈ accepted_strides)))
          (map Z.of_nat (seq 0 4097)) = true.
Proof. vm_compute. reflexivity. Qed.

(** X8.  [map_all_addresses] throws a [logic_error] exactly for the
    strides other than 0, 1, 2, 4, ..., 4096, whatever the snapshot, the
    threads and the schedule; a stride of 0 passes both tests. *)
Theorem map_all_addresses_accepted_strides hw r stride num_threads object_size sched :
  in_u64 stride ->
  (exists what, map_all_addresses hw r stride num_threads object_size sched
                = Some (Throw (logic_error what)))
  <-> stride ∉ accepted_strides.
Proof.
  intros Hu.
  assert (stride <= block_stride ->
          (Z.land stride (wrap64 (stride - 1)) =? 0)
          = bool_decide (stride ∈ accepted_strides)) as Hsmall.
  { intros Hle. pose proof stride_test_accepted as H.
    rewrite forallb_forall in H. specialize (H stride).
    apply Bool.eqb_prop, H, in_map_iff. exists (Z.to_nat stride).
    unfold in_u64, block_stride in *. split; [lia|]. apply in_seq. lia. }
  assert (block_stride < stride -> stride ∉ accepted_strides) as Hlarge.
  { intros Hgt Hin. unfold accepted_strides, block_stride in *.
    repeat (apply elem_of_cons in Hin as [->|Hin]; [lia|]).
    by apply elem_of_nil in Hin. }
  unfold map_all_addresses.
  destruct (Z.gtb_spec stride block_stride) as [Hgt|Hle].
  - split; [intros _; by apply Hlarge|]. intros _.
    destruct (negb _); eauto.
  - rewrite (Hsmall Hle). case_bool_decide as Hin; cbn [negb].
    + split; [|done]. intros [what H]. exfalso.
      destruct (region_readers r (all_regions r)) eqn:Hrr.
      * destruct (_ && _); done.
      * apply region_readers_throws_out_of_range in Hrr as [w ->]. done.
    + split; [done|]. eauto.
Qed.

Lemma map_all_addresses_accepted_strides_witness :
  exists what, map_all_addresses 4 reader_one_page 24 2 8 []
               = Some (Throw (logic_error what)).
Proof.
  apply (map_all_addresses_accepted_strides 4 reader_one_page 24 2 8 []).
  - unfold in_u64. lia.
  - apply (bool_decide_unpack _). vm_compute. reflexivity.
Defined.

Lemma wf_sum_sizes_bound m v :
  forallb view_ok (v :: m) = true -> regions_sorted (v :: m) = true ->
  v_addr v + sum_sizes (map (fun v => (v_addr v, v_size v)) (v :: m)) < 2 ^ 64
  /\ Forall (fun rgn => 0 <= rgn.2) (map (fun v => (v_addr v, v_size v)) (v :: m)).
Proof.
  revert v. induction m as [|w m IH]; intros v Hok Hs.
  - cbn in Hok. rewrite andb_true_r in Hok. apply view_ok_spec in Hok.
    cbn. split; [lia|]. constructor; [cbn; lia|constructor].
  - pose proof (regions_sorted_later v (w :: m) Hok Hs) as Hlater.
    apply Forall_cons in Hlater as [Hvw _].
    cbn [forallb] in Hok. apply andb_prop in Hok as [Hv Hok].
    cbn [regions_sorted] in Hs. apply andb_prop in Hs as [_ Hs].
    destruct (IH w Hok Hs) as [Hb Hnn]. apply view_ok_spec in Hv.
    change (map ?f (v :: w :: m)) with (f v :: map f (w :: m)).
    rewrite sum_sizes_cons. cbn [snd] in *. split; [lia|].
    constructor; [cbn; lia|done].
Qed.

Lemma ss_back_total r stride object_size :
  regions_wf r = true ->
  ss_back (setup_of r stride object_size) = total_size r
  /\ 0 <= total_size r < 2 ^ 64.
Proof.
  intros [Hok Hs]%regions_wf_spec. unfold total_size, ss_back, setup_of. cbn.
  assert (Forall (fun rgn => 0 <= rgn.2) (all_regions r)
          /\ sum_sizes (all_regions r) < 2 ^ 64) as [Hnn Hlt].
  { unfold all_regions. destruct (regions_by_mapped r) as [|v m]; [by cbn|].
    destruct (wf_sum_sizes_bound m v Hok Hs) as [Hb Hnn]. split; [done|].
    apply forallb_forall with (x := v) in Hok; [|by left].
    apply view_ok_spec in Hok. lia. }
  split; [|split; [by apply sum_sizes_nonneg|done]].
  rewrite last_lookup, region_start_offsets_length. cbn.
  rewrite region_start_offsets_lookup by done. cbn. by rewrite firstn_all.
Qed.

Lemma first_block_fetch r object_size v m :
  regions_wf r = true -> regions_by_mapped r = v :: m -> 0 < v_size v ->
  exists addr, fetch_step (setup_of r 0 object_size) 0 0 = InBlock 0 0 0 addr 0.
Proof.
  intros Hwf Hr Hv.
  destruct (ss_back_total r 0 object_size Hwf) as [Hback Htot].
  assert (view_ok v = true) as Hvok%view_ok_spec
    by (apply (regions_wf_view_ok r); [done|rewrite Hr; by left]).
  assert (v_size v <= total_size r) as Hle.
  { unfold total_size, all_regions. rewrite Hr. cbn [map].
    rewrite sum_sizes_cons. cbn [snd].
    apply regions_wf_spec in Hwf as [Hok Hs]. rewrite Hr in Hok, Hs.
    destruct (wf_sum_sizes_bound m v Hok Hs) as [_ Hnn].
    apply Forall_cons in Hnn as [_ Hnn].
    assert (0 <= sum_sizes (map (fun v0 => (v_addr v0, v_size v0)) m))
      by (apply sum_sizes_nonneg; exact Hnn).
    lia. }
  unfold fetch_step. rewrite Hback.
  destruct (Z.ltb_spec 0 (total_size r)); [|lia].
  unfold setup_of, block_limit, all_regions. rewrite Hr. simpl.
  rewrite (wrap64_small (0 + v_size v)) by (unfold in_u64; lia).
  destruct (Z.geb_spec 0 (0 + v_size v)); [lia|].
  unfold region_start_offsets. simpl.
  rewrite (wrap64_small (0 + v_size v)) by (unfold in_u64; lia).
  pose proof (wrap64_range (0 + v_size v - object_size)) as Hlim.
  unfold in_u64 in Hlim.
  destruct (Z.leb_spec 0 (wrap64 (0 + v_size v - object_size))); [|lia].
  eauto.
Qed.

Lemma first_block_loop r object_size v m addr :
  regions_by_mapped r = v :: m ->
  exists a,
    loop_step (setup_of r 0 object_size) 0 0 0 addr 0
    = (InBlock 0 0 0 addr 0, Some a).
Proof.
  intros Hr. unfold loop_step, block_limit, setup_of, all_regions. rewrite Hr.
  unfold region_start_offsets. simpl.
  pose proof (wrap64_range (wrap64 (0 + v_size v) - object_size)) as Hlim.
  unfold in_u64 in Hlim. change (wrap64 (0 + 0)) with 0.
  destruct (Z.gtb_spec 0 (wrap64 (wrap64 (0 + v_size v) - object_size))); [lia|].
  eauto.
Qed.

Lemma first_block_open_step r object_size v m st i :
  regions_wf r = true -> regions_by_mapped r = v :: m -> 0 < v_size v ->
  first_block_open st ->
  first_block_open (thread_step (setup_of r 0 object_size) st i).
Proof.
  intros Hwf Hr Hv [[Hc Hall]|(j & addr & Hj)]; unfold thread_step.
  - destruct (threads st !! i) as [ts|] eqn:Hi; [|by left].
    rewrite Forall_lookup in Hall. rewrite (Hall i ts Hi), Hc.
    destruct (first_block_fetch r object_size v m Hwf Hr Hv) as [addr ->].
    right. exists i, addr. cbn. apply list_lookup_insert_eq.
    by eapply lookup_lt_Some.
  - destruct (decide (i = j)) as [->|Hne].
    + rewrite Hj.
      destruct (first_block_loop r object_size v m addr Hr) as [a ->].
      right. exists j, addr. cbn. apply list_lookup_insert_eq.
      by eapply lookup_lt_Some.
    + right. exists j, addr.
      destruct (threads st !! i) as [[cur|cur o w a z| |]|]; [| |done..].
      * cbn. by rewrite list_lookup_insert_ne.
      * destruct (loop_step _ _ _ _ _ _). cbn. by rewrite list_lookup_insert_ne.
Qed.

(** X9.  A stride of 0 passes the tests at the head of
    [map_all_addresses], and then the scan never returns: the worker that
    takes the first block calls [fn] on its first address again and again
    ([z += 0]), so the main thread never joins it. *)
Theorem scan_stride_zero_never_returns hw r num_threads object_size sched :
  regions_wf r = true -> regions_nonempty r = true -> regions_by_mapped r <> [] ->
  map_all_addresses hw r 0 num_threads object_size sched = None.
Proof.
  intros Hwf Hne Hr.
  destruct (regions_by_mapped r) as [|v m] eqn:Hrv; [done|].
  assert (0 < v_size v) as Hv.
  { unfold regions_nonempty in Hne. rewrite Hrv in Hne. cbn in Hne.
    apply andb_prop in Hne as [Hne _]. by apply Z.ltb_lt. }
  unfold map_all_addresses. cbn [Z.land negb Z.eqb].
  change (0 >? block_stride) with false. cbn match.
  pose proof (region_readers_ok r Hwf Hne) as Hrr.
  destruct (region_readers r (all_regions r)); [|done].
  fold (setup_of r 0 object_size).
  set (nt := if (num_threads =? 0)%nat then hw else num_threads).
  assert (first_block_open (run_threads (setup_of r 0 object_size) nt sched)) as Hopen.
  { unfold run_threads.
    assert (first_block_open (mkScan 0 (replicate nt (Fetching 0)) [])) as H0.
    { left. split; [done|]. by apply Forall_replicate. }
    revert H0. generalize (mkScan 0 (replicate nt (Fetching 0)) []).
    induction sched as [|i sched IH]; intros st0 H0; [done|].
    cbn. apply IH. by eapply first_block_open_step. }
  destruct Hopen as [[Hc _]|(i & addr & Hi)].
  - rewrite Hc. destruct (ss_back_total r 0 object_size Hwf) as [-> _].
    assert (v_size v <= total_size r) as Hle.
    { unfold total_size, all_regions. rewrite Hrv. cbn [map].
      rewrite sum_sizes_cons. cbn [snd].
      apply regions_wf_spec in Hwf as [Hok Hs]. rewrite Hrv in Hok, Hs.
      destruct (wf_sum_sizes_bound m v Hok Hs) as [_ Hnn].
      apply Forall_cons in Hnn as [_ Hnn].
      assert (0 <= sum_sizes (map (fun v0 => (v_addr v0, v_size v0)) m))
        by (apply sum_sizes_nonneg; exact Hnn).
      lia. }
    destruct (Z.leb_spec (total_size r) 0); [lia|done].
  - assert (forallb is_joined
              (threads (run_threads (setup_of r 0 object_size) nt sched)) = false)
      as ->; [|by rewrite andb_false_r].
    apply not_true_is_false. intros Hall. rewrite forallb_forall in Hall.
    specialize (Hall (InBlock 0 0 0 addr 0)). cbn in Hall.
    assert (false = true); [|done].
    apply Hall. apply list_elem_of_In. by eapply list_elem_of_lookup_2.
Qed.

Lemma scan_stride_zero_never_returns_witness :
  map_all_addresses 4 reader_one_page 0 2 8 (replicate 1000 0%nat ++ [1%nat]) = None.
Proof.
  apply (scan_stride_zero_never_returns 4 reader_one_page 2 8); [reflexivity..|done].
Defined.

Lemma thread_step_thread_index S st i n :
  length (threads st) = n -> Forall (fun c => (c.2 < n)%nat) (calls st) ->
  length (threads (thread_step S st i)) = n
  /\ Forall (fun c => (c.2 < n)%nat) (calls (thread_step S st i)).
Proof.
  intros Hlen Hcalls. unfold thread_step.
  destruct (threads st !! i) as [[cur|cur o w a z| |]|] eqn:Hi; try done.
  - cbn. by rewrite length_insert.
  - destruct (loop_step S cur o w a z) as [ts [c|]]; cbn;
      rewrite length_insert; (split; [done|]); [|done].
    apply Forall_app. split; [done|]. constructor; [|constructor].
    cbn. rewrite <- Hlen. by eapply lookup_lt_Some.
Qed.

(** X10.  The thread index that [map_all_addresses] hands to [fn] is
    below the number of worker threads (the number asked for, or
    [hardware_concurrency()] when that is 0): a per-thread vector of that
    size, as [count-by-type] keeps, is never indexed past its end. *)
Theorem map_all_addresses_thread_index hw r stride num_threads object_size sched cs :
  map_all_addresses hw r stride num_threads object_size sched = Some (Ok cs) ->
  Forall (fun c => (c.2 < (if (num_threads =? 0)%nat then hw else num_threads))%nat) cs.
Proof.
  intros H. apply map_all_addresses_inv in H as (_ & _ & _ & ->).
  cbn zeta. set (nt := if (num_threads =? 0)%nat then hw else num_threads).
  unfold run_threads.
  assert (forall st,
            length (threads st) = nt -> Forall (fun c => (c.2 < nt)%nat) (calls st) ->
            Forall (fun c => (c.2 < nt)%nat)
              (calls (fold_left (thread_step (setup_of r stride object_size)) sched st)))
    as Hfold.
  { induction sched as [|i sched IH]; intros st Hlen Hcalls; [done|].
    cbn. destruct (thread_step_thread_index (setup_of r stride object_size) st i nt)
      as [Hlen' Hcalls']; [done..|].
    by apply IH. }
  apply Hfold; cbn; [apply length_replicate|constructor].
Qed.

Lemma map_all_addresses_thread_index_witness :
  exists cs,
    map_all_addresses 4 reader_two_pages 2048 2 8 schedule_first_block_first
    = Some (Ok cs)
    /\ Forall (fun c => (c.2 < 2)%nat) cs.
Proof.
  eexists. split; [vm_compute; reflexivity|].
  apply (map_all_addresses_thread_index 4 reader_two_pages 2048 2 8
           schedule_first_block_first).
  vm_compute. reflexivity.
Defined.

(** ** Commands that filter a scan *)

(** What a scan that returns has called [fn] on, for the snapshots whose
    regions the blocks tile. *)
Lemma scan_calls_covered hw r stride num_threads object_size sched cs :
  let nt := if (num_threads =? 0)%nat then hw else num_threads in
  regions_wf r = true -> regions_nonempty r = true -> block_tiled r = true ->
  0 < stride -> 1 <= object_size ->
  (forall v, head (regions_by_mapped r) = Some v -> object_size <= v_size v) ->
  total_size r + block_stride * (Z.of_nat nt + 1) < 2 ^ 64 ->
  map_all_addresses hw r stride num_threads object_size sched = Some (Ok cs) ->
  NoDup cs.*1 /\ forall a, a ∈ cs.*1 <-> covered r stride object_size a.
Proof.
  intros nt Hwf Hne Htile Hpos Hosz Hfirst Htotal H. unfold map_all_addresses in H.
  destruct (negb _) eqn:Hg1 in H; [done|].
  destruct (Z.gtb_spec stride block_stride) as [|Hle] in H; [done|].
  destruct (region_readers r (all_regions r)) in H; [|done].
  fold nt in H. fold (setup_of r stride object_size) in H.
  destruct (_ && _) eqn:Hret in H; [|done].
  injection H as <-. apply andb_prop in Hret as [Hc Hj]. apply Z.leb_le in Hc.
  rewrite wrap64_small in Hg1 by (unfold in_u64, block_stride in *; lia).
  apply negb_false_iff, Z.eqb_eq in Hg1.
  pose proof (pow2_divides_block stride ltac:(lia) Hg1) as Hdiv.
  pose proof (setup_of_ok r stride object_size nt Hwf ltac:(lia) Htotal) as HS.
  pose proof (run_threads_calls _ nt HS sched Hc Hj) as Hperm.
  split.
  - rewrite Hperm. by apply (future_NoDup r stride object_size nt).
  - intros x. rewrite Hperm. by apply (future_covered r stride object_size nt).
Qed.

Lemma covered_in_region r stride object_size a :
  0 <= object_size -> covered r stride object_size a ->
  exists v, v ∈ regions_by_mapped r /\ v_addr v <= a
            /\ a + object_size <= v_addr v + v_size v.
Proof. intros Hsz (v & o & Hin & Ho & _ & ->). exists v. split; [done|lia]. Qed.

Lemma le_bytes_value_inj bs1 bs2 :
  length bs1 = length bs2 -> le_bytes_value bs1 = le_bytes_value bs2 -> bs1 = bs2.
Proof.
  revert bs2. induction bs1 as [|b1 bs1 IH]; intros [|b2 bs2] Hlen Hval; try done.
  cbn in Hval, Hlen.
  pose proof (Byte.to_N_bounded b1). pose proof (Byte.to_N_bounded b2).
  assert (Byte.to_N b1 = Byte.to_N b2 /\ le_bytes_value bs1 = le_bytes_value bs2)
    as [Hb Hrest] by lia.
  f_equal; [|apply IH; [lia|done]].
  pose proof (Byte.of_to_N b1) as H1. pose proof (Byte.of_to_N b2) as H2.
  rewrite Hb in H1. congruence.
Qed.

(** On an object that lies in a region, both comparisons of [find] test
    that the bytes at the address are [data]. *)
Lemma find_matches_spec r data alignment a :
  regions_wf r = true -> data <> [] ->
  (exists v, v ∈ regions_by_mapped r /\ v_addr v <= a
             /\ a + Z.of_nat (length data) <= v_addr v + v_size v) ->
  find_matches r data alignment a = true
  <-> value_at r a (Z.of_nat (length data)) = Ok data.
Proof.
  intros Hwf Hdata (v & Hin & Hlo & Hhi).
  assert (0 < Z.of_nat (length data)) as Hlen by (destruct data; [done|cbn; lia]).
  pose proof (view_ok_spec v (regions_wf_view_ok r v Hwf Hin)) as Hvok.
  assert (in_view v a) as Hv by (unfold in_view; lia).
  assert (forall n, n = Z.of_nat (length data) ->
            exists bs, value_at r a n = Ok bs /\ length bs = length data) as Hread.
  { intros n ->. unfold value_at. rewrite (read_in_view r v a) by (done || lia).
    eexists. split; [done|].
    apply Nat2Z.inj, string_reader_length; lia. }
  unfold find_matches.
  destruct ((Z.of_nat (length data) =? 8) && (alignment =? 8)) eqn:Hcase.
  - apply andb_prop in Hcase as [H8%Z.eqb_eq _]. rewrite H8.
    destruct (Hread 8 ltac:(done)) as (bs & -> & Hbs). split.
    + intros Heq%Z.eqb_eq. f_equal. by apply le_bytes_value_inj.
    + intros [= ->]. by apply Z.eqb_eq.
  - destruct (Hread _ eq_refl) as (bs & -> & Hbs). split.
    + intros Heq%bool_decide_eq_true. by f_equal.
    + intros [= ->]. by apply bool_decide_eq_true.
Qed.

Lemma find_callback_fold r data alignment count_only addrs n lines :
  fold_left (find_callback r data alignment count_only) addrs (n, lines)
  = ((n + length (filter (fun a => find_matches r data alignment a = true) addrs))%nat,
     lines ++ (if count_only then []
               else map (fun a => "Data found at " +:+ format_addr a)
                        (filter (fun a => find_matches r data alignment a = true)
                                addrs))).
Proof.
  revert n lines. induction addrs as [|a addrs IH]; intros n lines; cbn [fold_left].
  - cbn. rewrite Nat.add_0_r. destruct count_only; by rewrite app_nil_r.
  - rewrite filter_cons. unfold find_callback at 2.
    destruct (find_matches r data alignment a) eqn:Ha; cbn [fst snd].
    + rewrite decide_True by done. rewrite IH. cbn [length]. f_equal; [lia|].
      destruct count_only; [done|]. by rewrite <- app_assoc.
    + rewrite decide_False by done. apply IH.
Qed.

(** X11.  [find]: on a snapshot that the blocks tile, with non-empty
    [data] that fits the first region, a search that returns has counted
    exactly the aligned addresses of the regions at which the whole of
    [data] lies in the region and the bytes there are [data], each once;
    without [--count] it has printed one line for each, and the closing
    line gives the count.  The aligned 8-byte comparison finds what
    [memcmp] would. *)
Theorem c_find_spec hw r data alignment count_only max_threads sched n lines :
  let nt := if (max_threads =? 0)%nat then hw else max_threads in
  let size := Z.of_nat (length data) in
  regions_wf r = true -> regions_nonempty r = true -> block_tiled r = true ->
  0 < alignment -> data <> [] ->
  (forall v, head (regions_by_mapped r) = Some v -> size <= v_size v) ->
  total_size r + block_stride * (Z.of_nat nt + 1) < 2 ^ 64 ->
  c_find hw r data alignment count_only max_threads sched = Some (Ok (n, lines)) ->
  exists found,
    NoDup found
    /\ (forall a, a ∈ found
                  <-> covered r alignment size a /\ value_at r a size = Ok data)
    /\ n = length found
    /\ lines = (if count_only then []
                else map (fun a => "Data found at " +:+ format_addr a) found)
               ++ [pretty (Z.of_nat n) +:+ " results found"].
Proof.
  intros nt size Hwf Hne Htile Hal Hdata Hfirst Htotal H.
  assert (0 < size) as Hsize by (unfold size; destruct data; [done|cbn; lia]).
  unfold c_find in H.
  assert ((if (Z.of_nat (length data) =? 8) && (alignment =? 8) then 8
           else Z.of_nat (length data)) = size) as Hos.
  { destruct (_ && _) eqn:Hc; [|done].
    apply andb_prop in Hc as [H8%Z.eqb_eq _]. by unfold size. }
  rewrite Hos in H.
  destruct (map_all_addresses hw r alignment max_threads size sched)
    as [[cs|]|] eqn:Hscan; [|done..].
  rewrite find_callback_fold in H. cbn in H. injection H as <- <-.
  destruct (scan_calls_covered hw r alignment max_threads size sched cs)
    as [Hnd Hcov]; [done..|lia|done|done|done|].
  exists (filter (fun a => find_matches r data alignment a = true) cs.*1).
  split; [by apply NoDup_filter|]. split; [|done].
  intros a. rewrite list_elem_of_filter, Hcov. split.
  - intros [Hm Hc]. split; [done|].
    apply (find_matches_spec r data alignment a); [done..| |done].
    apply (covered_in_region r alignment size a); [lia|done].
  - intros [Hc Hv]. split; [|done].
    apply (find_matches_spec r data alignment a); [done..| |done].
    apply (covered_in_region r alignment size a); [lia|done].
Qed.

Lemma c_find_spec_witness :
  exists found,
    NoDup found
    /\ (forall a, a ∈ found
                  <-> covered reader_with_data 8 8 a
                      /\ value_at reader_with_data a 8 = Ok data_sample)
    /\ 1%nat = length found
    /\ ["Data found at 0000000000001010"; "1 results found"]
       = map (fun a => "Data found at " +:+ format_addr a) found
         ++ [pretty (Z.of_nat 1) +:+ " results found"].
Proof.
  apply (c_find_spec 4 reader_with_data data_sample 8 false 1
           (replicate 600 0%nat) 1
           ["Data found at 0000000000001010"; "1 results found"]);
    try reflexivity; try done.
  intros v [= <-]. cbn. lia.
Defined.

Lemma find_all_objects_callback_fold O type_addr count_only addrs n lines :
  fold_left (find_all_objects_callback O type_addr count_only) addrs (n, lines)
  = ((n + length (filter (fun a => is_object_of O type_addr count_only a = true)
                         addrs))%nat,
     lines ++ (if count_only then []
               else map (traversal_repr O)
                        (filter (fun a => is_object_of O type_addr count_only a = true)
                                addrs))).
Proof.
  revert n lines. induction addrs as [|a addrs IH]; intros n lines; cbn [fold_left].
  - cbn. rewrite Nat.add_0_r. destruct count_only; by rewrite app_nil_r.
  - assert (find_all_objects_callback O type_addr count_only (n, lines) a
            = if is_object_of O type_addr count_only a
              then (S n, lines ++ (if count_only then [] else [traversal_repr O a]))
              else (n, lines)) as ->.
    { unfold find_all_objects_callback, is_object_of.
      destruct (object_ob_type O a =? type_addr),
        (bool_decide (is_Some (env_invalid_reason_at O a))),
        count_only, (traversal_is_valid O a); cbn; by rewrite ?app_nil_r. }
    rewrite filter_cons.
    destruct (is_object_of O type_addr count_only a) eqn:Ha.
    + rewrite decide_True by done. rewrite IH. cbn [length]. f_equal; [lia|].
      destruct count_only; [by rewrite app_nil_r|]. by rewrite <- app_assoc.
    + rewrite decide_False by done. apply IH.
Qed.

(** X12.  [find-all-objects]: on a snapshot that the blocks tile, a run
    that returns has counted exactly the 8-aligned addresses of the
    regions at which an object header fits, whose [ob_type] is the type
    asked for and which are valid (and, without [--count], whose repr left
    the traversal valid), each once, and has printed the repr of each. *)
Theorem c_find_all_objects_spec O hw env type_addr_arg type_name count_only
    max_threads sched n lines :
  let nt := if (max_threads =? 0)%nat then hw else max_threads in
  let r := env_r env in
  regions_wf r = true -> regions_nonempty r = true -> block_tiled r = true ->
  1 <= sizeof_object_header O ->
  (forall v, head (regions_by_mapped r) = Some v -> sizeof_object_header O <= v_size v) ->
  total_size r + block_stride * (Z.of_nat nt + 1) < 2 ^ 64 ->
  c_find_all_objects O hw env type_addr_arg type_name count_only max_threads sched
  = Some (Ok (n, lines)) ->
  exists type_addr found,
    (if MappedPtr.is_null type_addr_arg
     then type_objects env !! type_name = Some type_addr
     else type_addr = type_addr_arg)
    /\ NoDup found
    /\ (forall a, a ∈ found
                  <-> covered r 8 (sizeof_object_header O) a
                      /\ is_object_of O type_addr count_only a = true)
    /\ n = length found
    /\ lines = (if count_only then [] else map (traversal_repr O) found).
Proof.
  intros nt r Hwf Hne Htile Hsz Hfirst Htotal H. unfold c_find_all_objects in H.
  destruct (if MappedPtr.is_null type_addr_arg then get_type env type_name
            else Ok type_addr_arg) as [type_addr|] eqn:Hty; [|done].
  fold r in H.
  destruct (map_all_addresses hw r 8 max_threads (sizeof_object_header O) sched)
    as [[cs|]|] eqn:Hscan; [|done..].
  rewrite find_all_objects_callback_fold in H. cbn in H. injection H as <- <-.
  destruct (scan_calls_covered hw r 8 max_threads (sizeof_object_header O) sched cs)
    as [Hnd Hcov]; [done..|lia|done|done|done|done|].
  exists type_addr,
    (filter (fun a => is_object_of O type_addr count_only a = true) cs.*1).
  split; [|split; [by apply NoDup_filter|split; [|done]]].
  - unfold get_type in Hty. destruct (MappedPtr.is_null type_addr_arg); [|congruence].
    destruct (type_objects env !! type_name); congruence.
  - intros a. rewrite list_elem_of_filter, Hcov. tauto.
Qed.

Lemma c_find_all_objects_spec_witness :
  exists type_addr found,
    type_objects env_with_type !! "dup" = Some type_addr
    /\ NoDup found
    /\ (forall a, a ∈ found
                  <-> covered reader_two_pages 8 16 a
                      /\ is_object_of objects_sample type_addr false a = true)
    /\ 2%nat = length found
    /\ ["<object>@0000000000001400"; "<object>@0000000000002400"]
       = map (traversal_repr objects_sample) found.
Proof.
  apply (c_find_all_objects_spec objects_sample 4 env_with_type 0 "dup" false 1
           (replicate 1200 0%nat) 2
           ["<object>@0000000000001400"; "<object>@0000000000002400"]);
    try reflexivity; try done.
  intros v [= <-]. cbn. lia.
Defined.











(** ** More of async-task-graph *)

(** The objects of the graph that [print_entry] has not printed yet bound
    the nesting of its calls: a call returns, keeps what was seen and what
    was written, and begins with the line of its object when that is new. *)
Lemma print_entry_returns fuel G repr :
  forall depth addr seen out,
    (size (dom G ∖ seen) < fuel)%nat ->
    exists seen' more,
      print_entry fuel G repr depth addr (seen, out) = Some (seen', out ++ more)
      /\ seen ⊆ seen'
      /\ (addr <> 0 -> addr ∉ seen ->
          head more = Some (indent depth +:+ repr depth addr)).
Proof.
  induction fuel as [|fuel IH]; intros depth addr seen out Hfuel; [lia|].
  cbn [print_entry]. destruct (MappedPtr.is_null addr) eqn:Hnull.
  { exists seen, []. rewrite app_nil_r. split; [done|]. split; [done|].
    intros Hnn. by apply Z.eqb_eq in Hnull. }
  cbn [fst snd]. case_bool_decide as Hseen.
  { eexists _, [_]. split; [done|]. split; [|done].
    apply union_subseteq_r. }
  destruct (G !! addr) as [next_addrs|] eqn:HG.
  2: { eexists _, [_; _]. rewrite <- app_assoc. split; [done|].
       split; [apply union_subseteq_r|done]. }
  assert (size (dom G ∖ ({[addr]} ∪ seen)) < fuel)%nat as Hless.
  { assert (dom G ∖ ({[addr]} ∪ seen) ⊂ dom G ∖ seen) as Hsub%subset_size; [|lia].
    split.
    - intros x. rewrite !elem_of_difference, elem_of_union. tauto.
    - intros Hsub. specialize (Hsub addr).
      rewrite !elem_of_difference, elem_of_union, elem_of_singleton, elem_of_dom in Hsub.
      rewrite HG in Hsub. destruct Hsub as [_ []]; [done|by left]. }
  assert (forall seen1 out1,
            {[addr]} ∪ seen ⊆ seen1 ->
            exists seen' more,
              fold_left
                (fun acc next_addr =>
                   match acc with
                   | Some st' => print_entry fuel G repr (S depth) next_addr st'
                   | None => None
                   end) next_addrs (Some (seen1, out1))
              = Some (seen', out1 ++ more)
              /\ seen1 ⊆ seen') as Hfold.
  { clear HG. induction next_addrs as [|next next_addrs IHn]; intros seen1 out1 Hsub.
    - exists seen1, []. by rewrite app_nil_r.
    - cbn [fold_left].
      destruct (IH (S depth) next seen1 out1) as (seen2 & more2 & -> & Hsub2 & _).
      { assert (size (dom G ∖ seen1) <= size (dom G ∖ ({[addr]} ∪ seen)))%nat; [|lia].
        apply subseteq_size. intros x. rewrite !elem_of_difference.
        intros [? Hx]. split; [done|]. intros ?. apply Hx. by apply Hsub. }
      destruct (IHn seen2 (out1 ++ more2)) as (seen' & more & -> & Hsub');
        [by etransitivity|].
      exists seen', (more2 ++ more). rewrite <- app_assoc. split; [done|].
      by etransitivity. }
  destruct (Hfold ({[addr]} ∪ seen) (out ++ [indent depth +:+ repr depth addr]))
    as (seen' & more & -> & Hsub); [done|].
  exists seen', ((indent depth +:+ repr depth addr) :: more).
  rewrite <- app_assoc. split; [done|]. split; [|done].
  etransitivity; [apply union_subseteq_r|done].
Qed.

(** X14.  [async-task-graph] terminates on every await graph, with cycles
    or without: a nesting of one call per object of the graph suffices.  It
    prints one tree per root, and the tree of a non-null root begins with
    the line of the root at depth 0. *)
Theorem async_task_graph_terminates (G : gmap Z (list Z)) (repr : nat -> Z -> string) :
  exists trees,
    async_task_graph (S (size G)) G repr = Some trees
    /\ Forall2 (fun root tree =>
                  root <> 0 -> head tree = Some (indent 0 +:+ repr 0%nat root))
               (graph_roots G) trees.
Proof.
  unfold async_task_graph. induction (graph_roots G) as [|root roots IH].
  - by exists [].
  - destruct IH as (trees & Htrees & Hheads). cbn [print_roots].
    destruct (print_entry_returns (S (size G)) G repr 0 root ∅ [])
      as (seen' & more & -> & _ & Hhead).
    { rewrite difference_empty_L, size_dom. lia. }
    rewrite Htrees. exists (more :: trees). split; [done|].
    constructor; [|done]. intros Hroot. apply Hhead; [done|]. apply not_elem_of_empty.
Qed.

(** X15.  The roots of [async-task-graph] are the objects of the graph
    that no object of the graph awaits, in ascending order of address,
    each once. *)
Theorem async_task_graph_roots (G : gmap Z (list Z)) :
  StronglySorted Z.lt (graph_roots G)
  /\ forall y, y ∈ graph_roots G
               <-> is_Some (G !! y) /\ forall k ts, G !! k = Some ts -> y ∉ ts.
Proof.
  split; [|apply graph_roots_spec]. unfold graph_roots.
  destruct (fold_emplace_spec (map_to_list G) [] ltac:(constructor)) as [Hs1 _].
  by destruct (fold_erase_all_spec (map_to_list G) _ Hs1) as [Hs2 _].
Qed.

(** ** find-all-stacks *)

Lemma stack_roots_spec (back : gmap Z Z) :
  StronglySorted Z.lt (stack_roots back)
  /\ forall y, y ∈ stack_roots back
               <-> is_Some (back !! y) /\ forall k, back !! k <> Some y.
Proof.
  unfold stack_roots.
  assert (forall (entries : list (Z * Z)) roots,
            StronglySorted Z.lt roots ->
            StronglySorted Z.lt
              (fold_left (fun roots it => set_emplace it.1 roots) entries roots)
            /\ forall y,
                 y ∈ fold_left (fun roots it => set_emplace it.1 roots) entries roots
                 <-> y ∈ roots \/ exists b, (y, b) ∈ entries) as Hemplace.
  { induction entries as [|[k b] entries IH]; intros roots Hs; cbn [fold_left].
    - split; [done|]. intros y. split; [by left|].
      intros [?|[b ?%elem_of_nil]]; done.
    - destruct (IH (set_emplace k roots) (set_emplace_sorted k roots Hs)) as [Hs' Hin].
      split; [done|]. intros y. rewrite Hin, elem_of_set_emplace. cbn. split.
      + intros [[->|?]|[c ?]]; [right; exists b; by left|by left|].
        right. exists c. by right.
      + intros [?|[b' [[= -> ->]|?]%elem_of_cons]]; [by left; right|by left; left|].
        right. by exists b'. }
  assert (forall (entries : list (Z * Z)) roots,
            StronglySorted Z.lt roots ->
            StronglySorted Z.lt
              (fold_left (fun roots it => set_erase it.2 roots) entries roots)
            /\ forall y,
                 y ∈ fold_left (fun roots it => set_erase it.2 roots) entries roots
                 <-> y ∈ roots /\ forall k, (k, y) ∉ entries) as Herase.
  { induction entries as [|[k b] entries IH]; intros roots Hs; cbn [fold_left].
    - split; [done|]. intros y. split; [|tauto].
      intros ?. split; [done|]. intros k ?%elem_of_nil. done.
    - destruct (IH (set_erase b roots) (set_erase_sorted b roots Hs)) as [Hs' Hin].
      split; [done|]. intros y. rewrite Hin, elem_of_set_erase. cbn. split.
      + intros [[? Hne] Hall]. split; [done|].
        intros k' [[= -> ->]|?]%elem_of_cons; [done|]. by apply (Hall k').
      + intros [? Hall]. split; [split; [done|]|].
        * intros ->. apply (Hall k). by left.
        * intros k' ?. apply (Hall k'). by right. }
  destruct (Hemplace (map_to_list back) [] ltac:(constructor)) as [Hs1 Hin1].
  destruct (Herase (map_to_list back) _ Hs1) as [Hs2 Hin2].
  split; [done|]. intros y. rewrite Hin2, Hin1. split.
  - intros [[?%elem_of_nil|[b Hb%elem_of_map_to_list]] Hall]; [done|].
    split; [by exists b|]. intros k Hk. apply (Hall k). by apply elem_of_map_to_list.
  - intros [[b Hb] Hall]. split.
    + right. exists b. by apply elem_of_map_to_list.
    + intros k Hk%elem_of_map_to_list. by apply (Hall k).
Qed.

Lemma nth_back_add back n m addr x :
  nth_back back n addr = Some x -> nth_back back (n + m) addr = nth_back back m x.
Proof.
  revert addr. induction n as [|n IH]; intros addr Hn; [by injection Hn as ->|].
  cbn [nth_back Nat.add] in *. destruct (MappedPtr.is_null addr); [done|].
  destruct (back !! addr) as [b|]; [|done]. cbn in *. by apply IH.
Qed.

Lemma print_stack_unbounded back repr fuel :
  forall addr,
    (forall n, exists x, nth_back back (S n) addr = Some x) ->
    print_stack fuel back repr addr = None.
Proof.
  induction fuel as [|fuel IH]; intros addr Hall; [done|].
  cbn [print_stack]. destruct (Hall 0%nat) as [x Hx]. cbn in Hx.
  destruct (MappedPtr.is_null addr) eqn:Hnull; [done|].
  destruct (back !! addr) as [b|] eqn:Hb; [|done]. cbn.
  rewrite IH; [done|]. intros n. destruct (Hall (S n)) as [y Hy].
  exists y. cbn [nth_back] in Hy. by rewrite Hnull, Hb in Hy.
Qed.

Lemma nth_back_prefix back N i addr :
  is_Some (nth_back back N addr) -> (i <= N)%nat -> is_Some (nth_back back i addr).
Proof.
  revert i addr. induction N as [|N IH]; intros i addr HN Hi.
  - by assert (i = 0%nat) as -> by lia.
  - destruct i as [|i]; [done|]. cbn [nth_back] in *.
    destruct (MappedPtr.is_null addr); [done|].
    destruct (back !! addr) as [f_back|]; [|done]. cbn in *. apply IH; [done|lia].
Qed.

(** X16.  A traceback of [find-all-stacks] never ends when the [f_back]
    chain of its root runs into a cycle of found frames: the loop has no
    guard against a frame it has printed before. *)
Theorem print_stack_cycle_never_returns back repr addr k m x fuel :
  nth_back back k addr = Some x -> nth_back back (S m) x = Some x ->
  print_stack fuel back repr addr = None.
Proof.
  intros Hk Hm. apply print_stack_unbounded.
  assert (forall j, nth_back back (j * S m) x = Some x) as Hloop.
  { induction j as [|j IH]; [done|].
    replace (S j * S m)%nat with (S m + j * S m)%nat by lia.
    by rewrite (nth_back_add back (S m) (j * S m) x x). }
  assert (forall n, is_Some (nth_back back n x)) as Hx.
  { intros n. apply (nth_back_prefix back (S n * S m)); [by rewrite Hloop|nia]. }
  intros n. apply (nth_back_prefix back (k + S n)); [|lia].
  rewrite (nth_back_add back k (S n) addr x Hk). apply Hx.
Qed.

Lemma print_stack_cycle_never_returns_witness :
  0x10 ∈ stack_roots stack_with_cycle
  /\ print_stack 1000 stack_with_cycle frame_repr_sample 0x10 = None.
Proof.
  split; [apply (bool_decide_unpack _); vm_compute; reflexivity|].
  apply (print_stack_cycle_never_returns stack_with_cycle frame_repr_sample
           0x10 1 1 0x20 1000); reflexivity.
Defined.

Lemma stack_path_length back path addr :
  stack_path back path addr -> (length path <= size back)%nat.
Proof.
  intros [Hnd Hfound _ _ _ _].
  rewrite <- (size_list_to_set (C := gset Z) path Hnd), <- (size_dom back).
  apply subseteq_size. intros p Hp%elem_of_list_to_set. by apply elem_of_dom, Hfound.
Qed.

Lemma stack_path_fresh back path addr :
  back_injective back -> stack_path back path addr -> addr <> 0 -> addr ∉ path.
Proof.
  intros Hinj [Hnd Hfound Hlinks Hroot Hlatest Hstart] Hnn Hin.
  destruct path as [|l path]; [by apply elem_of_nil in Hin|].
  pose proof (Hlatest l eq_refl) as Hl.
  apply list_elem_of_lookup in Hin as [j Hj].
  destruct ((l :: path) !! S j) as [q|] eqn:Hq.
  - pose proof (Hlinks j addr q Hj Hq) as Hqa.
    assert (q = l) as -> by by eapply Hinj.
    pose proof (NoDup_lookup _ 0%nat (S j) l Hnd eq_refl Hq). done.
  - refine (Hroot addr _ l Hl).
    rewrite last_lookup. apply lookup_ge_None in Hq.
    apply lookup_lt_Some in Hj as Hlt.
    by replace (pred (length (l :: path))) with j by lia.
Qed.

Lemma stack_path_step back path addr f_back :
  back_injective back -> stack_path back path addr -> addr <> 0 ->
  back !! addr = Some f_back -> stack_path back (addr :: path) f_back.
Proof.
  intros Hinj Hpath Hnn Hb.
  pose proof (stack_path_fresh back path addr Hinj Hpath Hnn) as Hfresh.
  destruct Hpath as [Hnd Hfound Hlinks Hroot Hlatest Hstart]. split.
  - by apply NoDup_cons.
  - intros p [->|Hp]%elem_of_cons; [by eexists|by apply Hfound].
  - intros [|i] p q Hp Hq.
    + injection Hp as <-. apply Hlatest. by destruct path.
    + by apply (Hlinks i).
  - intros p Hp. destruct path as [|l path].
    + injection Hp as <-. by apply Hstart.
    + apply Hroot. by rewrite last_cons_cons in Hp.
  - by intros p [= <-].
  - done.
Qed.

Lemma print_stack_path back repr fuel :
  forall path addr,
    back_injective back -> stack_path back path addr ->
    (size back + 2 <= fuel + length path)%nat ->
    exists lines,
      print_stack fuel back repr addr = Some lines
      /\ (addr <> 0 -> head lines = Some (indent 1 +:+ repr addr)).
Proof.
  induction fuel as [|fuel IH]; intros path addr Hinj Hpath Hfuel.
  { pose proof (stack_path_length back path addr Hpath). lia. }
  cbn [print_stack]. destruct (Z.eqb_spec addr 0) as [->|Hnn]; [by exists []|].
  unfold MappedPtr.is_null. destruct (Z.eqb_spec addr 0) as [|_]; [done|].
  destruct (back !! addr) as [f_back|] eqn:Hb; [|by eexists].
  destruct (IH (addr :: path) f_back Hinj) as (rest & -> & _).
  - by apply stack_path_step.
  - cbn. lia.
  - cbn. by eexists.
Qed.

(** X17.  When no two found frames have the same non-null [f_back],
    every traceback of [find-all-stacks] ends: the command prints one
    traceback per root, and the traceback of a non-null root begins with
    the header line and the line of the root. *)
Theorem find_all_stacks_terminates (back : gmap Z Z) (repr : Z -> string) :
  back_injective back ->
  exists tracebacks,
    find_all_stacks (S (S (size back))) back repr = Some tracebacks
    /\ Forall2 (fun root traceback =>
                  root <> 0 ->
                  exists lines,
                    traceback = "Traceback (most recent call FIRST):"
                                :: (indent 1 +:+ repr root) :: lines)
               (stack_roots back) tracebacks.
Proof.
  intros Hinj. unfold find_all_stacks.
  destruct (stack_roots_spec back) as [_ Hroots].
  assert (forall roots,
            (forall y, y ∈ roots -> y ∈ stack_roots back) ->
            exists tracebacks,
              print_stacks (S (S (size back))) back repr roots = Some tracebacks
              /\ Forall2 (fun root traceback =>
                            root <> 0 ->
                            exists lines,
                              traceback = "Traceback (most recent call FIRST):"
                                          :: (indent 1 +:+ repr root) :: lines)
                         roots tracebacks) as Hall.
  { induction roots as [|root roots IH]; intros Hsub; [by exists []|].
    destruct IH as (tracebacks & Htb & Hheads).
    { intros y Hy. apply Hsub. by right. }
    destruct (Hroots root) as [[Hfound Hno] _]; [apply Hsub; by left|].
    destruct (print_stack_path back repr (S (S (size back))) [] root Hinj)
      as (lines & Hlines & Hhead).
    - split; try done.
      + constructor.
      + intros p ?%elem_of_nil. done.
    - cbn. lia.
    - cbn [print_stacks]. rewrite Hlines, Htb. eexists. split; [done|].
      constructor; [|done]. intros Hnn. specialize (Hhead Hnn).
      destruct lines as [|line lines]; [done|]. injection Hhead as ->. by exists lines. }
  by apply Hall.
Qed.

Lemma find_all_stacks_terminates_witness :
  exists tracebacks,
    find_all_stacks 5 stack_sample frame_repr_sample = Some tracebacks
    /\ Forall2 (fun root traceback =>
                  root <> 0 ->
                  exists lines,
                    traceback = "Traceback (most recent call FIRST):"
                                :: (indent 1 +:+ frame_repr_sample root) :: lines)
               (stack_roots stack_sample) tracebacks.
Proof.
  apply (find_all_stacks_terminates stack_sample frame_repr_sample).
  intros p q a Hp Hq Ha. unfold stack_sample in *.
  repeat (rewrite lookup_insert in Hp; case_decide; simplify_eq);
  repeat (rewrite lookup_insert in Hq; case_decide; simplify_eq); done.
Defined.

(** X18.  The roots of [find-all-stacks] are the found frames that are
    the [f_back] of no found frame, in ascending order of address, each
    once: a frame on a cycle of [f_back] pointers starts no traceback. *)
Theorem find_all_stacks_roots (back : gmap Z Z) :
  StronglySorted Z.lt (stack_roots back)
  /\ forall y, y ∈ stack_roots back
               <-> is_Some (back !! y) /\ forall k, back !! k <> Some y.
Proof. apply stack_roots_spec. Qed.

(** ** More of the catalog *)

(** X19.  After [find_base_type_object] and [find_all_type_objects] on a
    snapshot without a base type, the base type object is itself an entry
    of the catalog: under the name "type", or under "type+ADDRESS" when
    another type object named "type" was reached first (no type object
    being named like the alternate key of one). *)
Theorem base_type_in_catalog D hw s max_threads sched1 sched2 s1 s2 :
  let r := env_r (env s) in
  let nt := if (max_threads =? 0)%nat then hw else max_threads in
  regions_wf r = true ->
  total_size r + block_stride * (Z.of_nat nt + 1) < 2 ^ 64 ->
  base_type_object (env s) = 0 ->
  find_base_type_object D hw s max_threads sched1 = Some (Ok s1) ->
  find_all_type_objects D hw s1 max_threads sched2 = Some (Ok s2) ->
  (forall a b,
     is_type_object D (base_type_object (env s1)) a = true ->
     is_type_object D (base_type_object (env s1)) b = true ->
     type_name_of D a <> alternate_key (type_name_of D b) b) ->
  let base := base_type_object (env s2) in
  base <> 0
  /\ type_name_of D base = "type"%string
  /\ (type_objects (env s2) !! "type"%string = Some base
      \/ type_objects (env s2) !! alternate_key "type" base = Some base).
Proof.
  intros r nt Hwf Htotal Hnull H1 H2 Hclash.
  assert (base_type_object (env s1) <> 0) as Hnz.
  { unfold find_all_type_objects, MappedPtr.is_null in H2.
    destruct (Z.eqb_spec (base_type_object (env s1)) 0); [done|done]. }
  unfold find_base_type_object in H1. fold r in H1.
  destruct (map_all_addresses hw r 8 max_threads (sizeof_PyTypeObject D) sched1)
    as [[calls1|]|] eqn:Hscan1; [|done..].
  rewrite base_type_fold in H1. cbn [app] in H1.
  destruct (candidates_of D calls1.*1) as [|c [|c' cs]] eqn:Hc;
    injection H1 as <-; cbn in Hnz; try done.
  assert (c ∈ candidates_of D calls1.*1) as Hin by (rewrite Hc; left).
  apply list_elem_of_filter in Hin as [Hcand Hin1].
  apply base_type_candidate_spec in Hcand as (Hself & Hvalid & Hname).
  unfold find_all_type_objects, MappedPtr.is_null in H2. cbn in H2, Hclash.
  destruct (Z.eqb_spec c 0) as [|_]; [done|]. fold r in H2.
  destruct (map_all_addresses hw r 8 max_threads (sizeof_PyTypeObject D) sched2)
    as [[calls2|]|] eqn:Hscan2; [|done..].
  assert (c ∈ type_hits D c calls2.*1) as Hhit.
  { apply list_elem_of_filter. split; [by apply is_type_object_spec|].
    by rewrite <- (scan_runs_permutation hw r 8 max_threads _ sched1 sched2
                     calls1 calls2 Hwf ltac:(lia) Htotal Hscan1 Hscan2). }
  rewrite type_fold_hits in H2.
  pose proof (types_inv_fold D (fun a => in_u64 a /\ is_type_object D c a = true)
                ltac:(by intros a [? _])
                ltac:(intros a b [_ Ha] [_ Hb]; by apply Hclash)
                [] ∅ [] false (type_hits D c calls2.*1)) as Hinv.
  destruct (fold_left (insert_type D) (type_hits D c calls2.*1) (∅, [], false))
    as [[types lines] changed].
  assert (base_type_object (env s2) = c /\ type_objects (env s2) = types) as [Hb Ht]
    by (injection H2 as <-; by destruct changed).
  cbn zeta. rewrite Hb, Ht. split; [done|]. split; [done|].
  destruct Hinv as [_ Hret _]; [constructor| |apply types_inv_empty|].
  { apply Forall_forall. intros a [Ha Hin]%list_elem_of_filter. split; [|done].
    pose proof (map_all_addresses_u64 _ _ _ _ _ _ _ Hscan2) as Hu.
    rewrite Forall_forall in Hu. by apply Hu. }
  destruct (Hret c Hhit) as [Hplain|[Halt _]]; unfold type_name_of in *;
    rewrite Hname in *; [by left|by right].
Qed.

Lemma base_type_in_catalog_witness :
  exists s1 s2,
    find_base_type_object decoder_sample 4 session_sample 2
      schedule_first_block_first = Some (Ok s1)
    /\ find_all_type_objects decoder_sample 4 s1 2 schedule_second_block_first
       = Some (Ok s2)
    /\ type_objects (env s2) !! "type"%string = Some 0x1100.
Proof.
  eexists _, _. split; [vm_compute; reflexivity|]. split; [vm_compute; reflexivity|].
  edestruct (base_type_in_catalog decoder_sample 4 session_sample 2
               schedule_first_block_first schedule_second_block_first)
    as (_ & _ & [H|H]).
  - reflexivity.
  - vm_compute. reflexivity.
  - reflexivity.
  - vm_compute. reflexivity.
  - vm_compute. reflexivity.
  - intros a b [Ha _]%is_type_object_spec [Hb _]%is_type_object_spec.
    unfold type_name_of, decoder_sample in *. cbn in *.
    repeat case_match; cbn in *; try done.
  - vm_compute in H. vm_compute. exact H.
  - vm_compute in H. discriminate H.
Defined.

(** ** PyFrameObject::locals *)

Lemma frame_locals_loop_ok W env this varnames fuel :
  forall z ret,
    frame_locals_loop W env this varnames fuel z = Returns None ->
    exists ret', locals_loop W (env_r env) this varnames fuel z ret = Returns ret'.
Proof.
  induction fuel as [|fuel IH]; intros z ret H; [by eexists|].
  cbn [frame_locals_loop locals_loop] in *.
  destruct (host_element W (env_r env) varnames _) as [name| |]; [|done..].
  cbn [bind_outcome] in *.
  destruct (of_result (get_type env "str")) as [str_type| |]; [|done..].
  cbn [bind_outcome] in H.
  destruct (env_invalid_reason W name str_type); [done|].
  destruct (host_element W (env_r env) this _) as [value| |]; [|done..].
  cbn [bind_outcome] in *. apply IH.
  destruct (MappedPtr.is_null value); [done|].
  destruct (reader_get (env_r env) (sizeof_PyObject W) value); [|done..].
  cbn [bind_outcome] in H. by destruct (object_invalid_reason W value).
Qed.

(** X20.  For a frame with code that [invalid_reason] accepts, [locals]
    and [direct_referents] return: they throw neither [invalid_object] nor
    another exception, and every element of [co_varnames] and of
    [f_localsplus] they read lies in the region of its object. *)
Theorem frame_valid_locals_return W env this :
  PyFrameObject_invalid_reason W env this = Returns None ->
  f_code (frame_at W this) <> 0 ->
  (exists m, PyFrameObject_locals W env this = Returns (Locals m))
  /\ exists referents,
       PyFrameObject_direct_referents W env this = Returns (Some referents)
       /\ f_back (frame_at W this) ∈ referents
       /\ f_code (frame_at W this) ∈ referents.
Proof.
  intros H Hcode.
  assert (exists m, PyFrameObject_locals W env this = Returns (Locals m)) as [m Hm].
  { unfold PyFrameObject_invalid_reason in H. unfold PyFrameObject_locals.
    cbn zeta in *.
    repeat match type of H with
           | (if ?c then Returns (Some _) else _) = _ =>
               destruct c; [done|]
           end.
    unfold MappedPtr.is_null in H.
    destruct (Z.eqb_spec (f_code (frame_at W this)) 0); [done|]. cbn [negb] in H.
    destruct (of_result (get_type env "code")) as [code_type| |]; [|done..].
    cbn [bind_outcome] in *.
    destruct (env_invalid_reason W (f_code (frame_at W this)) code_type); [done|].
    destruct (reader_get (env_r env) (sizeof_f_code W) _); [|done..].
    cbn [bind_outcome] in *.
    destruct (of_result (get_type env "tuple")) as [tuple_type| |]; [|done..].
    cbn [bind_outcome] in *.
    destruct (env_invalid_reason W _ tuple_type); [done|].
    destruct (reader_get (env_r env) (sizeof_co_varnames W) _); [|done..].
    cbn [bind_outcome] in *.
    destruct (of_result (host_to_mapped _ _ _)); [|done..]. cbn [bind_outcome] in H.
    destruct (negb _); [done|].
    destruct (frame_locals_loop_ok _ _ _ _ _ 0 ∅ H) as [ret ->]. by eexists. }
  split; [by exists m|]. unfold PyFrameObject_direct_referents. rewrite Hm.
  cbn [bind_outcome]. eexists. split; [done|].
  assert (forall x (base : gset Z), x ∈ base ->
            x ∈ map_fold (fun name value ret => {[name; value]} ∪ ret) base m) as Hbase.
  { intros x base Hx.
    apply (map_fold_weak_ind (fun res (_ : gmap Z Z) => x ∈ res)); [done|].
    intros name value _ res _ Hres. apply elem_of_union. by right. }
  split; apply Hbase.
  - repeat (apply elem_of_union; left). by apply elem_of_singleton.
  - do 5 (apply elem_of_union; left). apply elem_of_union. right.
    by apply elem_of_singleton.
Qed.

Lemma frame_valid_locals_return_witness :
  PyFrameObject_locals frame_world_two_locals frame_env_sample 0x1400
  = Returns (Locals (<[0x1300 := 0x1500]> (<[0x1340 := 0]> ∅))).
Proof.
  destruct (frame_valid_locals_return frame_world_two_locals frame_env_sample 0x1400)
    as [[m Hm] _].
  - vm_compute. reflexivity.
  - vm_compute. discriminate.
  - rewrite Hm. vm_compute in Hm. injection Hm as <-. vm_compute. reflexivity.
Defined.

(** ** The entry cap of the container reprs *)






(** ** MemoryReader::MemoryReader on a single file *)

Lemma byte_of_Z_value x : 0 <= x < 256 -> Z.of_N (Byte.to_N (byte_of_Z x)) = x.
Proof.
  intros Hx. unfold byte_of_Z.
  destruct (Byte.of_N (Z.to_N x)) as [b|] eqn:Hb.
  - apply Byte.to_of_N in Hb. cbn. rewrite Hb. lia.
  - apply Byte.of_N_None_iff in Hb. lia.
Qed.

Lemma le_bytes_length n x : length (le_bytes n x) = n.
Proof. revert x. induction n as [|n IH]; intros x; cbn; [done|]. by rewrite IH. Qed.

Lemma le_bytes_value_le_bytes n x :
  0 <= x < 256 ^ Z.of_nat n -> le_bytes_value (le_bytes n x) = x.
Proof.
  revert x. induction n as [|n IH]; intros x Hx.
  - cbn in *. lia.
  - cbn [le_bytes le_bytes_value].
    rewrite byte_of_Z_value by (apply Z.mod_pos_bound; lia).
    rewrite IH.
    + pose proof (Z.div_mod x 256). lia.
    + rewrite Nat2Z.inj_succ, Z.pow_succ_r in Hx by lia.
      split; [apply Z.div_pos; lia|]. apply Z.div_lt_upper_bound; lia.
Qed.

Lemma get_u64l_at (before after : list Byte.byte) x :
  in_u64 x ->
  get_u64l (before ++ le_bytes 8 x ++ after) (Z.of_nat (length before)) = Some x.
Proof.
  intros Hx. unfold get_u64l. rewrite !length_app, le_bytes_length.
  destruct (Z.gtb_spec (Z.of_nat (length before) + 8)
              (Z.of_nat (length before + (8 + length after)))); [lia|].
  rewrite Nat2Z.id, drop_app_length.
  rewrite (take_app_length' (le_bytes 8 x)) by by rewrite le_bytes_length.
  f_equal. apply le_bytes_value_le_bytes. unfold in_u64 in Hx. lia.
Qed.

Lemma string_reader_at (before data after : list Byte.byte) :
  string_reader (before ++ data ++ after) (Z.of_nat (length before))
    (Z.of_nat (length data)) = data.
Proof.
  unfold string_reader. rewrite !Nat2Z.id, drop_app_length.
  by rewrite take_app_length.
Qed.

Lemma encode_regions_cons rgn rgns :
  encode_regions (rgn :: rgns) = encode_region rgn ++ encode_regions rgns.
Proof. done. Qed.

Lemma encode_region_length rgn :
  length (encode_region rgn) = (16 + length rgn.2)%nat.
Proof. unfold encode_region. rewrite !length_app, !le_bytes_length. lia. Qed.

Lemma single_file_loop_regions rgns :
  forall fuel before regions total_bytes,
    Forall region_in_space rgns ->
    Z.of_nat (length (before ++ encode_regions rgns)) < 2 ^ 64 ->
    (length rgns < fuel)%nat ->
    single_file_loop fuel (before ++ encode_regions rgns)
      (Z.of_nat (length before)) regions total_bytes
    = Some (inr (mkReader (fold_left (fun m view => map_emplace view m)
                                     (views_from (Z.of_nat (length before)) rgns)
                                     regions),
                 fold_left (fun total rgn => wrap64 (total + Z.of_nat (length rgn.2)))
                           rgns total_bytes)).
Proof.
  induction rgns as [|[start data] rgns IH];
    intros fuel before regions total_bytes Hspace Hlen Hfuel;
    (destruct fuel as [|fuel]; [cbn in Hfuel; lia|]); cbn [single_file_loop].
  - cbn [encode_regions mbind list_bind]. rewrite app_nil_r.
    destruct (Z.geb_spec (Z.of_nat (length before)) (Z.of_nat (length before)));
      [done|lia].
  - apply Forall_cons in Hspace as [[Hs0 Hs1] Hspace]. cbn [fst snd] in *.
    rewrite encode_regions_cons in *.
    set (file := before ++ encode_region (start, data) ++ encode_regions rgns) in *.
    set (end_ := start + Z.of_nat (length data)).
    assert (Z.of_nat (length file)
            = Z.of_nat (length before) + 16 + Z.of_nat (length data)
              + Z.of_nat (length (encode_regions rgns))) as Hfile.
    { unfold file. rewrite !length_app, encode_region_length. cbn [snd]. lia. }
    assert (get_u64l file (Z.of_nat (length before)) = Some start) as Hget1.
    { unfold file, encode_region. cbn [fst snd]. rewrite <- !app_assoc.
      apply get_u64l_at. unfold in_u64. lia. }
    assert (get_u64l file (Z.of_nat (length before) + 8) = Some end_) as Hget2.
    { unfold file, encode_region. cbn [fst snd]. rewrite <- !app_assoc.
      rewrite (app_assoc before).
      replace (Z.of_nat (length before) + 8)
        with (Z.of_nat (length (before ++ le_bytes 8 start)))
        by (rewrite length_app, le_bytes_length; lia).
      apply get_u64l_at. unfold in_u64, end_. lia. }
    assert (file = ((before ++ le_bytes 8 start ++ le_bytes 8 end_) ++ data)
                   ++ encode_regions rgns) as Hsplit.
    { unfold file, encode_region. cbn [fst snd]. by rewrite <- !app_assoc. }
    assert (length (before ++ le_bytes 8 start ++ le_bytes 8 end_)
            = (length before + 16)%nat) as Hheader
      by (rewrite !length_app, !le_bytes_length; lia).
    assert (string_reader file (Z.of_nat (length before) + 16)
              (Z.of_nat (length data)) = data) as Hdata.
    { rewrite Hsplit, <- app_assoc.
      replace (Z.of_nat (length before) + 16)
        with (Z.of_nat (length (before ++ le_bytes 8 start ++ le_bytes 8 end_)))
        by (rewrite Hheader; lia).
      apply string_reader_at. }
    assert (MappedPtr.bytes_until start end_ = Z.of_nat (length data)) as Hsize.
    { unfold MappedPtr.bytes_until, end_.
      replace (start + _ - start) with (Z.of_nat (length data)) by lia.
      apply wrap64_small. unfold in_u64. lia. }
    destruct (Z.geb_spec (Z.of_nat (length before)) (Z.of_nat (length file)));
      [lia|].
    rewrite Hget1, Hget2, Hsize. unfold MemoryMappedFile_view.
    rewrite wrap64_small by (unfold in_u64; lia). rewrite Hdata.
    destruct (Z.gtb_spec (Z.of_nat (length before) + 16 + Z.of_nat (length data))
                (Z.of_nat (length file))); [lia|].
    replace (Z.of_nat (length before) + 16 + Z.of_nat (length data))
      with (Z.of_nat (length ((before ++ le_bytes 8 start ++ le_bytes 8 end_)
                              ++ data)))
      by (rewrite length_app, Hheader; lia).
    rewrite Hsplit at 1.
    rewrite IH; [|done|rewrite <- Hsplit; lia|cbn in Hfuel; lia].
    cbn [views_from fold_left fst snd]. unfold view_of_region. cbn [fst snd].
    rewrite length_app, Hheader.
    replace (Z.of_nat (length before + 16 + length data))
      with (Z.of_nat (length before) + 16 + Z.of_nat (length data)) by lia.
    done.
Qed.

Lemma regions_sorted_cons v m :
  regions_sorted (v :: m) = true
  <-> (forall w, head m = Some w ->
         v_addr v + v_size v <= v_addr w /\ v_addr v < v_addr w)
      /\ regions_sorted m = true.
Proof.
  cbn [regions_sorted]. destruct m as [|w m]; rewrite andb_true_iff.
  - split; [intros [_ H]; split; [done|exact H]|intros [_ H]; by split].
  - rewrite andb_true_iff, Z.leb_le, Z.ltb_lt. split.
    + intros [H Hs]. split; [by intros ? [= <-]|done].
    + intros [H Hs]. split; [by apply H|done].
Qed.

Lemma map_emplace_elem x m v : v ∈ map_emplace x m -> v = x \/ v ∈ m.
Proof.
  induction m as [|w m IH]; cbn.
  - intros ->%list_elem_of_singleton. by left.
  - destruct (v_addr x <? v_addr w); [by intros [->|?]%elem_of_cons; [left|right]|].
    destruct (v_addr x =? v_addr w); [by right|].
    intros [->|[->|?]%IH]%elem_of_cons; [right; by left|by left|right; by right].
Qed.

Lemma map_emplace_keeps x m v : v ∈ m -> v ∈ map_emplace x m.
Proof.
  induction m as [|w m IH]; cbn; [by intros ?%elem_of_nil|].
  destruct (v_addr x <? v_addr w); [by right|].
  destruct (v_addr x =? v_addr w); [done|].
  intros [->|?]%elem_of_cons; [by left|right; by apply IH].
Qed.

Lemma map_emplace_adds x m : Forall (views_apart x) m -> x ∈ map_emplace x m.
Proof.
  induction 1 as [|w m [Hne _] _ IH]; cbn; [by left|].
  destruct (v_addr x <? v_addr w); [by left|].
  destruct (Z.eqb_spec (v_addr x) (v_addr w)); [done|by right].
Qed.

Lemma map_emplace_head x m h :
  head (map_emplace x m) = Some h -> h = x \/ head m = Some h.
Proof.
  destruct m as [|w m]; cbn; [intros [= <-]; by left|].
  destruct (v_addr x <? v_addr w); [intros [= <-]; by left|].
  destruct (v_addr x =? v_addr w); [by right|by right].
Qed.

Lemma map_emplace_sorted x m :
  0 <= v_size x -> Forall (fun w => 0 <= v_size w) m ->
  Forall (views_apart x) m -> regions_sorted m = true ->
  regions_sorted (map_emplace x m) = true.
Proof.
  intros Hx Hsizes Hapart. induction Hapart as [|w m [Hne Hw] _ IH]; [done|].
  apply Forall_cons in Hsizes as [Hwsize Hsizes]. intros Hs.
  cbn [map_emplace]. destruct (Z.ltb_spec (v_addr x) (v_addr w)).
  - apply regions_sorted_cons. split; [|done]. intros ? [= <-]. lia.
  - destruct (Z.eqb_spec (v_addr x) (v_addr w)); [done|].
    apply regions_sorted_cons in Hs as [Hhead Hs].
    apply regions_sorted_cons. split; [|by apply IH].
    intros h [->|Hh]%map_emplace_head; [lia|by apply Hhead].
Qed.

Lemma views_fold_wf rgns :
  forall offset acc,
    Forall region_in_space rgns -> all_apart rgns ->
    forallb view_ok acc = true -> regions_sorted acc = true ->
    (forall w rgn, w ∈ acc -> rgn ∈ rgns ->
       views_apart (view_of_region 0 rgn) w) ->
    let res := fold_left (fun m view => map_emplace view m)
                         (views_from offset rgns) acc in
    forallb view_ok res = true /\ regions_sorted res = true
    /\ (forall w, w ∈ acc -> w ∈ res)
    /\ (forall rgn, rgn ∈ rgns -> exists off, view_of_region off rgn ∈ res)
    /\ (forall w, w ∈ res ->
          w ∈ acc \/ exists off rgn, rgn ∈ rgns /\ w = view_of_region off rgn).
Proof.
  induction rgns as [|rgn rgns IH]; intros offset acc Hspace Hapart Hok Hs Hacc.
  - cbn. repeat split; try done.
    + intros rgn ?%elem_of_nil. done.
    + by left.
  - apply Forall_cons in Hspace as [[Hr0 Hr1] Hspace].
    destruct Hapart as [Hrgn Hapart]. cbn [views_from fold_left].
    set (view := view_of_region (offset + 16) rgn).
    assert (Forall (views_apart view) acc) as Hview.
    { apply Forall_forall. intros w Hw. apply (Hacc w rgn Hw). by left. }
    assert (view_ok view = true) as Hvok.
    { unfold view_ok, view, view_of_region. cbn.
      rewrite !andb_true_iff, !Z.leb_le, Z.ltb_lt, Z.eqb_eq. lia. }
    destruct (IH (offset + 16 + Z.of_nat (length rgn.2)) (map_emplace view acc))
      as (Hok' & Hs' & Hkeep & Hall & Hfrom); [done|done| | |..].
    + apply forallb_forall. intros w [->|Hw]%list_elem_of_In%map_emplace_elem; [done|].
      rewrite forallb_forall in Hok. by apply Hok, list_elem_of_In.
    + apply map_emplace_sorted; [cbn; lia| |done|done].
      apply Forall_forall. intros w Hw. rewrite forallb_forall in Hok.
      apply list_elem_of_In, Hok, view_ok_spec in Hw. lia.
    + intros w rgn' [->|Hw]%map_emplace_elem Hrgn'.
      * rewrite Forall_forall in Hrgn. destruct (Hrgn rgn' Hrgn') as [Hne Hor].
        unfold views_apart, view, view_of_region. cbn. split; [done|lia].
      * apply Hacc; [done|by right].
    + split; [done|]. split; [done|]. split; [|split].
      * intros w Hw. by apply Hkeep, map_emplace_keeps.
      * intros rgn' [->|Hrgn']%elem_of_cons; [|by apply Hall].
        exists (offset + 16). by apply Hkeep, map_emplace_adds.
      * intros w [[->|Hw]%map_emplace_elem|(off & rgn' & Hrgn' & ->)]%Hfrom.
        -- right. exists (offset + 16), rgn. split; [by left|done].
        -- by left.
        -- right. exists off, rgn'. split; [by right|done].
Qed.

Lemma encode_regions_count rgns : (length rgns <= length (encode_regions rgns))%nat.
Proof.
  induction rgns as [|rgn rgns IH]; [done|].
  rewrite encode_regions_cons, length_app, encode_region_length. cbn. lia.
Qed.

Lemma total_bytes_fold rgns :
  forall total,
    0 <= total ->
    total + Z.of_nat (sum_list_with (fun rgn : Z * list Byte.byte => length rgn.2) rgns) < 2 ^ 64 ->
    fold_left (fun total rgn => wrap64 (total + Z.of_nat (length rgn.2)))
              rgns total
    = total + Z.of_nat (sum_list_with (fun rgn : Z * list Byte.byte => length rgn.2) rgns).
Proof.
  induction rgns as [|rgn rgns IH]; intros total H0 Hlt; cbn [fold_left sum_list_with].
  - cbn. lia.
  - cbn [sum_list_with] in Hlt. rewrite Nat2Z.inj_add in Hlt.
    rewrite wrap64_small by (unfold in_u64; lia).
    rewrite IH by lia. rewrite Nat2Z.inj_add. lia.
Qed.

Lemma encode_regions_bytes rgns :
  (sum_list_with (fun rgn : Z * list Byte.byte => length rgn.2) rgns <= length (encode_regions rgns))%nat.
Proof.
  induction rgns as [|rgn rgns IH]; [done|].
  rewrite encode_regions_cons, length_app, encode_region_length. cbn. lia.
Qed.

(** X22.  Loading a single-file snapshot gives back what the file
    holds.  For a file of records (start, end, bytes) of regions that lie
    in the 64-bit address space, the loader returns without an error;
    every view of the reader is one of the regions, with its bytes, and
    the total is the number of bytes of the regions.  When
    the regions are pairwise apart the reader is well-formed, and reading
    a non-empty region at its start returns its bytes. *)
Theorem single_file_round_trip rgns fuel :
  Forall region_in_space rgns ->
  Z.of_nat (length (encode_regions rgns)) < 2 ^ 64 ->
  (length (encode_regions rgns) < fuel)%nat ->
  exists reader total_bytes,
    MemoryReader_single_file fuel (encode_regions rgns)
    = Some (inr (reader, total_bytes))
    /\ (forall v, v ∈ regions_by_mapped reader ->
          exists off rgn, rgn ∈ rgns /\ v = view_of_region off rgn)
    /\ total_bytes = Z.of_nat (sum_list_with (fun rgn : Z * list Byte.byte => length rgn.2) rgns)
    /\ (all_apart rgns ->
        regions_wf reader = true
        /\ forall start data, (start, data) ∈ rgns -> data <> [] ->
             read reader start (Z.of_nat (length data)) = Ok data).
Proof.
  intros Hspace Hlen Hfuel. unfold MemoryReader_single_file.
  pose proof (encode_regions_count rgns) as Hcount.
  pose proof (single_file_loop_regions rgns fuel [] [] 0 Hspace Hlen ltac:(lia)) as Hloop.
  cbn [app length] in Hloop. change (Z.of_nat 0) with 0 in Hloop.
  rewrite Hloop. eexists _, _. split; [done|].
  cbn [regions_by_mapped]. split.
  - clear Hloop. intros v Hv.
    assert (forall offset acc w,
              w ∈ fold_left (fun m view => map_emplace view m)
                            (views_from offset rgns) acc ->
              w ∈ acc \/ exists off rgn, rgn ∈ rgns /\ w = view_of_region off rgn)
      as Hfrom.
    { clear. induction rgns as [|rgn rgns IH]; intros offset acc w Hw; [by left|].
      cbn [views_from fold_left] in Hw.
      apply IH in Hw as [[->|Hw]%map_emplace_elem|(off & rgn' & Hrgn' & ->)].
      - right. eexists _, rgn. split; [by left|done].
      - by left.
      - right. exists off, rgn'. split; [by right|done]. }
    destruct (Hfrom _ _ _ Hv) as [?%elem_of_nil|H]; [done|exact H].
  - split.
    { pose proof (encode_regions_bytes rgns).
      rewrite total_bytes_fold by lia. lia. }
    intros Hapart.
    destruct (views_fold_wf rgns 0 [] Hspace Hapart)
      as (Hok & Hs & _ & Hall & _); [done|done|by intros w rgn ?%elem_of_nil|].
    assert (regions_wf (mkReader (fold_left (fun m view => map_emplace view m)
                                            (views_from 0 rgns) []))
            = true) as Hwf.
    { unfold regions_wf. cbn [regions_by_mapped]. by rewrite Hok, Hs. }
    split; [done|]. intros start data Hin Hdata.
    destruct (Hall (start, data) Hin) as [off Hv].
    assert (0 < Z.of_nat (length data)) by (destruct data; [done|cbn; lia]).
    rewrite (read_in_view _ _ start (Z.of_nat (length data)) Hwf Hv);
      [|unfold in_view; cbn; lia|lia|cbn; lia].
    f_equal. cbn. unfold string_reader. rewrite Z.sub_diag. cbn [Z.to_nat drop].
    rewrite Nat2Z.id. apply firstn_all.
Qed.

Lemma single_file_round_trip_witness :
  exists reader total_bytes,
    MemoryReader_single_file 38 (encode_regions regions_sample)
    = Some (inr (reader, total_bytes))
    /\ total_bytes = 5
    /\ read reader 0x2000 3 = Ok [Byte.x0a; Byte.x0b; Byte.x0c].
Proof.
  destruct (single_file_round_trip regions_sample 38)
    as (reader & total_bytes & Hload & _ & Htotal & Hread).
  - repeat constructor; cbn; lia.
  - cbn. lia.
  - cbn. lia.
  - exists reader, total_bytes. split; [exact Hload|]. split; [exact Htotal|].
    destruct Hread as [_ Hread].
    + split; [|done]. repeat constructor; cbn; lia.
    + apply (Hread 0x2000 [Byte.x0a; Byte.x0b; Byte.x0c]); [by left|done].
Defined.

Lemma lower_bound_spec buckets s z :
  lower_bound buckets s = z
  <-> (z <= length buckets)%nat
      /\ (forall b, buckets !! z = Some b -> s <= b)
      /\ (forall y b, (y < z)%nat -> buckets !! y = Some b -> b < s).
Proof.
  revert z. induction buckets as [|b buckets IH]; intros z; cbn [lower_bound length].
  - split.
    + intros <-. split; [lia|]. split; [done|]. intros y b' Hy. lia.
    + intros [Hz _]. lia.
  - destruct (Z.ltb_spec b s) as [Hlt|Hge].
    + split.
      * intros <-. destruct (proj1 (IH _) eq_refl) as (Hlen & Hup & Hlow).
        split; [lia|]. split; [exact Hup|].
        intros [|y] b' Hy; cbn; [intros [= <-]; done|].
        apply Hlow. lia.
      * intros (Hlen & Hup & Hlow). destruct z as [|z].
        { specialize (Hup b eq_refl). lia. }
        f_equal. apply IH. split; [lia|]. split; [exact Hup|].
        intros y b' Hy Hb'. apply (Hlow (S y) b'); [lia|done].
    + split.
      * intros <-. split; [lia|]. split; [by intros ? [= <-]|].
        intros y b' Hy. lia.
      * intros (Hlen & Hup & Hlow). destruct z as [|z]; [done|].
        specialize (Hlow 0%nat b ltac:(lia) eq_refl). lia.
Qed.

Lemma alter_S_sum (l : list nat) i :
  (i < length l)%nat -> sum_list (alter S i l) = S (sum_list l).
Proof.
  revert i. induction l as [|x l IH]; intros [|i] Hi; cbn in *; try lia.
  rewrite IH by lia. lia.
Qed.

Lemma histogram_count_sum h i : sum_list (histogram_count h i) = S (sum_list h).
Proof.
  unfold histogram_count. destruct (Nat.leb_spec (length h) i).
  - rewrite alter_S_sum by (rewrite length_app, length_replicate; lia).
    by rewrite sum_list_with_app, sum_list_replicate, Nat.mul_0_r, Nat.add_0_r.
  - by apply alter_S_sum.
Qed.

Lemma histogram_count_lookup h i z :
  default 0%nat (histogram_count h i !! z)
  = (default 0%nat (h !! z) + (if decide (i = z) then 1 else 0))%nat.
Proof.
  unfold histogram_count.
  set (resized := if (length h <=? i)%nat
                  then h ++ replicate (S i - length h) 0%nat else h).
  assert (default 0%nat (resized !! z) = default 0%nat (h !! z)) as Hsame.
  { unfold resized. destruct (Nat.leb_spec (length h) i); [|done].
    destruct (decide (z < length h)%nat).
    - by rewrite lookup_app_l.
    - rewrite lookup_app_r, (lookup_ge_None_2 h z) by lia. cbn.
      destruct (replicate _ _ !! _) eqn:Hr; [|done].
      by apply lookup_replicate in Hr as [-> _]. }
  assert (i < length resized)%nat as Hi.
  { unfold resized. destruct (Nat.leb_spec (length h) i); [|done].
    rewrite length_app, length_replicate. lia. }
  destruct (decide (i = z)) as [<-|Hne].
  - rewrite list_lookup_alter, <- Hsame.
    destruct (lookup_lt_is_Some_2 _ _ Hi) as [x ->].
    rewrite decide_True by done. cbn. lia.
  - rewrite list_lookup_alter, decide_False, Hsame by done. lia.
Qed.

Lemma histogram_fold_lookup (bucket : Z -> nat) found :
  forall h z,
    default 0%nat
      (fold_left (fun h a => histogram_count h (bucket a)) found h !! z)
    = (default 0%nat (h !! z) + length (filter (fun a => bucket a = z) found))%nat.
Proof.
  induction found as [|a found IH]; intros h z; cbn [fold_left].
  - cbn. lia.
  - rewrite IH, histogram_count_lookup, filter_cons.
    destruct (decide (bucket a = z)); cbn [length]; lia.
Qed.

Lemma histogram_fold_sum (bucket : Z -> nat) found :
  forall h,
    sum_list (fold_left (fun h a => histogram_count h (bucket a)) found h)
    = (sum_list h + length found)%nat.
Proof.
  induction found as [|a found IH]; intros h; cbn [fold_left length]; [lia|].
  rewrite IH, histogram_count_sum. lia.
Qed.

Lemma total_size_fold (size : Z -> Z) found :
  forall total,
    in_u64 total ->
    fold_left (fun total a => wrap64 (total + size a)) found total
    = wrap64 (total + foldr (fun a acc => size a + acc) 0 found).
Proof.
  induction found as [|a found IH]; intros total Htotal; cbn [fold_left foldr].
  - by rewrite Z.add_0_r, wrap64_small.
  - rewrite IH by apply wrap64_range. unfold wrap64.
    rewrite Zplus_mod_idemp_l. f_equal. lia.
Qed.

Lemma aggregate_callback_step O D is_bytes type_addr smaller larger st a :
  aggregate_callback O D is_bytes type_addr smaller larger st a
  = if is_aggregated O D is_bytes type_addr a
    then mkAggregate
           (histogram_count (agg_histogram_data st)
              (lower_bound size_buckets (data_size_of D is_bytes a)))
           (wrap64 (agg_total_size st + data_size_of D is_bytes a))
           (S (agg_total_objects st))
           (agg_lines st
            ++ (if decide (larger <= data_size_of D is_bytes a < smaller)
                then [traversal_repr O a] else []))
    else st.
Proof.
  unfold aggregate_callback, is_aggregated, data_size_of.
  destruct (object_ob_type O a =? type_addr); [|done].
  destruct (bool_decide (is_Some (obj_invalid_reason_at D a))); [done|].
  cbn [negb orb andb].
  destruct (string_data_size D is_bytes a) as [s|].
  - rewrite bool_decide_true by by eexists. cbn [default from_option]. unfold id.
    f_equal.
    destruct (Z.geb_spec s larger), (Z.ltb_spec s smaller); cbn [andb].
    + by rewrite decide_True by lia.
    + rewrite decide_False by lia. by rewrite app_nil_r.
    + rewrite decide_False by lia. by rewrite app_nil_r.
    + rewrite decide_False by lia. by rewrite app_nil_r.
  - by rewrite bool_decide_false by (by intros [? ?]).
Qed.

Lemma aggregate_callback_fold O D is_bytes type_addr smaller larger addrs :
  forall st,
    let found := filter (fun a => is_aggregated O D is_bytes type_addr a = true) addrs in
    fold_left (aggregate_callback O D is_bytes type_addr smaller larger) addrs st
    = mkAggregate
        (fold_left (fun h a => histogram_count h
                                 (lower_bound size_buckets (data_size_of D is_bytes a)))
                   found (agg_histogram_data st))
        (fold_left (fun total a => wrap64 (total + data_size_of D is_bytes a))
                   found (agg_total_size st))
        (agg_total_objects st + length found)
        (agg_lines st
         ++ map (traversal_repr O)
              (filter (fun a => larger <= data_size_of D is_bytes a < smaller) found)).
Proof.
  induction addrs as [|a addrs IH]; intros st; cbn [fold_left].
  - destruct st. cbn. by rewrite Nat.add_0_r, app_nil_r.
  - rewrite IH. cbn zeta. rewrite filter_cons.
    destruct (is_aggregated O D is_bytes type_addr a) eqn:Ha.
    + rewrite decide_True by done. rewrite aggregate_callback_step, Ha.
      cbn [agg_histogram_data agg_total_size agg_total_objects agg_lines
           fold_left length].
      rewrite filter_cons. f_equal; [lia|].
      destruct (decide (larger <= data_size_of D is_bytes a < smaller)).
      * cbn [map]. by rewrite <- app_assoc.
      * by rewrite app_nil_r.
    + rewrite decide_False by done. by rewrite aggregate_callback_step, Ha.
Qed.

(** X23.  [aggregate-strings]: on a snapshot that the blocks tile, a run
    that returns has counted each valid string object (at an 8-aligned
    address of a region where an object header fits, of the type [str], or
    [bytes] with [--bytes], and whose size could be decoded) exactly once.
    [total_objects] is their number, [total_size] the sum of their sizes
    in 64 bits, the entries of the histogram add up to their number, and
    entry [z] counts the strings whose size is at most the bound of bucket
    [z] and above the bounds of the buckets before (the last entry, 29,
    those above 1000000000).  The reprs printed are those of the strings
    with [print_larger_than <= size < print_smaller_than]. *)
Theorem aggregate_strings_histogram O D hw env is_bytes smaller larger
    max_threads sched agg :
  let nt := if (max_threads =? 0)%nat then hw else max_threads in
  let r := env_r env in
  regions_wf r = true -> regions_nonempty r = true -> block_tiled r = true ->
  1 <= sizeof_object_header O ->
  (forall v, head (regions_by_mapped r) = Some v -> sizeof_object_header O <= v_size v) ->
  total_size r + block_stride * (Z.of_nat nt + 1) < 2 ^ 64 ->
  c_aggregate_strings O D hw env is_bytes smaller larger max_threads sched
  = Some (Ok agg) ->
  exists type_addr found,
    type_objects env !! (if is_bytes then "bytes" else "str") = Some type_addr
    /\ NoDup found
    /\ (forall a, a ∈ found
                  <-> covered r 8 (sizeof_object_header O) a
                      /\ is_aggregated O D is_bytes type_addr a = true)
    /\ agg_total_objects agg = length found
    /\ agg_total_size agg = wrap64 (data_bytes D is_bytes found)
    /\ sum_list (agg_histogram_data agg) = length found
    /\ (forall z,
          default 0%nat (agg_histogram_data agg !! z)
          = length (filter (fun a => lower_bound size_buckets
                                       (data_size_of D is_bytes a) = z) found))
    /\ (forall s z, lower_bound size_buckets s = z <-> in_bucket z s)
    /\ agg_lines agg
       = map (traversal_repr O)
           (filter (fun a => larger <= data_size_of D is_bytes a < smaller) found).
Proof.
  intros nt r Hwf Hne Htile Hsz Hfirst Htotal H. unfold c_aggregate_strings in H.
  destruct (get_type env _) as [type_addr|] eqn:Hty; [|done].
  fold r in H.
  destruct (map_all_addresses hw r 8 max_threads (sizeof_object_header O) sched)
    as [[cs|]|] eqn:Hscan; [|done..].
  rewrite aggregate_callback_fold in H. cbn zeta in H.
  cbn [agg_histogram_data agg_total_size agg_total_objects agg_lines] in H.
  injection H as <-.
  cbn [agg_histogram_data agg_total_size agg_total_objects agg_lines].
  destruct (scan_calls_covered hw r 8 max_threads (sizeof_object_header O) sched cs)
    as [Hnd Hcov]; [done..|lia|done|done|done|done|].
  exists type_addr,
    (filter (fun a => is_aggregated O D is_bytes type_addr a = true) cs.*1).
  split; [|split; [by apply NoDup_filter|split; [|split; [done|]]]].
  - unfold get_type in Hty. destruct (type_objects env !! _); congruence.
  - intros a. rewrite list_elem_of_filter, Hcov. tauto.
  - split; [|split; [|split; [|split]]].
    + rewrite total_size_fold by (unfold in_u64; lia). done.
    + by rewrite histogram_fold_sum.
    + intros z.
      by rewrite (histogram_fold_lookup
                    (fun a => lower_bound size_buckets (data_size_of D is_bytes a))).
    + intros s z. apply lower_bound_spec.
    + done.
Qed.

Lemma aggregate_strings_histogram_witness :
  exists type_addr found,
    type_objects env_with_str !! "str" = Some type_addr
    /\ NoDup found
    /\ (forall a, a ∈ found
                  <-> covered reader_two_pages 8 16 a
                      /\ is_aggregated objects_sample strings_sample false type_addr a = true)
    /\ 2%nat = length found
    /\ 703 = wrap64 (data_bytes strings_sample false found)
    /\ 2%nat = length found
    /\ (forall z,
          default 0%nat ([0; 0; 0; 1; 0; 0; 0; 0; 0; 0; 1]%nat !! z)
          = length (filter (fun a => lower_bound size_buckets
                                       (data_size_of strings_sample false a) = z) found))
    /\ (forall s z, lower_bound size_buckets s = z <-> in_bucket z s)
    /\ ["<object>@0000000000001400"]
       = map (traversal_repr objects_sample)
           (filter (fun a => 0 <= data_size_of strings_sample false a < 10) found).
Proof.
  apply (aggregate_strings_histogram objects_sample strings_sample 4 env_with_str
           false 10 0 1 (replicate 1200 0%nat)
           (mkAggregate [0; 0; 0; 1; 0; 0; 0; 0; 0; 0; 1]%nat 703 2
              ["<object>@0000000000001400"]));
    try reflexivity; try done.
  intros v [= <-]. cbn. lia.
Defined.

Lemma filter_none {A} (P : A -> Prop) `{!forall x, Decision (P x)} (l : list A) :
  Forall (fun x => ~ P x) l -> filter P l = [].
Proof.
  induction 1 as [|x l Hx _ IH]; [done|].
  by rewrite filter_cons, decide_False.
Qed.

(** X24.  [aggregate-strings] without [--print-smaller-than] (the option
    then reads 0) prints no string at all, whatever
    [--print-larger-than] is: a size is printed only when it is below
    [print_smaller_than]. *)
Theorem aggregate_strings_prints_nothing O D hw env is_bytes larger
    max_threads sched agg :
  (forall a s, string_data_size D is_bytes a = Some s -> 0 <= s) ->
  c_aggregate_strings O D hw env is_bytes 0 larger max_threads sched
  = Some (Ok agg) ->
  agg_lines agg = [].
Proof.
  intros Hsize H. unfold c_aggregate_strings in H.
  destruct (get_type env _) as [type_addr|]; [|done].
  destruct (map_all_addresses _ _ _ _ _ _) as [[cs|]|]; [|done..].
  rewrite aggregate_callback_fold in H. injection H as <-.
  cbn [agg_lines app].
  rewrite filter_none; [done|].
  apply Forall_forall. intros a [Ha _]%list_elem_of_filter.
  unfold is_aggregated in Ha. rewrite !andb_true_iff, bool_decide_eq_true in Ha.
  destruct Ha as [_ [s Hs]]. unfold data_size_of. rewrite Hs. cbn.
  specialize (Hsize a s Hs). lia.
Qed.

Lemma aggregate_strings_prints_nothing_witness :
  let agg := mkAggregate [0; 0; 0; 1; 0; 0; 0; 0; 0; 0; 1]%nat 703 2 [] in
  c_aggregate_strings objects_sample strings_sample 4 env_with_str false 0 1 1
    (replicate 1200 0%nat) = Some (Ok agg)
  /\ agg_lines agg = [].
Proof.
  intros agg.
  assert (c_aggregate_strings objects_sample strings_sample 4 env_with_str
            false 0 1 1 (replicate 1200 0%nat) = Some (Ok agg)) as Hrun
    by (vm_compute; reflexivity).
  split; [exact Hrun|].
  apply (aggregate_strings_prints_nothing objects_sample strings_sample 4
           env_with_str false 1 1 (replicate 1200 0%nat) agg); [|exact Hrun].
  intros a s. cbn. destruct (a =? 5120); [intros [= <-]; lia|].
  destruct (a =? 9216); [intros [= <-]; lia|done].
Defined.

(** X25.  [context] shows the bytes around an address, clipped to the
    region of the address: for an address of a region of a well-formed
    snapshot it does not throw, starts [min size (addr - start)] bytes
    before the address and shows that many bytes and
    [min size (end - addr)] more, all of that region.  For an address of no
    region it throws "Address not within any block". *)
Theorem context_clipped_to_region r addr size :
  regions_wf r = true -> in_u64 size ->
  (forall v, v ∈ regions_by_mapped r -> in_view v addr ->
     let before := Z.min size (addr - v_addr v) in
     let after := Z.min size (v_addr v + v_size v - addr) in
     c_context r addr size
     = Ok (addr - before,
           string_reader (v_data v) (addr - before - v_addr v) (before + after))
     /\ Z.of_nat (length (string_reader (v_data v) (addr - before - v_addr v)
                            (before + after))) = before + after)
  /\ (reader_exists r addr = false ->
      c_context r addr size
      = Throw (out_of_range "Address not within any block")).
Proof.
  intros Hwf Hsize. unfold in_u64 in Hsize. split.
  - intros v Hin Hv before after.
    pose proof (view_ok_spec v (regions_wf_view_ok r v Hwf Hin)) as Hvok.
    unfold in_view in Hv.
    assert (0 <= before <= addr - v_addr v) by (unfold before; lia).
    assert (0 <= after <= v_addr v + v_size v - addr) by (unfold after; lia).
    split.
    + unfold c_context, region_for_address.
      rewrite (find_region_hit r v addr) by done.
      cbn [bind_result fst snd]. cbn zeta.
      unfold MappedPtr.bytes_until, MappedPtr.offset_bytes.
      rewrite (wrap64_small (addr - v_addr v)) by (unfold in_u64; lia).
      rewrite (wrap64_small (v_addr v + v_size v)) by (unfold in_u64; lia).
      rewrite (wrap64_small (v_addr v + v_size v - addr)) by (unfold in_u64; lia).
      fold before after.
      rewrite (wrap64_small (before + after)) by (unfold in_u64; lia).
      rewrite (wrap64_small (addr + - before)) by (unfold in_u64; lia).
      rewrite (read_in_view r v (addr + - before) (before + after));
        [|done|done|unfold in_view; lia|lia|lia].
      cbn [bind_result]. do 3 f_equal; lia.
    + apply string_reader_length; lia.
  - unfold reader_exists, c_context, region_for_address.
    intros Hnone. unfold find_region_by_mapped_addr in *.
    destruct (upper_bound_prev _ _ _) as [v|]; [|done].
    by destruct (_ <=? _).
Qed.

Lemma context_clipped_to_region_witness :
  c_context reader_with_data 0x1010 0x18
  = Ok (0x1000,
        repeat Byte.x00 16
        ++ [Byte.x01; Byte.x02; Byte.x03; Byte.x04;
            Byte.x05; Byte.x06; Byte.x07; Byte.x08]
        ++ repeat Byte.x00 16).
Proof.
  destruct (context_clipped_to_region reader_with_data 0x1010 0x18) as [Hin _].
  - reflexivity.
  - unfold in_u64. lia.
  - destruct (Hin (mkView 0x1000 0
                     (repeat Byte.x00 16
                      ++ [Byte.x01; Byte.x02; Byte.x03; Byte.x04;
                          Byte.x05; Byte.x06; Byte.x07; Byte.x08]
                      ++ repeat Byte.x00 (4096 - 24)) 0x1000)) as [Hctx _].
    + by left.
    + unfold in_view. cbn. lia.
    + rewrite Hctx. reflexivity.
Defined.
